(** * GridGuard board engine (utils/gameLogic): a shallow embedding

    The engine works on a grid [Cell[][]].  The embedding keeps the grid as a
    list of rows, reads it with JavaScript's rules (an index outside an array
    gives [undefined]; reading a property of [undefined] throws a TypeError)
    and writes it with stdpp's list insert.  Row and column arguments are
    JavaScript numbers; the embedding covers the integers ([Z]), which is what
    the callers pass.  Every engine function first deep-copies the grid
    ([cells.map(r => r.map(c => ({...c})))]); on immutable values the copy is
    the identity and is not written out. *)

From Stdlib Require Import ZArith List Lia Permutation Ascii String.
From stdpp Require Import base tactics option list gmap strings pretty.

(** ** Data model *)

Record Cell := mkCell {
  id : string;
  row : Z;
  col : Z;
  isMine : bool;
  isRevealed : bool;
  isFlagged : bool;
  isQuestioned : bool;
  neighborMines : Z;
  isExploded : option bool  (* optional property: [None] when absent *)
}.

Record Position := mkPos { prow : Z; pcol : Z }.

Abbreviation Cells := (list (list Cell)).

(** What a call produces: a value, a TypeError, or a grid in which an
    [undefined] entry has been stored ([Sparse]); such grids are not values
    of [Cells], and no rectangular board leads to one. *)
Inductive Outcome (A : Type) : Type :=
| Ret (a : A)
| Throw
| Sparse.
Arguments Ret {A} a.
Arguments Throw {A}.
Arguments Sparse {A}.

#[global] Instance Outcome_bind : MBind Outcome := λ A B f m,
  match m with
  | Ret a => f a
  | Throw => Throw
  | Sparse => Sparse
  end.

(** [l[i]] for a JavaScript number [i]. *)
Definition at_ {A} (l : list A) (i : Z) : option A :=
  if decide (0 ≤ i)%Z then l !! Z.to_nat i else None.

(** [cells[row][col]] when both reads find something. *)
Definition cellAt (cells : Cells) (r c : Z) : option Cell :=
  match at_ cells r with
  | Some rw => at_ rw c
  | None => None
  end.

(** [cells[row][col]] followed by a property read. *)
Definition readCell (cells : Cells) (r c : Z) : Outcome Cell :=
  match cellAt cells r c with
  | Some x => Ret x
  | None => Throw
  end.

(** [cells[row][col].field = v], as an update [f] of the cell found. *)
Definition modifyCell (f : Cell → Cell) (cells : Cells) (r c : Z) : Outcome Cells :=
  match at_ cells r with
  | None => Throw
  | Some rw =>
      match at_ rw c with
      | None => Throw
      | Some x => Ret (<[Z.to_nat r := <[Z.to_nat c := f x]> rw]> cells)
      end
  end.

Definition setRevealed (x : Cell) : Cell :=
  mkCell (id x) (row x) (col x) (isMine x) true (isFlagged x) (isQuestioned x)
         (neighborMines x) (isExploded x).

Definition setMine (x : Cell) : Cell :=
  mkCell (id x) (row x) (col x) true (isRevealed x) (isFlagged x) (isQuestioned x)
         (neighborMines x) (isExploded x).

Definition setNeighborMines (n : Z) (x : Cell) : Cell :=
  mkCell (id x) (row x) (col x) (isMine x) (isRevealed x) (isFlagged x)
         (isQuestioned x) n (isExploded x).

(** ** constants: DIRECTIONS *)

Definition DIRECTIONS : list (Z * Z) :=
  [ (-1, -1); (-1, 0); (-1, 1);
    (0, -1);           (0, 1);
    (1, -1);  (1, 0);  (1, 1) ]%Z.

(** ** gameLogic *)

(** [`cell-${row}-${col}`]: integers print in decimal, with a leading minus
    sign when negative. *)
Definition generateCellId (r c : Z) : string :=
  "cell-" +:+ pretty r +:+ "-" +:+ pretty c.

Definition createEmptyCell (r c : Z) : Cell :=
  mkCell (generateCellId r c) r c false false false false 0%Z None.

Definition initializeEmptyBoard (rows cols : nat) : Cells :=
  map (λ r, map (λ c, createEmptyCell (Z.of_nat r) (Z.of_nat c)) (seq 0 cols))
      (seq 0 rows).

Definition isValidPosition (r c rows cols : Z) : bool :=
  (0 <=? r)%Z && (r <? rows)%Z && (0 <=? c)%Z && (c <? cols)%Z.

Definition getNeighborPositions (r c rows cols : Z) : list Position :=
  List.filter (λ pos, isValidPosition (prow pos) (pcol pos) rows cols)
    (map (λ d, mkPos (r + fst d) (c + snd d)) DIRECTIONS).

(** [arr.slice(0, e)]. *)
Definition slice0 {A} (l : list A) (e : Z) : list A :=
  if (e <? 0)%Z then take (Z.to_nat (Z.max (Z.of_nat (length l) + e) 0)) l
  else take (Z.to_nat (Z.min e (Z.of_nat (length l)))) l.

Section Placement.
(** [[...availablePositions].sort(() => Math.random() - 0.5)]: the random
    source is a parameter; the theorems assume only that it permutes. *)
Variable shuffle : list Position → list Position.

Definition excludedPositions (firstClick : Position) (rows cols : Z) : gset string :=
  foldl (λ s pos, {[ generateCellId (prow pos) (pcol pos) ]} ∪ s)
        {[ generateCellId (prow firstClick) (pcol firstClick) ]}
        (getNeighborPositions (prow firstClick) (pcol firstClick) rows cols).

Definition availablePositions (excluded : gset string) (rows cols : nat)
  : list Position :=
  r ← seq 0 rows; c ← seq 0 cols;
  if decide (generateCellId (Z.of_nat r) (Z.of_nat c) ∈ excluded) then []
  else [mkPos (Z.of_nat r) (Z.of_nat c)].

Definition placeMines (cells : Cells) (totalMines : Z) (firstClick : Position)
  : Outcome Cells :=
  match cells with
  | [] => Throw
  | r0 :: _ =>
      let rows := length cells in
      let cols := length r0 in
      let excluded := excludedPositions firstClick (Z.of_nat rows) (Z.of_nat cols) in
      let shuffled := shuffle (availablePositions excluded rows cols) in
      let minePositions :=
        slice0 shuffled (Z.min totalMines (Z.of_nat (length shuffled))) in
      foldl (λ acc pos, newCells ← acc;
                        modifyCell setMine newCells (prow pos) (pcol pos))
            (Ret cells) minePositions
  end.
End Placement.

(** [neighbors.filter(pos => newCells[pos.row][pos.col].isMine).length] *)
Fixpoint countMines (cells : Cells) (ps : list Position) : Outcome Z :=
  match ps with
  | [] => Ret 0%Z
  | pos :: ps' =>
      x ← readCell cells (prow pos) (pcol pos);
      n ← countMines cells ps';
      Ret (if isMine x then (1 + n)%Z else n)
  end.

Definition calculateNeighborMines (cells : Cells) : Outcome Cells :=
  match cells with
  | [] => Throw
  | r0 :: _ =>
      let rows := length cells in
      let cols := length r0 in
      foldl (λ acc r,
        foldl (λ acc c,
          newCells ← acc;
          x ← readCell newCells (Z.of_nat r) (Z.of_nat c);
          if isMine x then Ret newCells
          else
            mineCount ←
              countMines newCells
                (getNeighborPositions (Z.of_nat r) (Z.of_nat c)
                   (Z.of_nat rows) (Z.of_nat cols));
            modifyCell (setNeighborMines mineCount) newCells (Z.of_nat r) (Z.of_nat c))
          acc (seq 0 cols))
        (Ret cells) (seq 0 rows)
  end.

(** [newCells[r][c] = v] for loop indices [r], [c]; an array grows by one
    when written just past its end. *)
Definition storeCell (cells : Cells) (r c : nat) (v : option Cell) : Outcome Cells :=
  match cells !! r with
  | None => Throw
  | Some rw =>
      match v with
      | None => Sparse
      | Some x =>
          if decide (c < length rw) then Ret (<[r := <[c := x]> rw]> cells)
          else if decide (c = length rw) then Ret (<[r := rw ++ [x]]> cells)
          else Sparse
      end
  end.

(** The two loops that copy [revealed] back into [newCells]. *)
Definition copyBack (rows cols : nat) (newCells revealed : Cells) : Outcome Cells :=
  foldl (λ acc r,
    foldl (λ acc c,
      nc ← acc;
      match revealed !! r with
      | None => Throw
      | Some rr => storeCell nc r c (rr !! c)
      end) acc (seq 0 cols))
    (Ret newCells) (seq 0 rows).

(** One round of [neighbors.forEach]; [rec] is the recursive call.  A throw
    leaves the loop. *)
Definition floodStep (rec : Cells → Z → Z → option (Outcome Cells))
    (rows cols : nat) (acc : option (Outcome Cells)) (n : Position)
  : option (Outcome Cells) :=
  match acc with
  | Some (Ret newCells) =>
      match cellAt newCells (prow n) (pcol n) with
      | None => Some Throw
      | Some x =>
          if negb (isRevealed x) && negb (isFlagged x) then
            match rec newCells (prow n) (pcol n) with
            | Some (Ret revealed) => Some (copyBack rows cols newCells revealed)
            | other => other
            end
          else acc
      end
  | _ => acc
  end.

(** [revealCell] calls itself; the embedding bounds the depth of the calls by
    [fuel], [None] meaning that the bound was reached. *)
Fixpoint revealCell_fuel (fuel : nat) (cells : Cells) (r c : Z)
  : option (Outcome Cells) :=
  match fuel with
  | O => None
  | S fuel' =>
      match cells with
      | [] => Some Throw
      | r0 :: _ =>
          let rows := length cells in
          let cols := length r0 in
          if negb (isValidPosition r c (Z.of_nat rows) (Z.of_nat cols))
          then Some (Ret cells)
          else
            match cellAt cells r c with
            | None => Some Throw
            | Some cell =>
                if isRevealed cell || isFlagged cell then Some (Ret cells)
                else
                  match modifyCell setRevealed cells r c with
                  | Ret newCells =>
                      if (neighborMines cell =? 0)%Z && negb (isMine cell) then
                        foldl (floodStep (revealCell_fuel fuel') rows cols)
                              (Some (Ret newCells))
                              (getNeighborPositions r c (Z.of_nat rows) (Z.of_nat cols))
                      else Some (Ret newCells)
                  | other => Some other
                  end
            end
      end
  end.

(** [cells.flat().filter(cell => !cell.isRevealed).length]: the measure of
    the recursion. *)
Definition unrevealedCount (cells : Cells) : nat :=
  length (List.filter (λ x, negb (isRevealed x)) (concat cells)).

(** [revealCell], with as much depth as there are unrevealed cells, and one
    more. *)
Definition revealCell (cells : Cells) (r c : Z) : option (Outcome Cells) :=
  revealCell_fuel (S (unrevealedCount cells)) cells r c.

Definition flagToggled (x : Cell) : Cell :=
  if isRevealed x then x
  else
    let flagged := negb (isFlagged x) in
    mkCell (id x) (row x) (col x) (isMine x) (isRevealed x) flagged
           (if flagged then false else isQuestioned x)
           (neighborMines x) (isExploded x).

Definition toggleFlag (cells : Cells) (r c : Z) : Outcome Cells :=
  modifyCell flagToggled cells r c.

Definition questionToggled (x : Cell) : Cell :=
  if negb (isRevealed x) && negb (isFlagged x) then
    mkCell (id x) (row x) (col x) (isMine x) (isRevealed x) (isFlagged x)
           (negb (isQuestioned x)) (neighborMines x) (isExploded x)
  else x.

Definition toggleQuestion (cells : Cells) (r c : Z) : Outcome Cells :=
  modifyCell questionToggled cells r c.

Definition getRevealedCount (cells : Cells) : nat :=
  length (List.filter isRevealed (concat cells)).

Definition getFlagCount (cells : Cells) : nat :=
  length (List.filter isFlagged (concat cells)).

Definition checkWinCondition (cells : Cells) (totalMines : Z) : Outcome bool :=
  match cells with
  | [] => Throw
  | r0 :: _ =>
      let totalCells := (Z.of_nat (length cells) * Z.of_nat (length r0))%Z in
      let revealedCells := Z.of_nat (length (List.filter isRevealed (concat cells))) in
      Ret (revealedCells =? totalCells - totalMines)%Z
  end.

Definition revealAllMines (cells : Cells) (explodedRow explodedCol : Z) : Cells :=
  map (λ rw,
    map (λ x,
      mkCell (id x) (row x) (col x) (isMine x)
             (if isMine x then true else isRevealed x)
             (isFlagged x) (isQuestioned x) (neighborMines x)
             (Some (isMine x && (row x =? explodedRow)%Z && (col x =? explodedCol)%Z)))
      rw) cells.

(** ** Notions used in the statements *)

(** A board has at least one row, and every row is as long as the first. *)
Definition rectangular (cells : Cells) : bool :=
  match cells with
  | [] => false
  | r0 :: _ => forallb (λ rw, length rw =? length r0) cells
  end.

Definition numRows (cells : Cells) : Z := Z.of_nat (length cells).

Definition numCols (cells : Cells) : Z :=
  match cells with
  | [] => 0%Z
  | r0 :: _ => Z.of_nat (length r0)
  end.

Definition inBounds (cells : Cells) (p : Position) : bool :=
  isValidPosition (prow p) (pcol p) (numRows cells) (numCols cells).

Definition revealedAt (cells : Cells) (p : Position) : bool :=
  match cellAt cells (prow p) (pcol p) with
  | Some x => isRevealed x
  | None => false
  end.

Definition flaggedAt (cells : Cells) (p : Position) : bool :=
  match cellAt cells (prow p) (pcol p) with
  | Some x => isFlagged x
  | None => false
  end.

Definition mineAt (cells : Cells) (p : Position) : bool :=
  match cellAt cells (prow p) (pcol p) with
  | Some x => isMine x
  | None => false
  end.

(** A cell the flood expands from: [neighborMines === 0 && !isMine]. *)
Definition zeroSafeAt (cells : Cells) (p : Position) : bool :=
  match cellAt cells (prow p) (pcol p) with
  | Some x => (neighborMines x =? 0)%Z && negb (isMine x)
  | None => false
  end.

(** Chebyshev distance one. *)
Definition near (p q : Position) : bool :=
  (Z.max (Z.abs (prow q - prow p)) (Z.abs (pcol q - pcol p)) =? 1)%Z.

Definition adjacent (cells : Cells) (p q : Position) : Prop :=
  inBounds cells q = true ∧ near p q = true.

(** The cell itself or one of its neighbours. *)
Definition around (p q : Position) : bool :=
  (Z.abs (prow q - prow p) <=? 1)%Z && (Z.abs (pcol q - pcol p) <=? 1)%Z.

(** The connected zero-region of [p]: what chains of adjacent zero cells
    reach from [p]. *)
Inductive zeroRegion (cells : Cells) (p : Position) : Position → Prop :=
| zeroRegion_start : zeroRegion cells p p
| zeroRegion_step m q :
    zeroRegion cells p m → adjacent cells m q → zeroSafeAt cells q = true →
    zeroRegion cells p q.

(** The region together with the cells that border it. *)
Definition regionOrBorder (cells : Cells) (p q : Position) : Prop :=
  zeroRegion cells p q ∨ ∃ m, zeroRegion cells p m ∧ adjacent cells m q.

(** What the flood started at [p] walks over: chains of adjacent cells that
    leave zero cells only, enter unflagged cells only, and pass through a
    cell only if it was not revealed before. *)
Inductive floods (cells : Cells) : Position → Position → Prop :=
| floods_last p q :
    zeroSafeAt cells p = true → adjacent cells p q → flaggedAt cells q = false →
    floods cells p q
| floods_through p m q :
    zeroSafeAt cells p = true → adjacent cells p m → flaggedAt cells m = false →
    revealedAt cells m = false → floods cells m q →
    floods cells p q.

(** One cell before and after a reveal: every field but [isRevealed] is the
    same, and [isRevealed] only goes from false to true. *)
Definition cellGrows (x y : Cell) : Prop :=
  id y = id x ∧ row y = row x ∧ col y = col x ∧ isMine y = isMine x ∧
  isFlagged y = isFlagged x ∧ isQuestioned y = isQuestioned x ∧
  neighborMines y = neighborMines x ∧ isExploded y = isExploded x ∧
  (isRevealed x = true → isRevealed y = true).

Definition grows (cells out : Cells) : Prop :=
  Forall2 (Forall2 cellGrows) cells out.

(** The cell invariant of the data model, and its three parts. *)
Definition notBoth (x : Cell) : bool := negb (isFlagged x && isQuestioned x).
Definition revealedUnflagged (x : Cell) : bool := negb (isRevealed x && isFlagged x).
Definition revealedUnquestioned (x : Cell) : bool :=
  negb (isRevealed x && isQuestioned x).

Definition cellOk (x : Cell) : bool :=
  notBoth x && revealedUnflagged x && revealedUnquestioned x.

Definition everyCell (P : Cell → bool) (cells : Cells) : bool :=
  forallb (forallb P) cells.

Definition cellInvariant (cells : Cells) : bool := everyCell cellOk cells.

(** Every cell carries its own coordinates, as [createEmptyCell] sets them
    ([row] and [col] are read-only). *)
Definition coordsOk (cells : Cells) : bool :=
  bool_decide (map (map (λ x, (row x, col x))) cells
               = map (map (λ x, (row x, col x)))
                     (initializeEmptyBoard (length cells) (Z.to_nat (numCols cells)))).

Definition countCells (P : Cell → bool) (cells : Cells) : nat :=
  length (List.filter P (concat cells)).

(** The positions of a grid, row by row. *)
Definition gridPositions (rows cols : nat) : list Position :=
  r ← seq 0 rows; c ← seq 0 cols; [mkPos (Z.of_nat r) (Z.of_nat c)].

(** The spec's [eligibleCount]: the cells outside [p] and its neighbourhood. *)
Definition eligibleCount (cells : Cells) (p : Position) : nat :=
  length (List.filter (λ q, negb (around p q))
            (gridPositions (length cells) (Z.to_nat (numCols cells)))).

(** A string without a minus sign. *)
Fixpoint noDash (s : string) : Prop :=
  match s with
  | EmptyString => True
  | String a s' => a ≠ "-"%char ∧ noDash s'
  end.

#[global] Instance Position_eq_dec : EqDecision Position.
Proof. solve_decision. Defined.

(** A position [revealCell] acts on: in bounds, neither revealed nor flagged. *)
Definition revealable (cells : Cells) (p : Position) : bool :=
  inBounds cells p && negb (revealedAt cells p || flaggedAt cells p).

(** Every unflagged neighbour of [q] is revealed in [out]. *)
Definition closedAt (cells out : Cells) (q : Position) : Prop :=
  ∀ n, adjacent cells q n → flaggedAt cells n = false → revealedAt out n = true.

(** What one effective call of [revealCell] at [p] establishes. *)
Record floodPost (cells : Cells) (p : Position) (out : Cells) : Prop := {
  post_grows : grows cells out;
  post_start : revealedAt out p = true;
  post_closed : ∀ q,
    revealedAt cells q = false → revealedAt out q = true →
    zeroSafeAt cells q = true → closedAt cells out q;
  post_sound : ∀ q,
    revealedAt cells q = false → revealedAt out q = true →
    q = p ∨ floods cells p q
}.

(** The state of the [forEach] loop over the neighbours of [p], after the
    neighbours in [visited]. *)
Record floodInv (cells : Cells) (p : Position) (visited : list Position)
    (s : Cells) : Prop := {
  inv_grows : grows cells s;
  inv_start : revealedAt s p = true;
  inv_visited : ∀ m,
    m ∈ visited → flaggedAt cells m = false → revealedAt s m = true;
  inv_closed : ∀ q,
    q ≠ p → revealedAt cells q = false → revealedAt s q = true →
    zeroSafeAt cells q = true → closedAt cells s q;
  inv_sound : ∀ q,
    revealedAt cells q = false → revealedAt s q = true →
    q = p ∨ floods cells p q
}.

(** The flood property as the specification words it: on a board with
    correct counts, revealing a zero cell reveals its whole zero-region and
    the border of the region. *)
Definition specFloodProperty : Prop :=
  ∀ (cells : Cells) (p : Position) (x : Cell),
    rectangular cells = true →
    calculateNeighborMines cells = Ret cells →
    cellAt cells (prow p) (pcol p) = Some x →
    isRevealed x = false → isFlagged x = false →
    neighborMines x = 0%Z → isMine x = false →
    ∃ out, revealCell cells (prow p) (pcol p) = Some (Ret out) ∧
           ∀ q, regionOrBorder cells p q → revealedAt out q = true.

(** ** Boards used as examples *)

(** One row: two safe cells and a mine, counts as [calculateNeighborMines]
    leaves them. *)
Definition rowWithMine : Cells :=
  [[ mkCell "cell-0-0" 0 0 false false false false 0 None;
     mkCell "cell-0-1" 0 1 false false false false 1 None;
     mkCell "cell-0-2" 0 2 true false false false 0 None ]].

(** One row without mines whose second cell carries a flag. *)
Definition rowWithFlag : Cells :=
  [[ mkCell "cell-0-0" 0 0 false false false false 0 None;
     mkCell "cell-0-1" 0 1 false false true false 0 None ]].

(** One row of three zero cells, the middle one already revealed. *)
Definition rowWithRevealed : Cells :=
  [[ mkCell "cell-0-0" 0 0 false false false false 0 None;
     mkCell "cell-0-1" 0 1 false true false false 0 None;
     mkCell "cell-0-2" 0 2 false false false false 0 None ]].

(** One questioned cell; one flagged mine. *)
Definition questionedCell : Cells :=
  [[ mkCell "cell-0-0" 0 0 false false false true 0 None ]].

Definition flaggedMine : Cells :=
  [[ mkCell "cell-0-0" 0 0 true false true false 0 None ]].

(** A property of the board a call returns, when it returns one. *)
Definition whenRet {A} (Q : A → Prop) (o : Outcome A) : Prop :=
  match o with
  | Ret a => Q a
  | _ => True
  end.

(** ** Notions used in the further statements *)

(** How many of [i - 1], [i], [i + 1] lie in [0, n), for [i] in that range. *)
Definition span (i n : Z) : Z :=
  ((if (0 <? i)%Z then 1 else 0) + 1 + (if (i + 1 <? n)%Z then 1 else 0))%Z.

(** The mines among the in-bounds neighbours of [p], counted by hand. *)
Definition mineCountAt (cells : Cells) (p : Position) : Z :=
  Z.of_nat (length (List.filter (mineAt cells)
    (getNeighborPositions (prow p) (pcol p) (numRows cells) (numCols cells)))).

(** Every cell that is not a mine carries the number of mines around it. *)
Definition countsCorrect (cells : Cells) : Prop :=
  ∀ p x, cellAt cells (prow p) (pcol p) = Some x → isMine x = false →
         neighborMines x = mineCountAt cells p.

(** The cell [x] of position [(r, c)] as [calculateNeighborMines] leaves it. *)
Definition counted (cells : Cells) (r c : Z) (x : Cell) : Cell :=
  if isMine x then x else setNeighborMines (mineCountAt cells (mkPos r c)) x.

(** The state of the loops of [calculateNeighborMines] on [cells] when they
    reach row [i], column [j]: the cells before that point are counted, the
    others are as they were. *)
Definition countLoopInv (cells : Cells) (i j : nat) (s : Cells) : Prop :=
  ∀ r c, cellAt s r c
         = (λ x, if decide (r < Z.of_nat i ∨ (r = Z.of_nat i ∧ c < Z.of_nat j))%Z
                 then counted cells r c x else x) <$> cellAt cells r c.

(** One cell before and after mine placement: every field but [isMine] is
    the same, and [isMine] only goes from false to true. *)
Definition cellMined (x y : Cell) : Prop :=
  id y = id x ∧ row y = row x ∧ col y = col x ∧
  isRevealed y = isRevealed x ∧ isFlagged y = isFlagged x ∧
  isQuestioned y = isQuestioned x ∧ neighborMines y = neighborMines x ∧
  isExploded y = isExploded x ∧ (isMine x = true → isMine y = true).

(** A board in play: rectangular, with correct counts, holding [totalMines]
    mines, none of them revealed. *)
Definition inPlay (cells : Cells) (totalMines : Z) : Prop :=
  rectangular cells = true ∧ countsCorrect cells ∧
  Z.of_nat (countCells isMine cells) = totalMines ∧
  everyCell (λ x, negb (isMine x && isRevealed x)) cells = true.

(** ** types, constants: difficulty levels and boards *)

Inductive Difficulty : Type := BEGINNER | INTERMEDIATE | EXPERT | CUSTOM.

Module DifficultyConfig.
Record t : Type := mk {
  rows : nat; cols : nat; mines : Z; name : string; description : string
}.
End DifficultyConfig.

Module CustomConfig.
Record t : Type := mk { rows : nat; cols : nat; mines : Z }.
End CustomConfig.

Module GameBoard.
Record t : Type := mk { cells : Cells; rows : nat; cols : nat; totalMines : Z }.
End GameBoard.

Definition DIFFICULTY_CONFIGS (d : Difficulty) : DifficultyConfig.t :=
  match d with
  | BEGINNER =>
      DifficultyConfig.mk 9 9 10 "Beginner" "Perfect for learning the basics"
  | INTERMEDIATE =>
      DifficultyConfig.mk 16 16 40 "Intermediate" "A balanced challenge"
  | EXPERT =>
      DifficultyConfig.mk 16 30 99 "Expert" "For seasoned players"
  | CUSTOM =>
      DifficultyConfig.mk 10 10 15 "Custom" "Create your own challenge"
  end.

(** [createNewBoard(difficulty, customConfig?)]: the custom configuration is
    used when the difficulty is CUSTOM and a configuration is given. *)
Definition createNewBoard (difficulty : Difficulty)
    (customConfig : option CustomConfig.t) : GameBoard.t :=
  match difficulty, customConfig with
  | CUSTOM, Some config =>
      GameBoard.mk
        (initializeEmptyBoard (CustomConfig.rows config) (CustomConfig.cols config))
        (CustomConfig.rows config) (CustomConfig.cols config)
        (CustomConfig.mines config)
  | _, _ =>
      let config := DIFFICULTY_CONFIGS difficulty in
      GameBoard.mk
        (initializeEmptyBoard (DifficultyConfig.rows config)
                              (DifficultyConfig.cols config))
        (DifficultyConfig.rows config) (DifficultyConfig.cols config)
        (DifficultyConfig.mines config)
  end.

(** ** utils/storage

    [localStorage] is a finite map from keys to texts that either works or
    throws on every access ([available]); quota errors are not modelled.
    [JSON.stringify] and [JSON.parse] are parameters, one pair per stored
    type; a text that does not parse gives [None], and texts that parse to a
    value of another shape are outside the model.  The [date] of a score is
    kept as its JSON text.  [console.error] is not modelled. *)

#[global] Instance Difficulty_eq_dec : EqDecision Difficulty.
Proof. solve_decision. Defined.

Module HighScore.
Record t : Type := mk {
  id : string; playerName : string; difficulty : Difficulty;
  time : Z; date : string; moves : Z
}.
End HighScore.

Inductive Theme : Type := light | dark.

Module UserPreferences.
Record t : Type := mk {
  soundEnabled : bool; animationsEnabled : bool; theme : Theme;
  questionMarksEnabled : bool
}.
End UserPreferences.

Definition DEFAULT_PREFERENCES : UserPreferences.t :=
  UserPreferences.mk true true dark true.

Module STORAGE_KEYS.
Definition HIGH_SCORES : string := "gridguard_high_scores".
Definition USER_PREFERENCES : string := "gridguard_preferences".
Definition SAVED_GAME : string := "gridguard_saved_game".
End STORAGE_KEYS.

Module LocalStorage.
Record t : Type := mk { available : bool; items : gmap string string }.
End LocalStorage.

(** [getItem]: a missing key, an empty text, a text that does not parse and
    a storage that throws all give [null]. *)
Definition getItem {T} (parse : string → option T) (key : string)
    (st : LocalStorage.t) : option T :=
  if LocalStorage.available st then
    match LocalStorage.items st !! key with
    | None => None
    | Some item => if String.eqb item "" then None else parse item
    end
  else None.

Definition setItem {T} (stringify : T → string) (key : string) (value : T)
    (st : LocalStorage.t) : bool * LocalStorage.t :=
  if LocalStorage.available st then
    (true, LocalStorage.mk true (<[key := stringify value]> (LocalStorage.items st)))
  else (false, st).

Definition removeItem (key : string) (st : LocalStorage.t) : LocalStorage.t :=
  if LocalStorage.available st then
    LocalStorage.mk true (delete key (LocalStorage.items st))
  else st.

(** [scores.sort((a, b) => a.time - b.time)]: the sort is stable, so its
    result is determined; the model inserts each score after the scores that
    are not slower. *)
Fixpoint insertByTime (x : HighScore.t) (l : list HighScore.t) : list HighScore.t :=
  match l with
  | [] => [x]
  | y :: l' =>
      if (HighScore.time x <? HighScore.time y)%Z then x :: y :: l'
      else y :: insertByTime x l'
  end.

Definition sortByTime (l : list HighScore.t) : list HighScore.t :=
  foldl (λ acc x, insertByTime x acc) [] l.

Section Storage.
Variable stringifyScores : list HighScore.t → string.
Variable parseScores : string → option (list HighScore.t).
Variable stringifyPreferences : UserPreferences.t → string.
Variable parsePreferences : string → option UserPreferences.t.

Definition getHighScores (st : LocalStorage.t) : list HighScore.t :=
  let scores :=
    match getItem parseScores STORAGE_KEYS.HIGH_SCORES st with
    | Some scores => scores
    | None => []
    end in
  sortByTime scores.

Definition addHighScore (score : HighScore.t) (st : LocalStorage.t)
  : list HighScore.t * LocalStorage.t :=
  let scores := getHighScores st ++ [score] in
  let topScores :=
    take 10 (sortByTime
      (List.filter (λ s, bool_decide (HighScore.difficulty s
                                      = HighScore.difficulty score)) scores)) in
  let otherScores :=
    List.filter (λ s, negb (bool_decide (HighScore.difficulty s
                                         = HighScore.difficulty score))) scores in
  let allScores := topScores ++ otherScores in
  (allScores, snd (setItem stringifyScores STORAGE_KEYS.HIGH_SCORES allScores st)).

Definition getUserPreferences (st : LocalStorage.t) : UserPreferences.t :=
  match getItem parsePreferences STORAGE_KEYS.USER_PREFERENCES st with
  | Some prefs => prefs
  | None => DEFAULT_PREFERENCES
  end.

Definition saveUserPreferences (preferences : UserPreferences.t)
    (st : LocalStorage.t) : bool * LocalStorage.t :=
  setItem stringifyPreferences STORAGE_KEYS.USER_PREFERENCES preferences st.
End Storage.

Definition clearHighScores (st : LocalStorage.t) : LocalStorage.t :=
  removeItem STORAGE_KEYS.HIGH_SCORES st.

Definition clearAllData (st : LocalStorage.t) : LocalStorage.t :=
  foldl (λ s key, removeItem key s) st
        [STORAGE_KEYS.HIGH_SCORES; STORAGE_KEYS.USER_PREFERENCES;
         STORAGE_KEYS.SAVED_GAME].

(** [isStorageAvailable] writes and removes a test key. *)
Definition isStorageAvailable (st : LocalStorage.t) : bool * LocalStorage.t :=
  if LocalStorage.available st then
    (true, LocalStorage.mk true (delete "__storage_test__"
             (<["__storage_test__" := "__storage_test__"]> (LocalStorage.items st))))
  else (false, st).

(** A list of scores in which no score is slower than a later one. *)
Fixpoint sortedByTime (l : list HighScore.t) : Prop :=
  match l with
  | [] => True
  | x :: l' =>
      Forall (λ y, (HighScore.time x ≤ HighScore.time y)%Z) l' ∧ sortedByTime l'
  end.

Definition sameDifficulty (score s : HighScore.t) : bool :=
  bool_decide (HighScore.difficulty s = HighScore.difficulty score).

(** Sample storage contents. *)
Definition fastScore : HighScore.t :=
  HighScore.mk "a" "Ada" BEGINNER 42 "2024-01-01T00:00:00.000Z" 30.

Definition emptyStorage : LocalStorage.t := LocalStorage.mk true ∅.

Definition brokenStorage : LocalStorage.t := LocalStorage.mk false ∅.

(** A codec for the lists of scores the samples need. *)
Definition sampleStringifyScores (l : list HighScore.t) : string :=
  match l with [] => "[]" | _ => "[a]" end.

Definition sampleParseScores (text : string) : option (list HighScore.t) :=
  if String.eqb text "[]" then Some []
  else if String.eqb text "[a]" then Some [fastScore] else None.

Definition quietPreferences : UserPreferences.t :=
  UserPreferences.mk false true light false.

Definition sampleStringifyPreferences (p : UserPreferences.t) : string :=
  if UserPreferences.soundEnabled p then "{default}" else "{quiet}".

Definition sampleParsePreferences (text : string) : option UserPreferences.t :=
  if String.eqb text "{default}" then Some DEFAULT_PREFERENCES
  else if String.eqb text "{quiet}" then Some quietPreferences else None.

(** ** components/Controls: the clock *)

Fixpoint repeatChar (n : nat) (ch : ascii) : string :=
  match n with
  | O => EmptyString
  | S n' => String ch (repeatChar n' ch)
  end.

(** [s.padStart(targetLength, padString)] for a one-character [padString]. *)
Definition padStart (targetLength : nat) (padString : ascii) (s : string) : string :=
  repeatChar (targetLength - String.length s) padString +:+ s.

(** [formatTime] of a whole number of seconds. *)
Definition formatTime (seconds : Z) : string :=
  let mins := (seconds / 60)%Z in
  let secs := Z.rem seconds 60 in
  padStart 2 "0" (pretty mins) +:+ ":" +:+ padStart 2 "0" (pretty secs).

Fixpoint noColon (s : string) : Prop :=
  match s with
  | EmptyString => True
  | String a s' => a ≠ ":"%char ∧ noColon s'
  end.

(** * Reading and writing the grid *)

Lemma at_Some {A} (l : list A) (i : Z) (x : A) :
  at_ l i = Some x ↔ (0 ≤ i)%Z ∧ l !! Z.to_nat i = Some x.
Proof. unfold at_. destruct (decide (0 ≤ i)%Z); [tauto|]. split; [done|tauto]. Qed.

Lemma at_of_nat {A} (l : list A) (n : nat) : at_ l (Z.of_nat n) = l !! n.
Proof. unfold at_. destruct (decide (0 ≤ Z.of_nat n)%Z); [by rewrite Nat2Z.id | lia]. Qed.

Lemma cellAt_Some cells r c x :
  cellAt cells r c = Some x ↔
  (0 ≤ r)%Z ∧ (0 ≤ c)%Z ∧
  ∃ rw, cells !! Z.to_nat r = Some rw ∧ rw !! Z.to_nat c = Some x.
Proof.
  unfold cellAt. split.
  - destruct (at_ cells r) as [rw|] eqn:E; [|done].
    intros H. apply at_Some in E as [? ?]. apply at_Some in H as [? ?]. eauto 10.
  - intros (Hr & Hc & rw & H1 & H2).
    assert (at_ cells r = Some rw) as -> by by apply at_Some.
    by apply at_Some.
Qed.

Lemma cellAt_of_nat cells (i j : nat) :
  cellAt cells (Z.of_nat i) (Z.of_nat j)
  = match cells !! i with Some rw => rw !! j | None => None end.
Proof.
  unfold cellAt. rewrite at_of_nat. destruct (cells !! i); [|done].
  by rewrite at_of_nat.
Qed.

Lemma rectangular_inv cells :
  rectangular cells = true →
  ∃ r0 rest, cells = r0 :: rest ∧ ∀ rw, rw ∈ cells → length rw = length r0.
Proof.
  destruct cells as [|r0 rest]; [done|]. intros H. exists r0, rest. split; [done|].
  intros rw Hin. unfold rectangular in H. rewrite forallb_forall in H.
  apply Nat.eqb_eq, H. by apply list_elem_of_In.
Qed.

Lemma rectangular_intro r0 rest :
  (∀ rw, rw ∈ r0 :: rest → length rw = length r0) → rectangular (r0 :: rest) = true.
Proof.
  intros H. unfold rectangular. apply forallb_forall. intros rw Hin.
  apply Nat.eqb_eq, H. by apply list_elem_of_In.
Qed.

Lemma rectangular_row cells i rw :
  rectangular cells = true → cells !! i = Some rw →
  Z.of_nat (length rw) = numCols cells.
Proof.
  intros (r0 & rest & -> & H)%rectangular_inv Hi. simpl.
  f_equal. apply H. by eapply list_elem_of_lookup_2.
Qed.

Lemma isValidPosition_true r c rows cols :
  isValidPosition r c rows cols = true ↔ (0 ≤ r < rows)%Z ∧ (0 ≤ c < cols)%Z.
Proof. unfold isValidPosition. rewrite !andb_true_iff. lia. Qed.

Lemma cellAt_valid cells r c :
  rectangular cells = true →
  isValidPosition r c (numRows cells) (numCols cells) = true ↔ is_Some (cellAt cells r c).
Proof.
  intros Hrect. rewrite isValidPosition_true. unfold numRows. split.
  - intros [Hr Hc].
    destruct (lookup_lt_is_Some_2 cells (Z.to_nat r)) as [rw Hrw]; [lia|].
    pose proof (rectangular_row _ _ _ Hrect Hrw) as Hlen.
    destruct (lookup_lt_is_Some_2 rw (Z.to_nat c)) as [x Hx]; [lia|].
    exists x. apply cellAt_Some. eauto 10 with lia.
  - intros [x (Hr & Hc & rw & Hrw & Hx)%cellAt_Some].
    pose proof (rectangular_row _ _ _ Hrect Hrw) as Hlen.
    apply lookup_lt_Some in Hrw. apply lookup_lt_Some in Hx. lia.
Qed.

Lemma modifyCell_Ret f cells r c x :
  cellAt cells r c = Some x →
  ∃ rw, cells !! Z.to_nat r = Some rw ∧ rw !! Z.to_nat c = Some x ∧
        modifyCell f cells r c
        = Ret (<[Z.to_nat r := <[Z.to_nat c := f x]> rw]> cells).
Proof.
  intros (Hr & Hc & rw & Hrw & Hx)%cellAt_Some. exists rw.
  split; [done|]. split; [done|]. unfold modifyCell.
  assert (at_ cells r = Some rw) as -> by by apply at_Some.
  by assert (at_ rw c = Some x) as -> by by apply at_Some.
Qed.

Lemma modifyCell_Throw f cells r c :
  cellAt cells r c = None → modifyCell f cells r c = Throw.
Proof.
  unfold cellAt, modifyCell. destruct (at_ cells r); [|done]. by intros ->.
Qed.

(** Reading after [modifyCell]. *)
Lemma cellAt_modifyCell f cells r c x out r' c' :
  cellAt cells r c = Some x → modifyCell f cells r c = Ret out →
  cellAt out r' c' = if decide (r' = r ∧ c' = c) then Some (f x) else cellAt cells r' c'.
Proof.
  intros Hx Hm. pose proof Hx as (Hr & Hc & _)%cellAt_Some.
  destruct (modifyCell_Ret f _ _ _ _ Hx) as (rw & Hrw & Hxc & Heq).
  rewrite Heq in Hm. injection Hm as <-.
  destruct (decide (r' = r ∧ c' = c)) as [Hd|Hd].
  - destruct Hd as [-> ->]. apply cellAt_Some. split_and!; [done..|].
    eexists. split.
    + apply list_lookup_insert_eq. by eapply lookup_lt_Some.
    + apply list_lookup_insert_eq. by eapply lookup_lt_Some.
  - unfold cellAt, at_.
    destruct (decide (0 ≤ r')%Z); [|done].
    destruct (decide (Z.to_nat r' = Z.to_nat r)) as [Er|Er].
    + assert (r' = r) as -> by lia. rewrite list_lookup_insert_eq, Hrw.
      2:{ by eapply lookup_lt_Some. }
      destruct (decide (0 ≤ c')%Z); [|done].
      rewrite list_lookup_insert_ne; [done|]. intros ?. apply Hd. split; [done|lia].
    + by rewrite list_lookup_insert_ne.
Qed.

Lemma modifyCell_Forall2 (R : Cell → Cell → Prop) f cells r c x out :
  (∀ y, R y y) → R x (f x) →
  cellAt cells r c = Some x → modifyCell f cells r c = Ret out →
  Forall2 (Forall2 R) cells out.
Proof.
  intros Hrefl HR Hx Hm.
  destruct (modifyCell_Ret f _ _ _ _ Hx) as (rw & Hrw & Hxc & Heq).
  rewrite Heq in Hm. injection Hm as <-.
  rewrite <-(list_insert_id cells (Z.to_nat r) rw) at 1 by done.
  apply Forall2_insert.
  - apply Forall_Forall2_diag, Forall_forall. intros l _.
    apply Forall_Forall2_diag, Forall_forall. auto.
  - rewrite <-(list_insert_id rw (Z.to_nat c) x) at 1 by done.
    apply Forall2_insert; [|done].
    apply Forall_Forall2_diag, Forall_forall. auto.
Qed.

(** * Properties of the board a call returns *)

Lemma whenRet_bind {A B} (Q : B → Prop) (f : A → Outcome B) (o : Outcome A) :
  (∀ a, o = Ret a → whenRet Q (f a)) → whenRet Q (o ≫= f).
Proof. destruct o; simpl; auto. Qed.

Lemma whenRet_foldl {A B} (Q : A → Prop) (f : Outcome A → B → Outcome A) l :
  (∀ acc b, whenRet Q acc → whenRet Q (f acc b)) →
  ∀ acc, whenRet Q acc → whenRet Q (foldl f acc l).
Proof.
  intros Hf. induction l as [|b l IH]; intros acc Hacc; [done|].
  simpl. apply IH, Hf, Hacc.
Qed.

(** * The copy loops of [revealCell] *)

Lemma insert_take_drop_step {A} (l1 l2 : list A) k x :
  l1 !! k = Some x → k < length l2 →
  <[k := x]> (take k l1 ++ drop k l2) = take (S k) l1 ++ drop (S k) l2.
Proof.
  intros H1 H2. pose proof (lookup_lt_Some _ _ _ H1) as Hk.
  destruct (lookup_lt_is_Some_2 l2 k H2) as [y Hy].
  rewrite insert_app_r_alt by (rewrite length_take; lia).
  rewrite length_take, Nat.min_l, Nat.sub_diag by lia.
  rewrite (drop_S l2 y k Hy). simpl.
  rewrite (take_S_r l1 k x H1). by rewrite <-app_assoc.
Qed.

Lemma copyBack_row (revealed nc : list (list Cell)) r nrow rrow k :
  nc !! r = Some nrow → revealed !! r = Some rrow →
  k ≤ length rrow → k ≤ length nrow →
  foldl (λ acc c,
      nc ← acc;
      match revealed !! r with
      | None => Throw
      | Some rr => storeCell nc r c (rr !! c)
      end) (Ret nc) (seq 0 k)
  = Ret (<[r := take k rrow ++ drop k nrow]> nc).
Proof.
  intros Hn Hr. induction k as [|k IH]; intros Hk1 Hk2.
  - simpl. rewrite drop_0. by rewrite list_insert_id.
  - rewrite seq_S, foldl_app, IH by lia. simpl. rewrite Hr.
    destruct (lookup_lt_is_Some_2 rrow k) as [x Hx]; [lia|]. rewrite Hx.
    unfold storeCell. rewrite list_lookup_insert_eq by by eapply lookup_lt_Some.
    assert (length (take k rrow ++ drop k nrow) = length nrow) as Hlen.
    { rewrite length_app, length_take, length_drop. lia. }
    rewrite Hlen. destruct (decide (k < length nrow)); [|lia].
    rewrite list_insert_insert_eq. do 2 f_equal.
    apply insert_take_drop_step; [done|lia].
Qed.

Lemma copyBack_same_shape rows cols (newCells revealed : list (list Cell)) :
  length newCells = rows → length revealed = rows →
  (∀ rw, rw ∈ newCells → length rw = cols) →
  (∀ rw, rw ∈ revealed → length rw = cols) →
  copyBack rows cols newCells revealed = Ret revealed.
Proof.
  intros Hn Hr Hnc Hrc. unfold copyBack.
  assert (∀ j, j ≤ rows →
    foldl (λ acc r,
      foldl (λ acc c,
        nc ← acc;
        match revealed !! r with
        | None => Throw
        | Some rr => storeCell nc r c (rr !! c)
        end) acc (seq 0 cols))
      (Ret newCells) (seq 0 j)
    = Ret (take j revealed ++ drop j newCells)) as Hloop.
  { induction j as [|j IH]; intros Hj.
    - simpl. by rewrite drop_0.
    - rewrite seq_S, foldl_app, IH by lia. simpl.
      destruct (lookup_lt_is_Some_2 revealed j) as [rrow Hrr]; [lia|].
      destruct (lookup_lt_is_Some_2 newCells j) as [nrow Hnr]; [lia|].
      assert (length rrow = cols) as Hl1 by (eapply Hrc, list_elem_of_lookup_2; done).
      assert (length nrow = cols) as Hl2 by (eapply Hnc, list_elem_of_lookup_2; done).
      rewrite (copyBack_row revealed _ j nrow rrow cols); [|..|done| lia | lia].
      + rewrite take_ge, drop_ge, app_nil_r by lia. f_equal.
        apply insert_take_drop_step; [done|lia].
      + rewrite lookup_app_r by (rewrite length_take; lia).
        rewrite length_take, Nat.min_l, Nat.sub_diag by lia.
        by rewrite lookup_drop, Nat.add_0_r. }
  rewrite Hloop by lia. by rewrite take_ge, drop_ge, app_nil_r by lia.
Qed.

(** * A board before and after a reveal *)

Lemma cellGrows_refl x : cellGrows x x.
Proof. unfold cellGrows. tauto. Qed.

Lemma cellGrows_trans x y z : cellGrows x y → cellGrows y z → cellGrows x z.
Proof. unfold cellGrows. intuition congruence. Qed.

Lemma cellGrows_setRevealed x : cellGrows x (setRevealed x).
Proof. unfold cellGrows. simpl. tauto. Qed.

Lemma grows_refl cells : grows cells cells.
Proof.
  apply Forall_Forall2_diag, Forall_forall. intros rw _.
  apply Forall_Forall2_diag, Forall_forall. intros x _. apply cellGrows_refl.
Qed.

Lemma grows_trans a b c : grows a b → grows b c → grows a c.
Proof.
  unfold grows. intros H1 H2. eapply Forall2_trans; [| exact H1 | exact H2].
  intros r1 r2 r3 G1 G2. eapply Forall2_trans; [| exact G1 | exact G2].
  apply cellGrows_trans.
Qed.

Lemma grows_dims cells out :
  grows cells out → numRows out = numRows cells ∧ numCols out = numCols cells.
Proof.
  intros H. unfold numRows, numCols. pose proof (Forall2_length _ _ _ H) as Hlen.
  destruct H as [|r r' ? ? Hr _]; [done|].
  simpl in *. apply Forall2_length in Hr. lia.
Qed.

Lemma grows_rectangular cells out :
  grows cells out → rectangular cells = true → rectangular out = true.
Proof.
  intros H (r0 & rest & -> & Hlen)%rectangular_inv.
  pose proof H as Hall.
  apply Forall2_cons_inv_l in H as (r0' & rest' & Hr0 & _ & ->).
  apply rectangular_intro. intros rw (i & Hi)%list_elem_of_lookup_1.
  destruct (Forall2_lookup_r _ _ _ _ _ Hall Hi) as (rw0 & Hrw0 & Hrw).
  apply Forall2_length in Hrw, Hr0. rewrite <-Hrw, <-Hr0.
  apply Hlen. by eapply list_elem_of_lookup_2.
Qed.

Lemma grows_cellAt cells out r c :
  grows cells out → option_Forall2 cellGrows (cellAt cells r c) (cellAt out r c).
Proof.
  intros H. unfold cellAt, at_.
  destruct (decide (0 ≤ r)%Z); [|constructor].
  pose proof (proj1 (Forall2_lookup _ _ _) H (Z.to_nat r)) as Hrow.
  destruct Hrow as [rw rw' Hrow|]; [|constructor].
  destruct (decide (0 ≤ c)%Z); [|constructor].
  apply (proj1 (Forall2_lookup _ _ _) Hrow).
Qed.

Lemma grows_inBounds cells out p : grows cells out → inBounds out p = inBounds cells p.
Proof. intros [H1 H2]%grows_dims. unfold inBounds. by rewrite H1, H2. Qed.

Lemma grows_revealedAt cells out p :
  grows cells out → revealedAt cells p = true → revealedAt out p = true.
Proof.
  intros H. unfold revealedAt.
  destruct (grows_cellAt _ _ (prow p) (pcol p) H) as [x y Hxy|]; [|done].
  apply Hxy.
Qed.

Lemma grows_unrevealedAt cells out p :
  grows cells out → revealedAt out p = false → revealedAt cells p = false.
Proof.
  intros H Hout. destruct (revealedAt cells p) eqn:E; [|done].
  by rewrite (grows_revealedAt _ _ _ H E) in Hout.
Qed.

Lemma grows_flaggedAt cells out p : grows cells out → flaggedAt out p = flaggedAt cells p.
Proof.
  intros H. unfold flaggedAt.
  destruct (grows_cellAt _ _ (prow p) (pcol p) H) as [x y Hxy|]; [|done].
  apply Hxy.
Qed.

Lemma grows_zeroSafeAt cells out p :
  grows cells out → zeroSafeAt out p = zeroSafeAt cells p.
Proof.
  intros H. unfold zeroSafeAt.
  destruct (grows_cellAt _ _ (prow p) (pcol p) H) as [x y Hxy|]; [|done].
  destruct Hxy as (_ & _ & _ & -> & _ & _ & -> & _). done.
Qed.

(** ** The measure: unrevealed cells *)

Lemma unrevealed_row_le (rw rw' : list Cell) :
  Forall2 cellGrows rw rw' →
  length (List.filter (λ x, negb (isRevealed x)) rw')
  ≤ length (List.filter (λ x, negb (isRevealed x)) rw).
Proof.
  induction 1 as [|x y rw rw' Hxy _ IH]; [done|]. simpl.
  destruct Hxy as (_ & _ & _ & _ & _ & _ & _ & _ & Hrev).
  destruct (isRevealed x), (isRevealed y); simpl; try lia;
    by specialize (Hrev eq_refl).
Qed.

Lemma unrevealed_row_lt (rw rw' : list Cell) j x y :
  Forall2 cellGrows rw rw' → rw !! j = Some x → rw' !! j = Some y →
  isRevealed x = false → isRevealed y = true →
  length (List.filter (λ x, negb (isRevealed x)) rw')
  < length (List.filter (λ x, negb (isRevealed x)) rw).
Proof.
  intros H. revert j. induction H as [|x0 y0 rw rw' Hxy Hrest IH]; intros j; [done|].
  destruct j as [|j]; simpl.
  - intros [= ->] [= ->] -> ->. simpl.
    pose proof (unrevealed_row_le _ _ Hrest). lia.
  - intros Hx Hy Hx' Hy'. specialize (IH _ Hx Hy Hx' Hy').
    destruct Hxy as (_ & _ & _ & _ & _ & _ & _ & _ & Hrev).
    destruct (isRevealed x0), (isRevealed y0); simpl; try lia;
      by specialize (Hrev eq_refl).
Qed.

Lemma unrevealedCount_cons rw cells :
  unrevealedCount (rw :: cells)
  = length (List.filter (λ x, negb (isRevealed x)) rw) + unrevealedCount cells.
Proof. unfold unrevealedCount. simpl. by rewrite List.filter_app, length_app. Qed.

Lemma grows_unrevealedCount cells out :
  grows cells out → unrevealedCount out ≤ unrevealedCount cells.
Proof.
  induction 1 as [|rw rw' cells out Hrow _ IH]; [done|].
  rewrite !unrevealedCount_cons. pose proof (unrevealed_row_le _ _ Hrow). lia.
Qed.

Lemma grows_unrevealedCount_lt cells out p :
  grows cells out → revealedAt cells p = false → revealedAt out p = true →
  unrevealedCount out < unrevealedCount cells.
Proof.
  unfold revealedAt. intros H Hc Ho.
  destruct (cellAt out (prow p) (pcol p)) as [y|] eqn:Ey; [|done].
  apply cellAt_Some in Ey as (Hr & Hcol & rw' & Hrw' & Hy).
  destruct (Forall2_lookup_r _ _ _ _ _ H Hrw') as (rw & Hrw & Hrow).
  destruct (Forall2_lookup_r _ _ _ _ _ Hrow Hy) as (x & Hx & Hxy).
  assert (cellAt cells (prow p) (pcol p) = Some x) as Ex.
  { apply cellAt_Some. eauto 10. }
  rewrite Ex in Hc. clear Ex Hr Hcol.
  revert Hrw Hrw'. generalize (Z.to_nat (prow p)) as i.
  induction H as [|r0 r0' cells out Hr0 Hrest IH]; intros i; [done|].
  rewrite !unrevealedCount_cons. destruct i as [|i]; simpl.
  - intros [= ->] [= ->].
    pose proof (unrevealed_row_lt _ _ _ _ _ Hrow Hx Hy Hc Ho).
    pose proof (grows_unrevealedCount _ _ Hrest). lia.
  - intros H1 H2. specialize (IH _ H1 H2).
    pose proof (unrevealed_row_le _ _ Hr0). lia.
Qed.

(** * Neighbours *)

Lemma getNeighborPositions_spec r c rows cols q :
  q ∈ getNeighborPositions r c rows cols ↔
  isValidPosition (prow q) (pcol q) rows cols = true ∧ near (mkPos r c) q = true.
Proof.
  rewrite list_elem_of_In. unfold getNeighborPositions.
  rewrite filter_In. split.
  - intros [Hin Hv]. split; [done|]. unfold near. apply Z.eqb_eq.
    simpl in Hin. destruct_or?; try done; subst q; simpl; lia.
  - intros [Hv Hn]. split; [|done]. unfold near in Hn. apply Z.eqb_eq in Hn.
    destruct q as [qr qc]. simpl in *.
    assert (qr = r + -1 ∨ qr = r + 0 ∨ qr = r + 1)%Z as Hr by lia.
    assert (qc = c + -1 ∨ qc = c + 0 ∨ qc = c + 1)%Z as Hc by lia.
    destruct Hr as [-> | [-> | ->]]; destruct Hc as [-> | [-> | ->]]; try lia; tauto.
Qed.

Lemma neighbours_adjacent cells p q :
  q ∈ getNeighborPositions (prow p) (pcol p) (numRows cells) (numCols cells) ↔
  adjacent cells p q.
Proof. rewrite getNeighborPositions_spec. by destruct p. Qed.

Lemma inBounds_cellAt cells p :
  rectangular cells = true →
  inBounds cells p = true ↔ is_Some (cellAt cells (prow p) (pcol p)).
Proof. apply cellAt_valid. Qed.

(** * The flood *)

Lemma grows_adjacent cells s p q : grows cells s → adjacent s p q ↔ adjacent cells p q.
Proof. intros H. unfold adjacent. by rewrite (grows_inBounds _ _ _ H). Qed.

Lemma floods_grows cells s p q : grows cells s → floods s p q → floods cells p q.
Proof.
  intros H. induction 1 as [p q Hz Ha Hf | p m q Hz Ha Hf Hr _ IH].
  - apply floods_last.
    + by rewrite <-(grows_zeroSafeAt _ _ _ H).
    + by apply (grows_adjacent _ _ _ _ H).
    + by rewrite <-(grows_flaggedAt _ _ _ H).
  - apply floods_through with m; [..|done].
    + by rewrite <-(grows_zeroSafeAt _ _ _ H).
    + by apply (grows_adjacent _ _ _ _ H).
    + by rewrite <-(grows_flaggedAt _ _ _ H).
    + by eapply grows_unrevealedAt.
Qed.

Lemma closedAt_grows cells s out q :
  grows s out → closedAt cells s q → closedAt cells out q.
Proof. intros H Hc n Ha Hf. eapply grows_revealedAt; [done|]. by apply Hc. Qed.

Lemma closedAt_base cells s out q :
  grows cells s → closedAt s out q → closedAt cells out q.
Proof.
  intros H Hc n Ha Hf. apply Hc.
  - by apply (grows_adjacent _ _ _ _ H).
  - by rewrite (grows_flaggedAt _ _ _ H).
Qed.

Lemma rectangular_shape (cells : list (list Cell)) rows cols :
  rectangular cells = true →
  numRows cells = Z.of_nat rows → numCols cells = Z.of_nat cols →
  length cells = rows ∧ ∀ rw, rw ∈ cells → length rw = cols.
Proof.
  intros Hrect Hr Hc. unfold numRows in Hr. split; [lia|].
  intros rw (i & Hi)%list_elem_of_lookup_1.
  pose proof (rectangular_row _ _ _ Hrect Hi). lia.
Qed.

Lemma revealable_true cells p :
  rectangular cells = true →
  revealable cells p = true ↔
  ∃ x, cellAt cells (prow p) (pcol p) = Some x ∧
       isRevealed x = false ∧ isFlagged x = false.
Proof.
  intros Hrect. unfold revealable. rewrite andb_true_iff, negb_true_iff, orb_false_iff.
  rewrite (inBounds_cellAt _ _ Hrect). unfold revealedAt, flaggedAt. split.
  - intros [[x Hx] H]. rewrite Hx in H. eauto.
  - intros (x & Hx & H). rewrite Hx. eauto.
Qed.

Section FloodLoop.
Variable fuel : nat.
Hypothesis rec_spec : ∀ (cells : list (list Cell)) p,
  rectangular cells = true → unrevealedCount cells < fuel →
  revealable cells p = true →
  ∃ out, revealCell_fuel fuel cells (prow p) (pcol p) = Some (Ret out) ∧
         floodPost cells p out.

Lemma flood_loop (cells : list (list Cell)) p rows cols ns :
  rectangular cells = true →
  numRows cells = Z.of_nat rows → numCols cells = Z.of_nat cols →
  unrevealedCount cells ≤ fuel →
  revealedAt cells p = false → zeroSafeAt cells p = true →
  (∀ n, n ∈ ns → adjacent cells p n) →
  ∀ visited s, floodInv cells p visited s →
  ∃ out,
    foldl (floodStep (revealCell_fuel fuel) rows cols) (Some (Ret s)) ns
    = Some (Ret out) ∧
    floodInv cells p (visited ++ ns) out.
Proof.
  intros Hrect Hrows Hcols Hfuel Hp Hzero.
  induction ns as [|n ns IHns]; intros Hadj visited s Hinv.
  { exists s. by rewrite app_nil_r. }
  assert (adjacent cells p n) as Hn by (apply Hadj; left).
  pose proof (inv_grows _ _ _ _ Hinv) as Hgs.
  pose proof (grows_rectangular _ _ Hgs Hrect) as Hrs.
  assert (is_Some (cellAt s (prow n) (pcol n))) as [x Hx].
  { apply inBounds_cellAt; [done|]. rewrite (grows_inBounds _ _ _ Hgs). apply Hn. }
  assert (∀ s', floodInv cells p (visited ++ [n]) s' →
    ∃ out,
      foldl (floodStep (revealCell_fuel fuel) rows cols) (Some (Ret s')) ns
      = Some (Ret out) ∧ floodInv cells p (visited ++ n :: ns) out) as Hnext.
  { intros s' Hs'. destruct (IHns (λ m Hm, Hadj m (list_elem_of_further _ _ _ Hm))
      _ _ Hs') as (out & Hout & Hio).
    exists out. split; [done|]. by rewrite <-app_assoc in Hio. }
  cbn [foldl].
  replace (floodStep (revealCell_fuel fuel) rows cols (Some (Ret s)) n)
    with (if negb (isRevealed x) && negb (isFlagged x) then
            match revealCell_fuel fuel s (prow n) (pcol n) with
            | Some (Ret revealed) => Some (copyBack rows cols s revealed)
            | other => other
            end
          else Some (Ret s))
    by (unfold floodStep; by rewrite Hx).
  destruct (negb (isRevealed x) && negb (isFlagged x)) eqn:Hguard.
  - apply andb_true_iff in Hguard as [Hxr%negb_true_iff Hxf%negb_true_iff].
    assert (revealedAt s n = false) as Hsn by (unfold revealedAt; by rewrite Hx).
    assert (flaggedAt s n = false) as Hfn by (unfold flaggedAt; by rewrite Hx).
    destruct (rec_spec s n) as (out' & Hrec & Hpost); [done|..].
    { pose proof (grows_unrevealedCount_lt _ _ p Hgs Hp (inv_start _ _ _ _ Hinv)). lia. }
    { apply revealable_true; eauto. }
    rewrite Hrec.
    pose proof (post_grows _ _ _ Hpost) as Hgo.
    pose proof (grows_dims _ _ Hgs) as [Hd1 Hd2].
    pose proof (grows_dims _ _ Hgo) as [Hd3 Hd4].
    destruct (rectangular_shape s rows cols) as [Hl1 Hl2]; [done|congruence..|].
    destruct (rectangular_shape out' rows cols) as [Hl3 Hl4];
      [by eapply grows_rectangular|congruence..|].
    rewrite (copyBack_same_shape rows cols s out') by done.
    apply Hnext. constructor.
    + by eapply grows_trans.
    + eapply grows_revealedAt; [done|]. by apply (inv_start _ _ _ _ Hinv).
    + intros m [Hm | ->%list_elem_of_singleton]%elem_of_app Hmf.
      * eapply grows_revealedAt; [done|]. by apply (inv_visited _ _ _ _ Hinv).
      * by apply (post_start _ _ _ Hpost).
    + intros q Hqp Hqc Hqo Hqz. destruct (revealedAt s q) eqn:Hqs.
      * eapply closedAt_grows; [done|]. by apply (inv_closed _ _ _ _ Hinv).
      * eapply closedAt_base; [done|]. apply (post_closed _ _ _ Hpost); [done..|].
        by rewrite (grows_zeroSafeAt _ _ _ Hgs).
    + intros q Hqc Hqo. destruct (revealedAt s q) eqn:Hqs.
      * by apply (inv_sound _ _ _ _ Hinv).
      * right. rewrite (grows_flaggedAt _ _ _ Hgs) in Hfn.
        destruct (post_sound _ _ _ Hpost q Hqs Hqo) as [-> | Hfl].
        -- by apply floods_last.
        -- apply floods_through with n; [done..| |].
           ++ by eapply grows_unrevealedAt.
           ++ by eapply floods_grows.
  - apply Hnext. destruct Hinv as [I1 I2 I3 I4 I5]. constructor; [done..| |done|done].
    intros m [Hm | ->%list_elem_of_singleton]%elem_of_app Hmf; [by apply I3|].
    rewrite <-(grows_flaggedAt _ _ _ Hgs) in Hmf.
    unfold flaggedAt in Hmf. unfold revealedAt. rewrite Hx in *.
    rewrite Hmf in Hguard. simpl in Hguard.
    by destruct (isRevealed x).
Qed.
End FloodLoop.

Lemma numCols_nonneg (cells : list (list Cell)) : (0 ≤ numCols cells)%Z.
Proof. destruct cells; simpl; lia. Qed.

(** One unfolding of [revealCell], on a board that has a first row. *)
Lemma revealCell_fuel_S fuel (cells : list (list Cell)) r c :
  cells ≠ [] →
  revealCell_fuel (S fuel) cells r c =
  if negb (isValidPosition r c (numRows cells) (numCols cells)) then Some (Ret cells)
  else
    match cellAt cells r c with
    | None => Some Throw
    | Some cell =>
        if isRevealed cell || isFlagged cell then Some (Ret cells)
        else
          match modifyCell setRevealed cells r c with
          | Ret newCells =>
              if (neighborMines cell =? 0)%Z && negb (isMine cell) then
                foldl (floodStep (revealCell_fuel fuel) (length cells)
                                 (Z.to_nat (numCols cells)))
                      (Some (Ret newCells))
                      (getNeighborPositions r c (numRows cells) (numCols cells))
              else Some (Ret newCells)
          | other => Some other
          end
    end.
Proof. destruct cells as [|r0 rest]; [done|]. intros _. simpl. by rewrite Nat2Z.id. Qed.

Lemma rectangular_nonempty (cells : list (list Cell)) :
  rectangular cells = true → cells ≠ [].
Proof. by destruct cells. Qed.

Lemma reveal_one (cells : list (list Cell)) p x newCells :
  cellAt cells (prow p) (pcol p) = Some x →
  modifyCell setRevealed cells (prow p) (pcol p) = Ret newCells →
  grows cells newCells ∧ revealedAt newCells p = true ∧
  ∀ q, q ≠ p → revealedAt newCells q = revealedAt cells q.
Proof.
  intros Hx Hm. split_and!.
  - eapply modifyCell_Forall2; [apply cellGrows_refl | apply cellGrows_setRevealed | done..].
  - unfold revealedAt. rewrite (cellAt_modifyCell _ _ _ _ _ _ _ _ Hx Hm).
    by rewrite decide_True.
  - intros q Hq. unfold revealedAt. rewrite (cellAt_modifyCell _ _ _ _ _ _ _ _ Hx Hm).
    rewrite decide_False; [done|]. intros [? ?]. apply Hq.
    destruct p, q; simpl in *; congruence.
Qed.

(** The specification of an effective call, by induction on the depth
    allowed: more depth than there are unrevealed cells is enough. *)
Lemma revealCell_fuel_effective fuel :
  ∀ (cells : list (list Cell)) p,
    rectangular cells = true → unrevealedCount cells < fuel →
    revealable cells p = true →
    ∃ out, revealCell_fuel fuel cells (prow p) (pcol p) = Some (Ret out) ∧
           floodPost cells p out.
Proof.
  induction fuel as [|fuel IH]; intros cells p Hrect Hfuel Hrev; [lia|].
  pose proof Hrev as (x & Hx & Hxr & Hxf)%revealable_true; [|done].
  assert (inBounds cells p = true) as Hin.
  { apply inBounds_cellAt; eauto. }
  assert (revealedAt cells p = false) as Hp by (unfold revealedAt; by rewrite Hx).
  rewrite revealCell_fuel_S by by apply rectangular_nonempty.
  unfold inBounds in Hin. rewrite Hin, Hx, Hxr, Hxf. cbn [negb orb].
  destruct (modifyCell_Ret setRevealed _ _ _ _ Hx) as (rw & _ & _ & Hm).
  rewrite Hm. rewrite <-Hm.
  set (newCells := <[_ := _]> cells) in Hm.
  destruct (reveal_one _ _ _ _ Hx Hm) as (Hg & Hstart & Hother).
  rewrite Hm.
  destruct ((neighborMines x =? 0)%Z && negb (isMine x)) eqn:Hzero.
  - destruct (flood_loop fuel IH cells p (length cells) (Z.to_nat (numCols cells))
        (getNeighborPositions (prow p) (pcol p) (numRows cells) (numCols cells)))
      with (visited := @nil Position) (s := newCells)
      as (out & Hout & Hinv); [done|done|..].
    + rewrite Z2Nat.id; [done|apply numCols_nonneg].
    + lia.
    + done.
    + unfold zeroSafeAt. by rewrite Hx.
    + intros n. apply neighbours_adjacent.
    + constructor; [done|done|..].
      * intros m Hm'. by apply elem_of_nil in Hm'.
      * intros q Hq Hqc Hqn. rewrite (Hother q Hq) in Hqn. congruence.
      * intros q Hqc Hqn. destruct (decide (q = p)) as [|Hq]; [by left|].
        rewrite (Hother q Hq) in Hqn. congruence.
    + exists out. split; [done|]. destruct Hinv as [I1 I2 I3 I4 I5].
      constructor; [done|done| |done].
      intros q Hqc Hqo Hqz. destruct (decide (q = p)) as [->|Hq]; [|by apply I4].
      intros n Hn Hnf. apply I3; [|done]. simpl. by apply neighbours_adjacent.
  - exists newCells. split; [done|]. constructor; [done|done|..].
    + intros q Hqc Hqn Hqz. destruct (decide (q = p)) as [->|Hq].
      * unfold zeroSafeAt in Hqz. rewrite Hx in Hqz. congruence.
      * rewrite (Hother q Hq) in Hqn. congruence.
    + intros q Hqc Hqn. destruct (decide (q = p)) as [|Hq]; [by left|].
      rewrite (Hother q Hq) in Hqn. congruence.
Qed.

(** A call that is not effective returns its argument. *)
Lemma revealCell_fuel_idle fuel (cells : list (list Cell)) p :
  rectangular cells = true → revealable cells p = false →
  revealCell_fuel (S fuel) cells (prow p) (pcol p) = Some (Ret cells).
Proof.
  intros Hrect Hrev. rewrite revealCell_fuel_S by by apply rectangular_nonempty.
  unfold revealable, inBounds in Hrev.
  destruct (isValidPosition _ _ _ _) eqn:Hv; [|done]. simpl in *.
  apply (cellAt_valid _ _ _ Hrect) in Hv as [x Hx]. rewrite Hx.
  unfold revealedAt, flaggedAt in Hrev. rewrite Hx in Hrev.
  apply negb_false_iff in Hrev. by rewrite Hrev.
Qed.

(** ** More depth does not change the result *)

Lemma floodStep_None rec rows cols ns :
  foldl (floodStep rec rows cols) None ns = None.
Proof. induction ns as [|n ns IH]; [done|]. simpl. exact IH. Qed.

Lemma floodStep_mono (rec1 rec2 : list (list Cell) → Z → Z → option (Outcome (list (list Cell))))
    rows cols ns :
  (∀ cells r c o, rec1 cells r c = Some o → rec2 cells r c = Some o) →
  ∀ acc o,
    foldl (floodStep rec1 rows cols) acc ns = Some o →
    foldl (floodStep rec2 rows cols) acc ns = Some o.
Proof.
  intros Hrec. induction ns as [|n ns IH]; intros acc o; [done|].
  cbn [foldl]. intros H.
  assert (floodStep rec1 rows cols acc n ≠ None) as Hne.
  { intros E. rewrite E, floodStep_None in H. done. }
  assert (floodStep rec2 rows cols acc n = floodStep rec1 rows cols acc n) as ->;
    [|by apply IH].
  unfold floodStep in *. destruct acc as [[s| |]|]; try done.
  destruct (cellAt s (prow n) (pcol n)) as [x|]; [|done].
  destruct (negb (isRevealed x) && negb (isFlagged x)); [|done].
  destruct (rec1 s (prow n) (pcol n)) as [o1|] eqn:E1; [|done].
  by rewrite (Hrec _ _ _ _ E1).
Qed.

Lemma revealCell_fuel_mono n :
  ∀ m (cells : list (list Cell)) r c o,
    n ≤ m → revealCell_fuel n cells r c = Some o → revealCell_fuel m cells r c = Some o.
Proof.
  induction n as [|n IH]; intros m cells r c o Hle; [done|].
  destruct m as [|m]; [lia|]. cbn [revealCell_fuel].
  destruct cells as [|r0 rest]; [done|].
  destruct (negb _); [done|].
  destruct (cellAt _ r c) as [x|]; [|done].
  destruct (isRevealed x || isFlagged x); [done|].
  destruct (modifyCell _ _ r c) as [newCells| |]; [|done..].
  destruct ((neighborMines x =? 0)%Z && negb (isMine x)); [|done].
  apply floodStep_mono. intros cells' r' c' o'. apply IH. lia.
Qed.

(** ** Every cell the flood walks over ends revealed *)

Lemma floods_revealed (cells : list (list Cell)) p out :
  floodPost cells p out →
  ∀ a q, floods cells a q →
    revealedAt cells a = false → revealedAt out a = true → revealedAt out q = true.
Proof.
  intros Hpost a q. induction 1 as [a q Hz Ha Hf | a m q Hz Ha Hf Hr _ IH];
    intros Hac Hao.
  - by apply (post_closed _ _ _ Hpost a Hac Hao Hz).
  - apply IH; [done|]. by apply (post_closed _ _ _ Hpost a Hac Hao Hz).
Qed.

Lemma revealCell_effective (cells : list (list Cell)) p :
  rectangular cells = true → revealable cells p = true →
  ∃ out, revealCell cells (prow p) (pcol p) = Some (Ret out) ∧ floodPost cells p out.
Proof. intros. apply revealCell_fuel_effective; [done|lia|done]. Qed.

Lemma revealCell_idle (cells : list (list Cell)) p :
  rectangular cells = true → revealable cells p = false →
  revealCell cells (prow p) (pcol p) = Some (Ret cells).
Proof. intros. by apply revealCell_fuel_idle. Qed.

Lemma revealCell_grows (cells : list (list Cell)) r c :
  rectangular cells = true →
  ∃ out, revealCell cells r c = Some (Ret out) ∧ grows cells out.
Proof.
  intros Hrect. destruct (revealable cells (mkPos r c)) eqn:E.
  - destruct (revealCell_effective cells (mkPos r c) Hrect E) as (out & Hout & Hpost).
    exists out. split; [done|]. apply Hpost.
  - exists cells. split; [by apply (revealCell_idle cells (mkPos r c))|apply grows_refl].
Qed.

(** ** Any board: the copy loops keep the relation, the recursion ends *)

Lemma copyBack_grows rows cols (s revealed : list (list Cell)) :
  grows s revealed → whenRet (grows s) (copyBack rows cols s revealed).
Proof.
  intros Hg. unfold copyBack.
  apply whenRet_foldl; [|apply grows_refl].
  intros acc r Hacc. apply whenRet_foldl; [|done].
  intros acc' c Hacc'. apply whenRet_bind. intros nc ->. simpl in Hacc'.
  destruct (revealed !! r) as [rr|] eqn:Hrr; [|done].
  unfold storeCell. destruct (nc !! r) as [rw|] eqn:Hrw; [|done].
  destruct (rr !! c) as [x|] eqn:Hx; [|done].
  destruct (Forall2_lookup_r _ _ _ _ _ Hacc' Hrw) as (srow & Hsrow & Hsr).
  destruct (Forall2_lookup_l _ _ _ _ _ Hg Hsrow) as (rr' & Hrr' & Hsrr).
  assert (rr' = rr) as -> by congruence.
  destruct (Forall2_lookup_r _ _ _ _ _ Hsrr Hx) as (y & Hy & Hyx).
  pose proof (Forall2_length _ _ _ Hsr) as Hl1.
  pose proof (lookup_lt_Some _ _ _ Hy) as Hl2.
  destruct (decide (c < length rw)); [|lia]. simpl.
  unfold grows. rewrite <-(list_insert_id s r srow) by done.
  apply Forall2_insert; [done|].
  rewrite <-(list_insert_id srow c y) by done.
  by apply Forall2_insert.
Qed.

Lemma floodStep_stuck rec rows cols ns (o : Outcome (list (list Cell))) :
  (∀ s, o ≠ Ret s) → foldl (floodStep rec rows cols) (Some o) ns = Some o.
Proof.
  intros Ho. induction ns as [|n ns IH]; [done|]. cbn [foldl].
  replace (floodStep rec rows cols (Some o) n) with (Some o); [done|].
  destruct o; [by destruct (Ho a)|done..].
Qed.

Section FloodLoopTotal.
Variable fuel : nat.
Hypothesis rec_total : ∀ (cells : list (list Cell)) r c,
  unrevealedCount cells < fuel →
  ∃ o, revealCell_fuel fuel cells r c = Some o ∧ whenRet (grows cells) o.

Lemma flood_loop_total (newCells : list (list Cell)) rows cols ns :
  unrevealedCount newCells < fuel →
  ∀ s, grows newCells s →
  ∃ o, foldl (floodStep (revealCell_fuel fuel) rows cols) (Some (Ret s)) ns = Some o ∧
       whenRet (grows newCells) o.
Proof.
  intros Hfuel. induction ns as [|n ns IH]; intros s Hs; [by exists (Ret s)|].
  cbn [foldl]. unfold floodStep at 2.
  destruct (cellAt s (prow n) (pcol n)) as [x|].
  2:{ exists Throw. split; [|done]. by apply floodStep_stuck. }
  destruct (negb (isRevealed x) && negb (isFlagged x)); [|by apply IH].
  destruct (rec_total s (prow n) (pcol n)) as (o & -> & Ho).
  { pose proof (grows_unrevealedCount _ _ Hs). lia. }
  destruct o as [revealed| |]; simpl in Ho.
  - pose proof (copyBack_grows rows cols s revealed Ho) as Hcb.
    destruct (copyBack rows cols s revealed) as [b| |]; simpl in Hcb.
    + apply IH. by eapply grows_trans.
    + exists Throw. split; [|done]. by apply floodStep_stuck.
    + exists Sparse. split; [|done]. by apply floodStep_stuck.
  - exists Throw. split; [|done]. by apply floodStep_stuck.
  - exists Sparse. split; [|done]. by apply floodStep_stuck.
Qed.
End FloodLoopTotal.

(** On any grid, rectangular or not, a depth greater than the number of
    unrevealed cells is never exhausted. *)
Lemma revealCell_fuel_total fuel :
  ∀ (cells : list (list Cell)) r c,
    unrevealedCount cells < fuel →
    ∃ o, revealCell_fuel fuel cells r c = Some o ∧ whenRet (grows cells) o.
Proof.
  induction fuel as [|fuel IH]; intros cells r c Hfuel; [lia|].
  destruct cells as [|r0 rest] eqn:Ecells; [by exists Throw|]. rewrite <-Ecells in *.
  rewrite revealCell_fuel_S by by rewrite Ecells.
  destruct (negb _); [exists (Ret cells); split; [done|apply grows_refl]|].
  destruct (cellAt cells r c) as [x|] eqn:Hx; [|by exists Throw].
  destruct (isRevealed x || isFlagged x) eqn:Hguard;
    [exists (Ret cells); split; [done|apply grows_refl]|].
  apply orb_false_iff in Hguard as [Hxr Hxf].
  destruct (modifyCell_Ret setRevealed _ _ _ _ Hx) as (rw & _ & _ & Hm).
  set (newCells := <[_ := _]> cells) in Hm. rewrite Hm.
  destruct (reveal_one cells (mkPos r c) x newCells Hx Hm) as (Hg & Hstart & _).
  assert (unrevealedCount newCells < unrevealedCount cells) as Hlt.
  { apply (grows_unrevealedCount_lt _ _ (mkPos r c)); [done| |done].
    unfold revealedAt. simpl. by rewrite Hx. }
  destruct ((neighborMines x =? 0)%Z && negb (isMine x)); [|by exists (Ret newCells)].
  destruct (flood_loop_total fuel IH newCells (length cells) (Z.to_nat (numCols cells))
              (getNeighborPositions r c (numRows cells) (numCols cells)))
    with (s := newCells) as (o & Ho & Hgo); [lia|apply grows_refl|].
  exists o. split; [done|]. destruct o; simpl in *; [by eapply grows_trans|done..].
Qed.

(** * What [revealCell] guarantees *)

(** C9: the flood-fill of [revealCell] terminates on every grid, of any
    size and shape, and for every position.  A depth of calls greater than
    the number of unrevealed cells is never exhausted: the call ends, with
    the same outcome for every such depth, and a board it returns has no
    more unrevealed cells than its argument.  On a rectangular board the
    outcome is a board, with strictly fewer unrevealed cells when the call
    acts; every recursive call is made on a board in which the cell of the
    calling frame is already revealed, so the measure is strictly smaller
    there. *)
Theorem revealCell_terminates (cells : list (list Cell)) r c fuel :
  unrevealedCount cells < fuel →
  ∃ o, revealCell_fuel fuel cells r c = Some o ∧
       revealCell cells r c = Some o ∧
       whenRet (λ out, unrevealedCount out ≤ unrevealedCount cells) o ∧
       (rectangular cells = true →
        ∃ out, o = Ret out ∧
               (revealable cells (mkPos r c) = true →
                unrevealedCount out < unrevealedCount cells)).
Proof.
  intros Hfuel.
  destruct (revealCell_fuel_total (S (unrevealedCount cells)) cells r c)
    as (o & Ho & Hg); [lia|].
  exists o. split_and!; [|done| |].
  - eapply revealCell_fuel_mono; [|exact Ho]. lia.
  - destruct o; simpl in *; [by apply grows_unrevealedCount|done..].
  - intros Hrect.
    destruct (revealCell_grows cells r c Hrect) as (out & Hout & _).
    unfold revealCell in Hout. assert (o = Ret out) as -> by congruence.
    exists out. split; [done|]. intros Hrev.
    destruct (revealCell_effective cells (mkPos r c) Hrect Hrev) as (out' & Hout' & Hpost).
    unfold revealCell in Hout'. cbn [prow pcol] in Hout'.
    assert (out' = out) as -> by congruence.
    apply (grows_unrevealedCount_lt _ _ (mkPos r c)); [done| |apply Hpost].
    unfold revealable in Hrev. apply andb_true_iff in Hrev as [_ Hrev].
    apply negb_true_iff, orb_false_iff in Hrev. apply Hrev.
Qed.

Lemma revealCell_terminates_witness :
  unrevealedCount rowWithMine < 4 ∧
  ∃ o, revealCell_fuel 4 rowWithMine 0 0 = Some o ∧
       revealCell rowWithMine 0 0 = Some o ∧
       whenRet (λ out, unrevealedCount out ≤ unrevealedCount rowWithMine) o ∧
       (rectangular rowWithMine = true →
        ∃ out, o = Ret out ∧
               (revealable rowWithMine (mkPos 0 0) = true →
                unrevealedCount out < unrevealedCount rowWithMine)).
Proof.
  split; [vm_compute; lia|].
  apply (revealCell_terminates rowWithMine 0 0 4). vm_compute; lia.
Defined.

(** C10: for every grid and every position, [revealCell] ends, and a board
    it returns has the shape of its argument, with every cell keeping its
    [id], [row], [col], [isMine], [isFlagged], [isQuestioned],
    [neighborMines] and [isExploded], and [isRevealed] changing only from
    false to true.  On a rectangular board it does return a board. *)
Theorem revealCell_frame (cells : list (list Cell)) r c :
  ∃ o, revealCell cells r c = Some o ∧
       whenRet (Forall2 (Forall2 cellGrows) cells) o ∧
       (rectangular cells = true → ∃ out, o = Ret out).
Proof.
  destruct (revealCell_fuel_total (S (unrevealedCount cells)) cells r c)
    as (o & Ho & Hg); [lia|].
  exists o. split_and!; [done..|]. intros Hrect.
  destruct (revealCell_grows cells r c Hrect) as (out & Hout & _).
  unfold revealCell in Hout. exists out. congruence.
Qed.

Lemma revealCell_frame_witness :
  rectangular rowWithMine = true ∧
  ∃ out, revealCell rowWithMine 0 0 = Some (Ret out) ∧
         Forall2 (Forall2 cellGrows) rowWithMine out.
Proof.
  split; [reflexivity|].
  destruct (revealCell_frame rowWithMine 0 0) as (o & Ho & Hg & Hret).
  destruct (Hret eq_refl) as (out & ->). exists out. split; [exact Ho|exact Hg].
Defined.

(** C7: on every board with at least one row, revealing a position that is
    out of bounds, or whose cell is already revealed or is flagged, returns
    the input board itself. *)
Theorem revealCell_noop (cells : list (list Cell)) r c :
  cells ≠ [] →
  (isValidPosition r c (numRows cells) (numCols cells) = false ∨
   ∃ x, cellAt cells r c = Some x ∧ (isRevealed x = true ∨ isFlagged x = true)) →
  revealCell cells r c = Some (Ret cells).
Proof.
  intros Hne H. unfold revealCell. rewrite revealCell_fuel_S by done.
  destruct (isValidPosition _ _ _ _) eqn:Hv; [|done]. simpl.
  destruct H as [|(x & -> & Hx)]; [done|].
  by destruct Hx as [-> | ->]; [|rewrite orb_true_r].
Qed.

Lemma revealCell_noop_witness :
  rowWithFlag ≠ [] ∧
  (isValidPosition 0 1 (numRows rowWithFlag) (numCols rowWithFlag) = false ∨
   ∃ x, cellAt rowWithFlag 0 1 = Some x ∧ (isRevealed x = true ∨ isFlagged x = true)) ∧
  revealCell rowWithFlag 0 1 = Some (Ret rowWithFlag).
Proof.
  assert (isValidPosition 0 1 (numRows rowWithFlag) (numCols rowWithFlag) = false ∨
   ∃ x, cellAt rowWithFlag 0 1 = Some x ∧ (isRevealed x = true ∨ isFlagged x = true))
    as H.
  { right. eexists. split; [reflexivity|]. right. reflexivity. }
  split; [discriminate|]. split; [exact H|].
  apply (revealCell_noop rowWithFlag 0 1); [discriminate | exact H].
Defined.

(** C4: on every rectangular board and for every out-of-bounds position,
    [revealCell] returns the input board, and [toggleFlag] and
    [toggleQuestion] throw (the TypeError of reading a property of
    [undefined]) before they have written anything: no call produces a
    changed board. *)
Theorem out_of_bounds_intact (cells : list (list Cell)) r c :
  rectangular cells = true →
  isValidPosition r c (numRows cells) (numCols cells) = false →
  revealCell cells r c = Some (Ret cells) ∧
  toggleFlag cells r c = Throw ∧
  toggleQuestion cells r c = Throw.
Proof.
  intros Hrect Hv.
  assert (cellAt cells r c = None) as Hnone.
  { destruct (cellAt cells r c) eqn:E; [|done].
    assert (is_Some (cellAt cells r c)) as Hs by eauto.
    apply (cellAt_valid _ _ _ Hrect) in Hs. congruence. }
  split_and!.
  - unfold revealCell. rewrite revealCell_fuel_S by by apply rectangular_nonempty.
    by rewrite Hv.
  - by apply modifyCell_Throw.
  - by apply modifyCell_Throw.
Qed.

Lemma out_of_bounds_intact_witness :
  rectangular rowWithMine = true ∧
  isValidPosition 0 3 (numRows rowWithMine) (numCols rowWithMine) = false ∧
  revealCell rowWithMine 0 3 = Some (Ret rowWithMine) ∧
  toggleFlag rowWithMine 0 3 = Throw ∧
  toggleQuestion rowWithMine 0 3 = Throw.
Proof.
  split; [reflexivity|]. split; [reflexivity|].
  apply (out_of_bounds_intact rowWithMine 0 3); reflexivity.
Defined.

(** C1, as the specification words it, fails: on the one-row board whose
    second cell is flagged (no mines, all counts zero and correct), revealing
    the first cell leaves the second one, which belongs to the same
    zero-region, unrevealed. *)
Lemma spec_flood_property_fails : ¬ specFloodProperty.
Proof.
  intros H.
  destruct (H rowWithFlag (mkPos 0 0)
              (mkCell "cell-0-0" 0 0 false false false false 0 None))
    as (out & Hout & Hall); try reflexivity.
  vm_compute in Hout. injection Hout as <-.
  assert (regionOrBorder rowWithFlag (mkPos 0 0) (mkPos 0 1)) as Hreg.
  { left. apply zeroRegion_step with (mkPos 0 0); [apply zeroRegion_start| |reflexivity].
    split; reflexivity. }
  apply Hall in Hreg. vm_compute in Hreg. discriminate.
Qed.

(** C1, amended: on every rectangular board, revealing an in-bounds,
    unrevealed, unflagged cell that has [neighborMines = 0] and is not a mine
    returns a board in which the revealed cells are exactly: the cells
    revealed before, the cell itself, and every cell that a chain of
    adjacent cells reaches from it, where each cell of the chain but the last
    is a zero cell that is not a mine, each cell after the first is
    unflagged, and each cell strictly between was unrevealed before.  So the
    flood goes through zero cells only, and the non-zero cell it meets is
    revealed without being expanded. *)
Theorem flood_reveals (cells : list (list Cell)) p x :
  rectangular cells = true →
  cellAt cells (prow p) (pcol p) = Some x →
  isRevealed x = false → isFlagged x = false →
  neighborMines x = 0%Z → isMine x = false →
  ∃ out, revealCell cells (prow p) (pcol p) = Some (Ret out) ∧
         ∀ q, revealedAt out q = true ↔
              revealedAt cells q = true ∨ q = p ∨ floods cells p q.
Proof.
  intros Hrect Hx Hr Hf Hn Hm.
  assert (revealable cells p = true) as Hrev by (apply revealable_true; eauto).
  destruct (revealCell_effective cells p Hrect Hrev) as (out & Hout & Hpost).
  assert (revealedAt cells p = false) as Hp by (unfold revealedAt; by rewrite Hx).
  exists out. split; [done|]. intros q. split.
  - intros Hq. destruct (revealedAt cells q) eqn:E; [by left|right].
    by apply (post_sound _ _ _ Hpost).
  - intros [Hq | [-> | Hq]].
    + eapply grows_revealedAt; [apply Hpost|done].
    + apply Hpost.
    + eapply floods_revealed; [done..|apply Hpost].
Qed.

Lemma flood_reveals_witness :
  rectangular rowWithMine = true ∧
  cellAt rowWithMine 0 0 = Some (mkCell "cell-0-0" 0 0 false false false false 0 None) ∧
  ∃ out, revealCell rowWithMine 0 0 = Some (Ret out) ∧
         ∀ q, revealedAt out q = true ↔
              revealedAt rowWithMine q = true ∨ q = mkPos 0 0 ∨
              floods rowWithMine (mkPos 0 0) q.
Proof.
  split; [reflexivity|]. split; [reflexivity|].
  apply (flood_reveals rowWithMine (mkPos 0 0)
           (mkCell "cell-0-0" 0 0 false false false false 0 None)); reflexivity.
Defined.

(** The flood does not go through a cell that was revealed before either. *)
Lemma flood_stops_at_revealed :
  zeroRegion rowWithRevealed (mkPos 0 0) (mkPos 0 2) ∧
  ∃ out, revealCell rowWithRevealed 0 0 = Some (Ret out) ∧
         revealedAt out (mkPos 0 2) = false.
Proof.
  split.
  - apply zeroRegion_step with (mkPos 0 1); [|by split|reflexivity].
    apply zeroRegion_step with (mkPos 0 0); [apply zeroRegion_start|by split|reflexivity].
  - eexists. split; [vm_compute; reflexivity|reflexivity].
Qed.

(** * The cell invariant *)

Lemma everyCell_Forall P (cells : list (list Cell)) :
  everyCell P cells = true ↔ Forall (Forall (λ x, P x = true)) cells.
Proof.
  unfold everyCell. rewrite forallb_forall, Forall_forall.
  split; intros H rw Hin.
  - apply Forall_forall. intros x Hx. apply list_elem_of_In in Hin, Hx.
    specialize (H rw Hin). rewrite forallb_forall in H. by apply H.
  - apply forallb_forall. intros x Hx. apply list_elem_of_In in Hin, Hx.
    specialize (H rw Hin). rewrite Forall_forall in H. by apply H.
Qed.

Lemma everyCell_cellAt P (cells : list (list Cell)) :
  everyCell P cells = true ↔ ∀ r c x, cellAt cells r c = Some x → P x = true.
Proof.
  rewrite everyCell_Forall. split.
  - intros H r c x (_ & _ & rw & Hrw & Hx)%cellAt_Some.
    rewrite Forall_lookup in H. specialize (H _ _ Hrw).
    rewrite Forall_lookup in H. by apply (H _ _ Hx).
  - intros H. apply Forall_lookup. intros i rw Hrw.
    apply Forall_lookup. intros j x Hx. apply (H (Z.of_nat i) (Z.of_nat j)).
    by rewrite cellAt_of_nat, Hrw.
Qed.

Lemma everyCell_modifyCell P f (cells : list (list Cell)) r c :
  (∀ x, P x = true → P (f x) = true) →
  everyCell P cells = true →
  whenRet (λ out, everyCell P out = true) (modifyCell f cells r c).
Proof.
  intros Hf Hall. destruct (cellAt cells r c) as [x|] eqn:Hx.
  - destruct (modifyCell_Ret f _ _ _ _ Hx) as (rw & Hrw & Hxc & ->). simpl.
    apply everyCell_Forall in Hall. apply everyCell_Forall.
    pose proof (proj1 (Forall_lookup _ _) Hall _ _ Hrw) as Hrow.
    apply Forall_insert; [done|]. apply Forall_insert; [done|].
    apply Hf. by apply (proj1 (Forall_lookup _ _) Hrow _ _ Hxc).
  - by rewrite modifyCell_Throw.
Qed.

Lemma everyCell_placeMines P shuffle (cells : list (list Cell)) m p :
  (∀ x, P x = true → P (setMine x) = true) →
  everyCell P cells = true →
  whenRet (λ out, everyCell P out = true) (placeMines shuffle cells m p).
Proof.
  intros Hf Hall. unfold placeMines. destruct cells as [|r0 rest]; [done|].
  apply whenRet_foldl; [|done].
  intros acc pos Hacc. apply whenRet_bind. intros s ->.
  apply everyCell_modifyCell; [done|exact Hacc].
Qed.

Lemma everyCell_calculateNeighborMines P (cells : list (list Cell)) :
  (∀ n x, P x = true → P (setNeighborMines n x) = true) →
  everyCell P cells = true →
  whenRet (λ out, everyCell P out = true) (calculateNeighborMines cells).
Proof.
  intros Hf Hall. unfold calculateNeighborMines. destruct cells as [|r0 rest]; [done|].
  apply whenRet_foldl; [|done].
  intros acc r Hacc. apply whenRet_foldl; [|done].
  intros acc' c Hacc'. apply whenRet_bind. intros s ->.
  apply whenRet_bind. intros x _. destruct (isMine x); [exact Hacc'|].
  apply whenRet_bind. intros n _. apply everyCell_modifyCell; [auto|exact Hacc'].
Qed.

Lemma everyCell_revealAllMines P (cells : list (list Cell)) er ec :
  (∀ x revealed exploded, P x = true →
     P (mkCell (id x) (row x) (col x) (isMine x) revealed (isFlagged x)
               (isQuestioned x) (neighborMines x) exploded) = true) →
  everyCell P cells = true → everyCell P (revealAllMines cells er ec) = true.
Proof.
  intros Hf. rewrite !everyCell_Forall. unfold revealAllMines. intros Hall.
  apply Forall_fmap. eapply Forall_impl; [exact Hall|]. intros rw Hrw. simpl.
  apply Forall_fmap. eapply Forall_impl; [exact Hrw|]. intros x Hx. simpl.
  by apply Hf.
Qed.

Lemma everyCell_grows P (cells out : list (list Cell)) :
  (∀ x y, cellGrows x y → P x = true → P y = true) →
  grows cells out → everyCell P cells = true → everyCell P out = true.
Proof.
  intros HP Hg. rewrite !everyCell_cellAt. intros Hall r c y Hy.
  pose proof (grows_cellAt _ _ r c Hg) as Hrel. rewrite Hy in Hrel.
  inversion Hrel as [x y' Hxy Hx|]; subst. symmetry in Hx.
  eapply HP; [done|]. by eapply Hall.
Qed.

Lemma floods_unflagged (cells : list (list Cell)) p q :
  floods cells p q → flaggedAt cells q = false.
Proof. by induction 1. Qed.

(** The cells [revealCell] reveals carry no flag. *)
Lemma revealCell_revealedUnflagged (cells : list (list Cell)) r c :
  rectangular cells = true → everyCell revealedUnflagged cells = true →
  ∃ out, revealCell cells r c = Some (Ret out) ∧
         everyCell revealedUnflagged out = true.
Proof.
  intros Hrect Hall. destruct (revealable cells (mkPos r c)) eqn:E.
  2:{ exists cells. split; [|done]. by apply (revealCell_idle cells (mkPos r c)). }
  destruct (revealCell_effective cells (mkPos r c) Hrect E) as (out & Hout & Hpost).
  exists out. split; [done|]. apply everyCell_cellAt. intros r' c' y Hy.
  pose proof (grows_cellAt _ _ r' c' (post_grows _ _ _ Hpost)) as Hrel.
  rewrite Hy in Hrel. inversion Hrel as [x y' Hxy Hx|]; subst. symmetry in Hx.
  pose proof (proj1 (everyCell_cellAt _ _) Hall _ _ _ Hx) as Hxok.
  unfold revealedUnflagged in *.
  destruct (isRevealed y) eqn:Hyr; [|done]. simpl.
  destruct Hxy as (_ & _ & _ & _ & Hflag & _). rewrite Hflag.
  destruct (isRevealed x) eqn:Hxr; [done|].
  assert (flaggedAt cells (mkPos r' c') = false) as Hnf.
  { destruct (post_sound _ _ _ Hpost (mkPos r' c')) as [Heq | Hfl].
    - unfold revealedAt. simpl. by rewrite Hx.
    - unfold revealedAt. simpl. by rewrite Hy.
    - rewrite Heq. unfold revealable in E.
      apply andb_true_iff in E as [_ E]. apply negb_true_iff, orb_false_iff in E.
      apply E.
    - by eapply floods_unflagged. }
  unfold flaggedAt in Hnf. simpl in Hnf. rewrite Hx in Hnf. by rewrite Hnf.
Qed.

Lemma revealCell_notBoth (cells : list (list Cell)) r c :
  rectangular cells = true → everyCell notBoth cells = true →
  ∃ out, revealCell cells r c = Some (Ret out) ∧ everyCell notBoth out = true.
Proof.
  intros Hrect Hall. destruct (revealCell_grows cells r c Hrect) as (out & Hout & Hg).
  exists out. split; [done|]. eapply everyCell_grows; [|done..].
  intros x y (_ & _ & _ & _ & Hf & Hq & _). unfold notBoth. by rewrite Hf, Hq.
Qed.

Lemma initializeEmptyBoard_cellInvariant rows cols :
  cellInvariant (initializeEmptyBoard rows cols) = true.
Proof.
  unfold cellInvariant. apply everyCell_Forall. unfold initializeEmptyBoard.
  apply Forall_fmap, Forall_forall. intros r _. simpl.
  apply Forall_fmap, Forall_forall. by intros c _.
Qed.

(** * The toggles *)

Lemma modifyCell_modifyCell f g (cells : list (list Cell)) r c out :
  modifyCell f cells r c = Ret out →
  modifyCell g out r c = modifyCell (λ x, g (f x)) cells r c.
Proof.
  intros Hm. destruct (cellAt cells r c) as [x|] eqn:Hx.
  2:{ by rewrite modifyCell_Throw in Hm. }
  assert (cellAt out r c = Some (f x)) as Hfx.
  { rewrite (cellAt_modifyCell _ _ _ _ _ _ r c Hx Hm). by rewrite decide_True. }
  destruct (modifyCell_Ret f _ _ _ _ Hx) as (rw & Hrw & Hxc & E1).
  destruct (modifyCell_Ret (λ x, g (f x)) _ _ _ _ Hx) as (rw' & Hrw' & _ & ->).
  destruct (modifyCell_Ret g _ _ _ _ Hfx) as (rw2 & Hrw2 & _ & ->).
  rewrite E1 in Hm. injection Hm as <-.
  assert (rw' = rw) as -> by congruence.
  rewrite list_lookup_insert_eq in Hrw2 by by eapply lookup_lt_Some.
  injection Hrw2 as <-. by rewrite !list_insert_insert_eq.
Qed.

Lemma modifyCell_same f (cells : list (list Cell)) r c x :
  cellAt cells r c = Some x → f x = x → modifyCell f cells r c = Ret cells.
Proof.
  intros Hx Hf. destruct (modifyCell_Ret f _ _ _ _ Hx) as (rw & Hrw & Hxc & ->).
  rewrite Hf. by rewrite (list_insert_id rw), list_insert_id.
Qed.

(** C8: on an in-bounds cell that is unrevealed, unflagged and unquestioned,
    [toggleFlag] twice and [toggleQuestion] twice give back the input board;
    on an unrevealed questioned cell (unflagged, as the cell invariant has
    it) [toggleFlag] sets the flag and clears the question mark; and after
    [toggleFlag] an unrevealed cell is never both flagged and questioned,
    whatever its marks were before. *)
Theorem toggle_twice (cells : list (list Cell)) r c x :
  cellAt cells r c = Some x →
  (isRevealed x = false → isFlagged x = false → isQuestioned x = false →
     (toggleFlag cells r c ≫= λ b, toggleFlag b r c) = Ret cells ∧
     (toggleQuestion cells r c ≫= λ b, toggleQuestion b r c) = Ret cells) ∧
  (isRevealed x = false → notBoth x = true → isQuestioned x = true →
     ∃ out y, toggleFlag cells r c = Ret out ∧ cellAt out r c = Some y ∧
              isFlagged y = true ∧ isQuestioned y = false) ∧
  (isRevealed x = false →
     ∃ out y, toggleFlag cells r c = Ret out ∧ cellAt out r c = Some y ∧
              isFlagged y && isQuestioned y = false).
Proof.
  intros Hx.
  destruct (modifyCell_Ret flagToggled _ _ _ _ Hx) as (rw & _ & _ & Hf).
  destruct (modifyCell_Ret questionToggled _ _ _ _ Hx) as (rw' & _ & _ & Hq).
  assert (∀ out, toggleFlag cells r c = Ret out → cellAt out r c = Some (flagToggled x))
    as Hat.
  { intros out Hout. rewrite (cellAt_modifyCell _ _ _ _ _ _ r c Hx Hout).
    by rewrite decide_True. }
  split_and!.
  - intros Hr Hfl Hqu. unfold toggleFlag, toggleQuestion. split.
    + rewrite Hf. simpl. rewrite (modifyCell_modifyCell _ _ _ _ _ _ Hf).
      apply modifyCell_same with x; [done|].
      destruct x as [? ? ? ? [] [] [] ? ?]; simpl in *; try discriminate; reflexivity.
    + rewrite Hq. simpl. rewrite (modifyCell_modifyCell _ _ _ _ _ _ Hq).
      apply modifyCell_same with x; [done|].
      destruct x as [? ? ? ? [] [] [] ? ?]; simpl in *; try discriminate; reflexivity.
  - intros Hr Hnb Hqu. eexists _, (flagToggled x). split; [exact Hf|].
    split; [by apply Hat|].
    destruct x as [? ? ? ? [] [] [] ? ?]; simpl in *; try discriminate;
      split; reflexivity.
  - intros Hr. eexists _, (flagToggled x). split; [exact Hf|]. split; [by apply Hat|].
    destruct x as [? ? ? ? [] [] [] ? ?]; simpl in *; try discriminate; reflexivity.
Qed.

Lemma toggle_twice_witness :
  cellAt rowWithMine 0 1 = Some (mkCell "cell-0-1" 0 1 false false false false 1 None) ∧
  (toggleFlag rowWithMine 0 1 ≫= λ b, toggleFlag b 0 1) = Ret rowWithMine ∧
  (toggleQuestion rowWithMine 0 1 ≫= λ b, toggleQuestion b 0 1) = Ret rowWithMine ∧
  cellAt questionedCell 0 0 = Some (mkCell "cell-0-0" 0 0 false false false true 0 None) ∧
  ∃ out y, toggleFlag questionedCell 0 0 = Ret out ∧ cellAt out 0 0 = Some y ∧
           isFlagged y = true ∧ isQuestioned y = false.
Proof.
  destruct (toggle_twice rowWithMine 0 1
              (mkCell "cell-0-1" 0 1 false false false false 1 None) eq_refl)
    as (H1 & _ & _).
  destruct (toggle_twice questionedCell 0 0
              (mkCell "cell-0-0" 0 0 false false false true 0 None) eq_refl)
    as (_ & H2 & _).
  split; [reflexivity|]. split; [apply (H1 eq_refl eq_refl eq_refl)|].
  split; [apply (H1 eq_refl eq_refl eq_refl)|]. split; [reflexivity|].
  apply (H2 eq_refl eq_refl eq_refl).
Defined.

(** * Winning *)

Lemma revealed_same_count (cells cells' : list (list Cell)) :
  Forall2 (Forall2 (λ x y, isRevealed x = isRevealed y)) cells cells' →
  length (List.filter isRevealed (concat cells))
  = length (List.filter isRevealed (concat cells')).
Proof.
  induction 1 as [|rw rw' cells cells' Hrow _ IH]; [done|]. simpl.
  rewrite !List.filter_app, !length_app, IH. f_equal.
  clear IH. induction Hrow as [|x y rw rw' Hxy _ IH]; [done|]. simpl.
  rewrite Hxy. destruct (isRevealed y); simpl; by rewrite IH.
Qed.

(** C6: on a board with at least one row, [checkWinCondition] returns a
    boolean, which is true exactly when the number of revealed cells equals
    rows × cols − totalMines; and two boards of the same shape that agree on
    [isRevealed] cell by cell, whatever their flags and question marks, get
    the same answer. *)
Theorem checkWinCondition_iff (cells : list (list Cell)) (totalMines : Z) :
  cells ≠ [] →
  (checkWinCondition cells totalMines = Ret true ↔
   Z.of_nat (getRevealedCount cells)
   = (numRows cells * numCols cells - totalMines)%Z) ∧
  (∃ b, checkWinCondition cells totalMines = Ret b) ∧
  (∀ cells',
     Forall2 (Forall2 (λ x y, isRevealed x = isRevealed y)) cells cells' →
     checkWinCondition cells' totalMines = checkWinCondition cells totalMines).
Proof.
  intros Hne. destruct cells as [|r0 rest]; [done|]. split_and!.
  - unfold checkWinCondition, getRevealedCount, numRows, numCols. split.
    + intros [= H]. by apply Z.eqb_eq in H.
    + intros H. f_equal. by apply Z.eqb_eq.
  - eexists. reflexivity.
  - intros cells' H. pose proof (revealed_same_count _ _ H) as Hcount.
    pose proof (Forall2_length _ _ _ H) as Hlen.
    inversion H as [|? r0' ? rest' Hr0 Hrest]; subst.
    unfold checkWinCondition. apply Forall2_length in Hr0.
    rewrite <-Hcount, <-Hlen, <-Hr0. done.
Qed.

Lemma checkWinCondition_iff_witness :
  rowWithMine ≠ [] ∧
  (checkWinCondition rowWithMine 3 = Ret true ↔
   Z.of_nat (getRevealedCount rowWithMine)
   = (numRows rowWithMine * numCols rowWithMine - 3)%Z).
Proof.
  split; [discriminate|].
  apply (checkWinCondition_iff rowWithMine 3). discriminate.
Defined.

(** * Losing: [revealAllMines] *)

Lemma lookup_map {A B} (f : A → B) (l : list A) i : map f l !! i = f <$> l !! i.
Proof. revert i. induction l as [|a l IH]; intros [|i]; simpl; auto. Qed.

Lemma cellAt_map (f : Cell → Cell) (cells : list (list Cell)) r c :
  cellAt (map (map f) cells) r c = f <$> cellAt cells r c.
Proof.
  unfold cellAt, at_. destruct (decide (0 ≤ r)%Z); [|done].
  rewrite lookup_map. destruct (cells !! Z.to_nat r) as [rw|]; [|done]. simpl.
  destruct (decide (0 ≤ c)%Z); [|done]. by rewrite lookup_map.
Qed.

Lemma coordsOk_cellAt (cells : list (list Cell)) r c x :
  coordsOk cells = true → cellAt cells r c = Some x → row x = r ∧ col x = c.
Proof.
  intros E%bool_decide_eq_true (Hr & Hc & rw & Hrw & Hx)%cellAt_Some.
  assert (map (map (λ x, (row x, col x))) cells !! Z.to_nat r
          = Some (map (λ x, (row x, col x)) rw)) as H1.
  { by rewrite lookup_map, Hrw. }
  rewrite E in H1. unfold initializeEmptyBoard in H1.
  rewrite !lookup_map in H1.
  destruct (seq 0 (length cells) !! Z.to_nat r) as [i|] eqn:Ei; [|done].
  apply lookup_seq in Ei as [-> _]. simpl in H1. injection H1 as H1.
  assert (map (λ x, (row x, col x)) rw !! Z.to_nat c = Some (row x, col x)) as H2.
  { by rewrite lookup_map, Hx. }
  rewrite <-H1, !lookup_map in H2.
  destruct (seq 0 _ !! Z.to_nat c) as [j|] eqn:Ej; [|done].
  apply lookup_seq in Ej as [-> _]. simpl in H2. injection H2 as H2 H3.
  split; lia.
Qed.

Lemma initializeEmptyBoard_coordsOk rows cols :
  coordsOk (initializeEmptyBoard rows cols) = true.
Proof.
  apply bool_decide_eq_true. f_equal. unfold initializeEmptyBoard.
  rewrite length_map, length_seq. destruct rows as [|rows]; [done|].
  simpl. by rewrite length_map, length_seq, Nat2Z.id.
Qed.

(** C5: on a board whose cells carry their own coordinates, and for a
    position whose cell is a mine, [revealAllMines] returns a board in which
    the cell at that position has [isExploded = true], and in which every
    cell: is revealed if it is a mine, keeps its [isRevealed] if it is not,
    has [isExploded] set, to true at the supplied position only, and keeps
    every other field. *)
Theorem revealAllMines_spec (cells : list (list Cell)) er ec :
  coordsOk cells = true → mineAt cells (mkPos er ec) = true →
  (∃ y, cellAt (revealAllMines cells er ec) er ec = Some y ∧
        isExploded y = Some true) ∧
  ∀ r c x, cellAt cells r c = Some x →
    ∃ y, cellAt (revealAllMines cells er ec) r c = Some y ∧
         (isMine x = true → isRevealed y = true) ∧
         (isMine x = false → isRevealed y = isRevealed x) ∧
         isExploded y = Some (bool_decide (r = er ∧ c = ec)) ∧
         id y = id x ∧ row y = row x ∧ col y = col x ∧ isMine y = isMine x ∧
         isFlagged y = isFlagged x ∧ isQuestioned y = isQuestioned x ∧
         neighborMines y = neighborMines x.
Proof.
  intros Hco Hmine.
  assert (∀ r c x, cellAt cells r c = Some x →
    ∃ y, cellAt (revealAllMines cells er ec) r c = Some y ∧
         (isMine x = true → isRevealed y = true) ∧
         (isMine x = false → isRevealed y = isRevealed x) ∧
         isExploded y = Some (bool_decide (r = er ∧ c = ec)) ∧
         id y = id x ∧ row y = row x ∧ col y = col x ∧ isMine y = isMine x ∧
         isFlagged y = isFlagged x ∧ isQuestioned y = isQuestioned x ∧
         neighborMines y = neighborMines x) as Hall.
  { intros r c x Hx. unfold revealAllMines. rewrite cellAt_map, Hx. simpl.
    eexists. split; [reflexivity|]. simpl.
    destruct (coordsOk_cellAt _ _ _ _ Hco Hx) as [-> ->].
    split_and!; try done.
    - by intros ->.
    - by intros ->.
    - f_equal. destruct (isMine x) eqn:Em; simpl.
      + apply eq_true_iff_eq. rewrite andb_true_iff, !Z.eqb_eq, bool_decide_eq_true.
        done.
      + symmetry. apply bool_decide_eq_false. intros [-> ->].
        unfold mineAt in Hmine. simpl in Hmine. rewrite Hx in Hmine. congruence. }
  split; [|done].
  unfold mineAt in Hmine. simpl in Hmine.
  destruct (cellAt cells er ec) as [x|] eqn:Hx; [|done].
  destruct (Hall _ _ _ Hx) as (y & Hy & _ & _ & He & _).
  exists y. split; [done|]. rewrite He. f_equal. by apply bool_decide_eq_true.
Qed.

Lemma revealAllMines_spec_witness :
  coordsOk rowWithMine = true ∧ mineAt rowWithMine (mkPos 0 2) = true ∧
  ∃ y, cellAt (revealAllMines rowWithMine 0 2) 0 2 = Some y ∧
       isExploded y = Some true.
Proof.
  split; [reflexivity|]. split; [reflexivity|].
  apply (revealAllMines_spec rowWithMine 0 2); reflexivity.
Defined.

(** * Cell identifiers *)

Lemma string_app_cons x (a b : string) : String x a +:+ b = String x (a +:+ b).
Proof. reflexivity. Qed.

Lemma string_app_nil_l (b : string) : "" +:+ b = b.
Proof. reflexivity. Qed.

Lemma string_app_assoc (a b c : string) : (a +:+ b) +:+ c = a +:+ b +:+ c.
Proof.
  induction a as [|x a IH]; [done|]. rewrite !string_app_cons. by f_equal.
Qed.

Lemma string_app_nil_r (a : string) : a +:+ "" = a.
Proof. induction a as [|x a IH]; [done|]. rewrite string_app_cons. by f_equal. Qed.

Lemma noDash_app a b : noDash a → noDash b → noDash (a +:+ b).
Proof.
  induction a as [|x a IH]; [done|]. rewrite string_app_cons. simpl.
  intros [? ?] ?. auto.
Qed.

Lemma pretty_N_char_noDash x : pretty_N_char x ≠ "-"%char.
Proof. unfold pretty_N_char. by repeat case_match. Qed.

Lemma pretty_N_go_noDash x :
  ∀ s, ∃ d, pretty_N_go x s = d +:+ s ∧ noDash d.
Proof.
  induction (N.lt_wf_0 x) as [x _ IH]. intros s.
  assert (x = 0 ∨ 0 < x)%N as [->|Hx] by lia.
  - exists "". by rewrite pretty_N_go_0.
  - rewrite pretty_N_go_step by done.
    destruct (IH (x `div` 10)%N) with (s := String (pretty_N_char (x `mod` 10)) s)
      as (d & -> & Hd); [by apply N.div_lt|].
    exists (d +:+ String (pretty_N_char (x `mod` 10)) ""). split.
    + by rewrite string_app_assoc.
    + apply noDash_app; [done|]. simpl. split; [apply pretty_N_char_noDash|done].
Qed.

Lemma pretty_Z_noDash (z : Z) : (0 ≤ z)%Z → noDash (pretty z).
Proof.
  intros Hz. destruct z as [|x|x]; [by compute| |lia].
  unfold pretty, pretty_Z, pretty, pretty_positive, pretty, pretty_N.
  destruct (decide (N.pos x = 0%N)); [done|].
  destruct (pretty_N_go_noDash (N.pos x) "") as (d & -> & Hd).
  by rewrite string_app_nil_r.
Qed.

Lemma split_at_dash d1 d2 s1 s2 :
  noDash d1 → noDash d2 →
  d1 +:+ "-" +:+ s1 = d2 +:+ "-" +:+ s2 → d1 = d2 ∧ s1 = s2.
Proof.
  revert d2. induction d1 as [|a d1 IH]; intros [|b d2];
    rewrite ?string_app_cons, ?string_app_nil_l; simpl.
  - intros _ _ [= ->]. done.
  - intros _ [Hb _] [= <- _]. done.
  - intros [Ha _] _ [= -> _]. done.
  - intros [_ H1] [_ H2] [= -> E]. destruct (IH _ H1 H2 E) as [-> ->]. done.
Qed.

Lemma generateCellId_inj r c r' c' :
  (0 ≤ r)%Z → (0 ≤ c)%Z → (0 ≤ r')%Z → (0 ≤ c')%Z →
  generateCellId r c = generateCellId r' c' → r = r' ∧ c = c'.
Proof.
  intros Hr Hc Hr' Hc'. unfold generateCellId.
  rewrite !string_app_cons, !string_app_nil_l. intros [= E].
  apply split_at_dash in E as [E1 E2]; [|by apply pretty_Z_noDash..].
  split; by apply (inj pretty).
Qed.

(** * Mine placement *)

Lemma elem_foldl_union (g : Position → string) (l : list Position) :
  ∀ (s0 : gset string) i,
    i ∈ foldl (λ s pos, {[ g pos ]} ∪ s) s0 l ↔ i ∈ s0 ∨ ∃ n, n ∈ l ∧ i = g n.
Proof.
  induction l as [|a l IH]; intros s0 i; simpl.
  - split; [by left|]. intros [?|(n & Hn & _)]; [done|]. by apply elem_of_nil in Hn.
  - rewrite IH, elem_of_union, elem_of_singleton. split.
    + intros [[->|?]|(n & Hn & ->)]; [right|by left|right].
      * exists a. split; [left|done].
      * exists n. split; [by right|done].
    + intros [?|(n & Hn & ->)]; [by left; right|].
      apply elem_of_cons in Hn as [->|Hn]; [by left; left|right; eauto].
Qed.

Lemma elem_excludedPositions p rows cols i :
  i ∈ excludedPositions p rows cols ↔
  i = generateCellId (prow p) (pcol p) ∨
  ∃ n, n ∈ getNeighborPositions (prow p) (pcol p) rows cols ∧
       i = generateCellId (prow n) (pcol n).
Proof.
  unfold excludedPositions.
  rewrite (elem_foldl_union (λ pos, generateCellId (prow pos) (pcol pos))).
  by rewrite elem_of_singleton.
Qed.

Lemma around_spec p q : around p q = true ↔ q = p ∨ near p q = true.
Proof.
  unfold around, near. rewrite andb_true_iff, !Z.leb_le, Z.eqb_eq.
  destruct p as [pr pc], q as [qr qc]. simpl. split.
  - intros [H1 H2]. destruct (decide (qr = pr ∧ qc = pc)) as [[-> ->]|Hne]; [by left|].
    right. lia.
  - intros [[= -> ->]|H]; lia.
Qed.

Lemma excluded_around p rows cols (r c : nat) :
  isValidPosition (prow p) (pcol p) rows cols = true →
  (Z.of_nat r < rows)%Z → (Z.of_nat c < cols)%Z →
  generateCellId (Z.of_nat r) (Z.of_nat c) ∈ excludedPositions p rows cols ↔
  around p (mkPos (Z.of_nat r) (Z.of_nat c)) = true.
Proof.
  intros Hp%isValidPosition_true Hr Hc.
  rewrite elem_excludedPositions, around_spec. split.
  - intros [E|(n & Hn & E)].
    + apply generateCellId_inj in E as [E1 E2]; [|lia..].
      left. destruct p; simpl in *; by subst.
    + apply getNeighborPositions_spec in Hn as [Hv Hnear].
      pose proof Hv as Hv'%isValidPosition_true.
      apply generateCellId_inj in E as [E1 E2]; [|lia..].
      right. destruct n, p; simpl in *; by subst.
  - intros [E|Hnear]; [left; by rewrite <-E|]. right.
    exists (mkPos (Z.of_nat r) (Z.of_nat c)). split; [|done].
    apply getNeighborPositions_spec. split; [|by destruct p].
    apply isValidPosition_true. simpl. lia.
Qed.

Lemma filter_bind {A B} (f : B → bool) (g : A → list B) (l : list A) :
  List.filter f (l ≫= g) = l ≫= (λ x, List.filter f (g x)).
Proof.
  induction l as [|a l IH]; [done|]. rewrite !bind_cons, List.filter_app. by f_equal.
Qed.

Lemma availablePositions_filter (excluded : gset string) rows cols (f : Position → bool) :
  (∀ r c, r < rows → c < cols →
     generateCellId (Z.of_nat r) (Z.of_nat c) ∈ excluded ↔
     f (mkPos (Z.of_nat r) (Z.of_nat c)) = false) →
  availablePositions excluded rows cols = List.filter f (gridPositions rows cols).
Proof.
  intros H. unfold availablePositions, gridPositions. rewrite filter_bind.
  apply Forall_bind_ext, Forall_forall. intros r [_ Hr]%elem_of_seq.
  rewrite filter_bind. apply Forall_bind_ext, Forall_forall. intros c [_ Hc]%elem_of_seq.
  specialize (H r c Hr Hc). simpl.
  destruct (decide (generateCellId (Z.of_nat r) (Z.of_nat c) ∈ excluded)) as [Hin|Hin].
  - by rewrite (proj1 H Hin).
  - destruct (f _); [done|]. by destruct Hin; apply H.
Qed.

Lemma elem_gridPositions rows cols q :
  q ∈ gridPositions rows cols ↔
  isValidPosition (prow q) (pcol q) (Z.of_nat rows) (Z.of_nat cols) = true.
Proof.
  unfold gridPositions. rewrite isValidPosition_true, list_elem_of_bind. split.
  - intros (r & (c & Hq & [_ Hc]%elem_of_seq)%list_elem_of_bind & [_ Hr]%elem_of_seq).
    apply list_elem_of_singleton in Hq as ->. simpl. lia.
  - intros [Hr Hc]. exists (Z.to_nat (prow q)). split; [|apply elem_of_seq; lia].
    apply list_elem_of_bind. exists (Z.to_nat (pcol q)). split; [|apply elem_of_seq; lia].
    apply list_elem_of_singleton. destruct q; simpl in *. f_equal; lia.
Qed.

Lemma NoDup_gridPositions rows cols : NoDup (gridPositions rows cols).
Proof.
  unfold gridPositions. apply NoDup_bind; [| |apply NoDup_seq].
  - intros r1 r2 q _ _ (c1 & H1 & _)%list_elem_of_bind (c2 & H2 & _)%list_elem_of_bind.
    apply list_elem_of_singleton in H1, H2. subst q. injection H2 as H2 _. lia.
  - intros r _. apply NoDup_bind; [| |apply NoDup_seq].
    + intros c1 c2 q _ _ H1%list_elem_of_singleton H2%list_elem_of_singleton.
      subst q. injection H2 as H2. lia.
    + intros c _. apply NoDup_singleton.
Qed.

Lemma NoDup_List_filter {A} (f : A → bool) (l : list A) :
  NoDup l → NoDup (List.filter f l).
Proof. rewrite !NoDup_ListNoDup. apply List.NoDup_filter. Qed.

Lemma elem_List_filter {A} (f : A → bool) (l : list A) x :
  x ∈ List.filter f l ↔ x ∈ l ∧ f x = true.
Proof. rewrite !list_elem_of_In. apply filter_In. Qed.

Lemma countCells_middle P (A B : list (list Cell)) (a b : list Cell) x :
  countCells P (A ++ (a ++ x :: b) :: B)
  = countCells P A + length (List.filter P a) + (if P x then 1 else 0)
    + length (List.filter P b) + countCells P B.
Proof.
  unfold countCells. rewrite concat_app, concat_cons.
  rewrite !List.filter_app, !length_app. simpl.
  destruct (P x); simpl; lia.
Qed.

Lemma countCells_modifyCell P f (cells : list (list Cell)) r c x out :
  cellAt cells r c = Some x → modifyCell f cells r c = Ret out →
  countCells P out + (if P x then 1 else 0)
  = countCells P cells + (if P (f x) then 1 else 0).
Proof.
  intros Hx Hm. destruct (modifyCell_Ret f _ _ _ _ Hx) as (rw & Hrw & Hxc & E).
  rewrite E in Hm. injection Hm as <-.
  rewrite insert_take_drop by by eapply lookup_lt_Some.
  rewrite insert_take_drop by by eapply lookup_lt_Some.
  rewrite <-(take_drop_middle cells (Z.to_nat r) rw Hrw) at 3.
  rewrite <-(take_drop_middle rw (Z.to_nat c) x Hxc) at 3.
  rewrite !countCells_middle. lia.
Qed.

Lemma countCells_none P (cells : list (list Cell)) :
  everyCell (λ x, negb (P x)) cells = true → countCells P cells = 0.
Proof.
  rewrite everyCell_Forall. unfold countCells.
  induction 1 as [|rw cells Hrw _ IH]; [done|]. simpl.
  rewrite List.filter_app, length_app, IH.
  clear IH. induction Hrw as [|x rw Hx _ IH]; [done|]. simpl.
  apply negb_true_iff in Hx. by rewrite Hx.
Qed.

(** The loop that writes the mines. *)
Lemma placeMines_loop (ps : list Position) :
  ∀ s : list (list Cell),
    NoDup ps →
    (∀ q, q ∈ ps → ∃ x, cellAt s (prow q) (pcol q) = Some x ∧ isMine x = false) →
    ∃ out,
      foldl (λ acc pos, newCells ← acc;
                        modifyCell setMine newCells (prow pos) (pcol pos))
            (Ret s) ps = Ret out ∧
      countCells isMine out = countCells isMine s + length ps ∧
      ∀ q, q ∉ ps → cellAt out (prow q) (pcol q) = cellAt s (prow q) (pcol q).
Proof.
  induction ps as [|pos ps IH]; intros s Hnd Hall.
  { exists s. split_and!; [done|simpl; lia|done]. }
  apply NoDup_cons in Hnd as [Hpos Hnd].
  destruct (Hall pos) as (x & Hx & Hxm); [left|].
  destruct (modifyCell_Ret setMine _ _ _ _ Hx) as (rw & _ & _ & Hm).
  set (s' := <[_ := _]> s) in Hm.
  assert (∀ q, q ≠ pos → cellAt s' (prow q) (pcol q) = cellAt s (prow q) (pcol q))
    as Hother.
  { intros q Hq. rewrite (cellAt_modifyCell _ _ _ _ _ _ _ _ Hx Hm).
    rewrite decide_False; [done|]. intros [? ?]. apply Hq.
    destruct q, pos; simpl in *; congruence. }
  destruct (IH s' Hnd) as (out & Hout & Hcount & Hframe).
  { intros q Hq. rewrite Hother; [apply Hall; by right|]. by intros ->. }
  exists out. split_and!.
  - cbn [foldl]. simpl. rewrite Hm. exact Hout.
  - rewrite Hcount. pose proof (countCells_modifyCell isMine _ _ _ _ _ _ Hx Hm) as Hc.
    rewrite Hxm in Hc. simpl in Hc. simpl. lia.
  - intros q Hq. apply not_elem_of_cons in Hq as [Hq1 Hq2].
    rewrite Hframe by done. by apply Hother.
Qed.

Lemma slice0_take {A} (l : list A) (m : Z) :
  (0 ≤ m)%Z →
  slice0 l (Z.min m (Z.of_nat (length l)))
  = take (Z.to_nat (Z.min m (Z.of_nat (length l)))) l.
Proof.
  intros Hm. unfold slice0.
  destruct (Z.ltb_spec (Z.min m (Z.of_nat (length l))) 0) as [|_]; [lia|].
  f_equal. lia.
Qed.

(** C2: for every random source that permutes its input, every rectangular
    board without mines, every in-bounds first click [p] and every
    [totalMines ≥ 0], [placeMines] returns a board in which no cell at [p]
    or next to [p] is a mine, and in which exactly
    min (totalMines, eligibleCount) cells are mines, [eligibleCount] being
    the number of cells outside [p] and its neighbourhood. *)
Theorem placeMines_spec (shuffle : list Position → list Position)
    (cells : list (list Cell)) (totalMines : Z) (p : Position) :
  (∀ l, shuffle l ≡ₚ l) →
  rectangular cells = true →
  everyCell (λ x, negb (isMine x)) cells = true →
  inBounds cells p = true →
  (0 ≤ totalMines)%Z →
  ∃ out, placeMines shuffle cells totalMines p = Ret out ∧
         (∀ q, around p q = true → mineAt out q = false) ∧
         Z.of_nat (countCells isMine out)
         = Z.min totalMines (Z.of_nat (eligibleCount cells p)).
Proof.
  intros Hperm Hrect Hnomine Hp Hm.
  assert (∀ r c x, cellAt cells r c = Some x → isMine x = false) as Hsafe.
  { intros r c x Hx. apply negb_true_iff.
    by apply (proj1 (everyCell_cellAt _ _) Hnomine r c x). }
  unfold placeMines, eligibleCount.
  destruct cells as [|r0 rest] eqn:Ecells; [done|]. rewrite <-Ecells in *.
  assert (Z.of_nat (length r0) = numCols cells) as Hcols by by rewrite Ecells.
  replace (length (r0 :: rest)) with (length cells) by by rewrite Ecells.
  replace (Z.to_nat (numCols cells)) with (length r0) by lia.
  set (rows := length cells). set (cols := length r0).
  rewrite (availablePositions_filter _ rows cols (λ q, negb (around p q))).
  2:{ intros r c Hr Hc. rewrite negb_false_iff. apply excluded_around.
      - unfold rows, cols. rewrite Hcols. exact Hp.
      - lia.
      - lia. }
  set (av := List.filter _ (gridPositions rows cols)).
  rewrite slice0_take by done.
  set (mp := take _ (shuffle av)).
  assert (∀ q, q ∈ mp → q ∈ av) as Hsub.
  { intros q Hq%subseteq_take. by rewrite (Hperm av) in Hq. }
  assert (NoDup mp) as Hnd.
  { eapply sublist_NoDup; [|apply sublist_take]. rewrite (Hperm av).
    apply NoDup_List_filter, NoDup_gridPositions. }
  destruct (placeMines_loop mp cells Hnd) as (out & Hout & Hcount & Hframe).
  { intros q [Hq _]%Hsub%elem_List_filter.
    apply elem_gridPositions in Hq. unfold rows, cols in Hq. rewrite Hcols in Hq.
    apply (cellAt_valid _ _ _ Hrect) in Hq as [x Hx]. eauto. }
  exists out. split_and!; [done| |].
  - intros q Hq. unfold mineAt. rewrite Hframe.
    + destruct (cellAt cells (prow q) (pcol q)) as [x|] eqn:Hx; [|done]. by eapply Hsafe.
    + intros [_ Hav]%Hsub%elem_List_filter. by rewrite Hq in Hav.
  - rewrite Hcount, (countCells_none isMine cells Hnomine). unfold mp.
    rewrite length_take, (Permutation_length (Hperm av)). lia.
Qed.

Lemma placeMines_spec_witness :
  (∀ l : list Position, (λ l, l) l ≡ₚ l) ∧
  rectangular (initializeEmptyBoard 4 4) = true ∧
  everyCell (λ x, negb (isMine x)) (initializeEmptyBoard 4 4) = true ∧
  inBounds (initializeEmptyBoard 4 4) (mkPos 0 0) = true ∧
  (0 ≤ 3)%Z ∧
  ∃ out, placeMines (λ l, l) (initializeEmptyBoard 4 4) 3 (mkPos 0 0) = Ret out ∧
         (∀ q, around (mkPos 0 0) q = true → mineAt out q = false) ∧
         Z.of_nat (countCells isMine out)
         = Z.min 3 (Z.of_nat (eligibleCount (initializeEmptyBoard 4 4) (mkPos 0 0))).
Proof.
  split; [intros l; reflexivity|]. split; [reflexivity|]. split; [reflexivity|].
  split; [reflexivity|]. split; [lia|].
  apply (placeMines_spec (λ l, l) (initializeEmptyBoard 4 4) 3 (mkPos 0 0));
    [intros l; reflexivity | reflexivity | reflexivity | reflexivity | lia].
Defined.

(** * The operations return on rectangular boards *)

Lemma foldl_invariant {A B} (I : A → Prop) (f : A → B → A) (l : list B) :
  (∀ a b, b ∈ l → I a → I (f a b)) → ∀ a, I a → I (foldl f a l).
Proof.
  induction l as [|b l IH]; intros Hf a Ha; [done|]. simpl.
  apply IH.
  - intros a' b' Hb'. apply Hf. by right.
  - apply Hf; [left|done].
Qed.

Lemma modifyCell_is_Some f (cells : list (list Cell)) r c out :
  modifyCell f cells r c = Ret out →
  ∀ r' c', is_Some (cellAt out r' c') ↔ is_Some (cellAt cells r' c').
Proof.
  intros Hm r' c'. destruct (cellAt cells r c) as [x|] eqn:Hx.
  2:{ by rewrite modifyCell_Throw in Hm. }
  rewrite (cellAt_modifyCell _ _ _ _ _ _ r' c' Hx Hm).
  destruct (decide (r' = r ∧ c' = c)) as [[-> ->]|]; [|done].
  rewrite Hx. split; eauto.
Qed.

Lemma modifyCell_returns f (cells : list (list Cell)) r c :
  is_Some (cellAt cells r c) → ∃ out, modifyCell f cells r c = Ret out.
Proof.
  intros [x Hx]. destruct (modifyCell_Ret f _ _ _ _ Hx) as (rw & _ & _ & ->). eauto.
Qed.

Lemma countMines_returns (s : list (list Cell)) ps :
  (∀ q, q ∈ ps → is_Some (cellAt s (prow q) (pcol q))) →
  ∃ n, countMines s ps = Ret n.
Proof.
  induction ps as [|q ps IH]; intros Hall; [by exists 0%Z|].
  destruct (Hall q) as [x Hx]; [left|].
  destruct IH as [n Hn]; [intros q' Hq'; apply Hall; by right|].
  simpl. unfold readCell. rewrite Hx. simpl. rewrite Hn. simpl. eauto.
Qed.

Lemma calculateNeighborMines_returns (cells : list (list Cell)) :
  rectangular cells = true → ∃ out, calculateNeighborMines cells = Ret out.
Proof.
  intros Hrect. unfold calculateNeighborMines.
  destruct cells as [|r0 rest] eqn:Ecells; [done|]. rewrite <-Ecells in *.
  assert (Z.of_nat (length r0) = numCols cells) as Hcols by by rewrite Ecells.
  replace (length (r0 :: rest)) with (length cells) by by rewrite Ecells.
  set (I := λ acc : Outcome (list (list Cell)),
         ∃ s, acc = Ret s ∧
              ∀ r c, is_Some (cellAt s r c) ↔ is_Some (cellAt cells r c)).
  assert (∀ q, inBounds cells q = true →
               ∀ acc, I acc → ∃ s, acc = Ret s ∧ is_Some (cellAt s (prow q) (pcol q)))
    as Hin.
  { intros q Hq acc (s & -> & Hs). exists s. split; [done|].
    apply Hs. by apply inBounds_cellAt. }
  cut (I (foldl (λ acc r,
        foldl (λ acc c,
          newCells ← acc;
          x ← readCell newCells (Z.of_nat r) (Z.of_nat c);
          if isMine x then Ret newCells
          else
            mineCount ←
              countMines newCells
                (getNeighborPositions (Z.of_nat r) (Z.of_nat c)
                   (Z.of_nat (length cells)) (Z.of_nat (length r0)));
            modifyCell (setNeighborMines mineCount) newCells (Z.of_nat r) (Z.of_nat c))
          acc (seq 0 (length r0)))
        (Ret cells) (seq 0 (length cells)))).
  { intros (s & -> & _). eauto. }
  apply foldl_invariant; [|by exists cells].
  intros acc r [_ Hr]%elem_of_seq Hacc.
  apply foldl_invariant; [|done].
  intros acc' c [_ Hc]%elem_of_seq Hacc'.
  destruct (Hin (mkPos (Z.of_nat r) (Z.of_nat c))) with (acc := acc')
    as (s & -> & [x Hx]); [|done|].
  { apply isValidPosition_true. simpl. unfold numRows. lia. }
  destruct Hacc' as (s' & [= <-] & Hs). simpl in Hx. simpl.
  unfold readCell. rewrite Hx. simpl.
  destruct (isMine x); [by exists s|].
  destruct (countMines_returns s
    (getNeighborPositions (Z.of_nat r) (Z.of_nat c)
       (Z.of_nat (length cells)) (Z.of_nat (length r0)))) as [n ->].
  { intros q [Hq _]%getNeighborPositions_spec. apply Hs.
    apply (cellAt_valid _ _ _ Hrect). unfold numRows. by rewrite <-Hcols. }
  simpl. destruct (modifyCell_returns (setNeighborMines n) s (Z.of_nat r) (Z.of_nat c))
    as [out Hout]; [eauto|].
  exists out. split; [done|]. intros r' c'.
  rewrite (modifyCell_is_Some _ _ _ _ _ Hout). apply Hs.
Qed.

Lemma elem_availablePositions (excluded : gset string) rows cols q :
  q ∈ availablePositions excluded rows cols → q ∈ gridPositions rows cols.
Proof.
  unfold availablePositions, gridPositions. rewrite !list_elem_of_bind.
  intros (r & (c & Hq & Hc)%list_elem_of_bind & Hr). exists r. split; [|done].
  apply list_elem_of_bind. exists c. split; [|done].
  by destruct (decide _); [apply elem_of_nil in Hq|].
Qed.

Lemma elem_slice0 {A} (l : list A) e x : x ∈ slice0 l e → x ∈ l.
Proof. unfold slice0. destruct (_ <? _)%Z; apply subseteq_take. Qed.

Lemma placeMines_loop_returns (ps : list Position) :
  ∀ s : list (list Cell),
    (∀ q, q ∈ ps → is_Some (cellAt s (prow q) (pcol q))) →
    ∃ out,
      foldl (λ acc pos, newCells ← acc;
                        modifyCell setMine newCells (prow pos) (pcol pos))
            (Ret s) ps = Ret out.
Proof.
  induction ps as [|pos ps IH]; intros s Hall; [by exists s|].
  destruct (modifyCell_returns setMine s (prow pos) (pcol pos)) as [s' Hs'];
    [apply Hall; left|].
  destruct (IH s') as [out Hout].
  { intros q Hq. rewrite (modifyCell_is_Some _ _ _ _ _ Hs'). apply Hall. by right. }
  exists out. cbn [foldl]. simpl. by rewrite Hs'.
Qed.

Lemma placeMines_returns shuffle (cells : list (list Cell)) m p :
  (∀ l, shuffle l ≡ₚ l) → rectangular cells = true →
  ∃ out, placeMines shuffle cells m p = Ret out.
Proof.
  intros Hperm Hrect. unfold placeMines.
  destruct cells as [|r0 rest] eqn:Ecells; [done|]. rewrite <-Ecells in *.
  assert (Z.of_nat (length r0) = numCols cells) as Hcols by by rewrite Ecells.
  replace (length (r0 :: rest)) with (length cells) by by rewrite Ecells.
  apply placeMines_loop_returns.
  intros q Hq%elem_slice0. rewrite (Hperm _) in Hq.
  apply elem_availablePositions, elem_gridPositions in Hq.
  apply (cellAt_valid _ _ _ Hrect). unfold numRows. by rewrite <-Hcols.
Qed.

Lemma whenRet_returns {A} (Q : A → Prop) (o : Outcome A) :
  (∃ a, o = Ret a) → whenRet Q o → ∃ a, o = Ret a ∧ Q a.
Proof. intros [a ->] H. eauto. Qed.

(** * The cell invariant under the operations *)

(** C3, as stated, fails on two operations.  [revealCell] reveals a
    questioned cell and leaves its question mark; [revealAllMines] reveals a
    flagged mine and leaves its flag.  Both boards satisfy the invariant
    before the call and break it after. *)
Lemma cell_invariant_broken :
  (cellInvariant questionedCell = true ∧
   ∃ out, revealCell questionedCell 0 0 = Some (Ret out) ∧
          cellInvariant out = false) ∧
  (cellInvariant flaggedMine = true ∧
   cellInvariant (revealAllMines flaggedMine 0 0) = false).
Proof.
  split.
  - split; [reflexivity|]. eexists. split; [vm_compute; reflexivity|reflexivity].
  - split; reflexivity.
Qed.

(** C3, amended.  A freshly created board satisfies the cell invariant.  On a
    rectangular board, where [revealCell], [placeMines] (with a random source
    that permutes) and [calculateNeighborMines] return a board, and the
    toggles do at an in-bounds position and throw elsewhere: (1) no cell both
    flagged and questioned is preserved by all six operations; (2) no
    revealed cell flagged is preserved by [revealCell], [toggleFlag],
    [toggleQuestion], [placeMines] and [calculateNeighborMines]; (3) no
    revealed cell questioned is preserved by [toggleFlag], [toggleQuestion],
    [placeMines] and [calculateNeighborMines]. *)
Theorem cell_invariant_parts shuffle (cells : list (list Cell)) r c m p rows cols :
  (∀ l, shuffle l ≡ₚ l) →
  rectangular cells = true →
  cellInvariant (initializeEmptyBoard rows cols) = true ∧
  (inBounds cells (mkPos r c) = true →
     (∃ out, toggleFlag cells r c = Ret out) ∧
     (∃ out, toggleQuestion cells r c = Ret out)) ∧
  (everyCell notBoth cells = true →
     (∃ out, revealCell cells r c = Some (Ret out) ∧ everyCell notBoth out = true) ∧
     whenRet (λ out, everyCell notBoth out = true) (toggleFlag cells r c) ∧
     whenRet (λ out, everyCell notBoth out = true) (toggleQuestion cells r c) ∧
     (∃ out, placeMines shuffle cells m p = Ret out ∧ everyCell notBoth out = true) ∧
     (∃ out, calculateNeighborMines cells = Ret out ∧ everyCell notBoth out = true) ∧
     everyCell notBoth (revealAllMines cells r c) = true) ∧
  (everyCell revealedUnflagged cells = true →
     (∃ out, revealCell cells r c = Some (Ret out) ∧
             everyCell revealedUnflagged out = true) ∧
     whenRet (λ out, everyCell revealedUnflagged out = true) (toggleFlag cells r c) ∧
     whenRet (λ out, everyCell revealedUnflagged out = true) (toggleQuestion cells r c) ∧
     (∃ out, placeMines shuffle cells m p = Ret out ∧
             everyCell revealedUnflagged out = true) ∧
     (∃ out, calculateNeighborMines cells = Ret out ∧
             everyCell revealedUnflagged out = true)) ∧
  (everyCell revealedUnquestioned cells = true →
     whenRet (λ out, everyCell revealedUnquestioned out = true) (toggleFlag cells r c) ∧
     whenRet (λ out, everyCell revealedUnquestioned out = true)
             (toggleQuestion cells r c) ∧
     (∃ out, placeMines shuffle cells m p = Ret out ∧
             everyCell revealedUnquestioned out = true) ∧
     (∃ out, calculateNeighborMines cells = Ret out ∧
             everyCell revealedUnquestioned out = true)).
Proof.
  intros Hperm Hrect. split; [apply initializeEmptyBoard_cellInvariant|].
  split.
  { intros Hin%inBounds_cellAt; [|done]. simpl in Hin.
    split; by apply modifyCell_returns. }
  split_and!; intros Hall; split_and!;
    try (by apply revealCell_notBoth);
    try (by apply revealCell_revealedUnflagged);
    try (apply whenRet_returns;
         [by apply placeMines_returns | by apply everyCell_placeMines]);
    try (apply whenRet_returns;
         [by apply calculateNeighborMines_returns
         | by apply everyCell_calculateNeighborMines]);
    try (by apply everyCell_revealAllMines);
    (apply everyCell_modifyCell; [|done]);
    intros [? ? ? ? [] [] [] ? ?]; done.
Qed.

Lemma cell_invariant_parts_witness :
  (∀ l : list Position, (λ l, l) l ≡ₚ l) ∧
  rectangular rowWithMine = true ∧
  inBounds rowWithMine (mkPos 0 1) = true ∧
  everyCell notBoth rowWithMine = true ∧
  everyCell revealedUnflagged rowWithMine = true ∧
  everyCell revealedUnquestioned rowWithMine = true ∧
  (∃ out, toggleFlag rowWithMine 0 1 = Ret out) ∧
  (∃ out, revealCell rowWithMine 0 1 = Some (Ret out) ∧ everyCell notBoth out = true) ∧
  (∃ out, revealCell rowWithMine 0 1 = Some (Ret out) ∧
          everyCell revealedUnflagged out = true) ∧
  (∃ out, placeMines (λ l, l) rowWithMine 1 (mkPos 0 0) = Ret out ∧
          everyCell revealedUnquestioned out = true).
Proof.
  destruct (cell_invariant_parts (λ l, l) rowWithMine 0 1 1 (mkPos 0 0) 2 2
              (λ l, Permutation_refl l) eq_refl)
    as (_ & H0 & H1 & H2 & H3).
  split; [intros l; reflexivity|].
  split; [reflexivity|]. split; [reflexivity|]. split; [reflexivity|].
  split; [reflexivity|]. split; [reflexivity|].
  split; [apply (H0 eq_refl)|].
  split; [apply (H1 eq_refl)|]. split; [apply (H2 eq_refl)|]. apply (H3 eq_refl).
Defined.

(** * Further properties of the engine *)

(** ** Neighbours *)

Lemma NoDup_getNeighborPositions r c rows cols :
  NoDup (getNeighborPositions r c rows cols).
Proof.
  unfold getNeighborPositions. apply NoDup_List_filter.
  unfold DIRECTIONS. cbn [map fst snd].
  repeat (apply NoDup_cons; split;
    [intros H;
     repeat (apply elem_of_cons in H as [H|H]; [injection H; lia|]);
     by apply elem_of_nil in H|]).
  apply NoDup_nil_2.
Qed.

Lemma getNeighborPositions_le8 r c rows cols :
  length (getNeighborPositions r c rows cols) ≤ 8.
Proof.
  unfold getNeighborPositions.
  etrans; [apply List.filter_length_le|]. by rewrite length_map.
Qed.

(** X1: [getNeighborPositions] lists each in-bounds position at Chebyshev
    distance one exactly once, never the cell itself and never more than
    eight positions; and on in-bounds cells being a neighbour is symmetric. *)
Theorem getNeighborPositions_sound r c rows cols :
  NoDup (getNeighborPositions r c rows cols) ∧
  (∀ q, q ∈ getNeighborPositions r c rows cols ↔
        isValidPosition (prow q) (pcol q) rows cols = true ∧
        near (mkPos r c) q = true) ∧
  (mkPos r c ∉ getNeighborPositions r c rows cols) ∧
  length (getNeighborPositions r c rows cols) ≤ 8 ∧
  (∀ q, (q ∈ getNeighborPositions r c rows cols ∧
         isValidPosition r c rows cols = true) ↔
        (mkPos r c ∈ getNeighborPositions (prow q) (pcol q) rows cols ∧
         isValidPosition (prow q) (pcol q) rows cols = true)).
Proof.
  split_and!.
  - apply NoDup_getNeighborPositions.
  - apply getNeighborPositions_spec.
  - intros [_ H]%getNeighborPositions_spec. unfold near in H. simpl in H.
    apply Z.eqb_eq in H. lia.
  - unfold getNeighborPositions.
    etrans; [apply List.filter_length_le|]. by rewrite length_map.
  - intros q. rewrite !getNeighborPositions_spec. unfold near. simpl.
    rewrite !Z.eqb_eq. destruct q as [qr qc]. simpl. split; intros [[? ?] ?];
      (split; [split; [done|lia]|done]).
Qed.

Ltac decide_valid :=
  repeat match goal with
  | |- context [isValidPosition ?a ?b ?n ?m] =>
      first
        [ replace (isValidPosition a b n m) with true
            by (symmetry; apply isValidPosition_true; lia)
        | replace (isValidPosition a b n m) with false
            by (symmetry; apply not_true_is_false;
                rewrite isValidPosition_true; lia) ]
  end.

(** X2: an in-bounds cell has as many neighbours as its three-by-three block
    has in-bounds cells, less one: eight inside the grid, five on an edge,
    three in a corner. *)
Theorem getNeighborPositions_length r c rows cols :
  isValidPosition r c rows cols = true →
  Z.of_nat (length (getNeighborPositions r c rows cols))
  = (span r rows * span c cols - 1)%Z.
Proof.
  intros [Hr Hc]%isValidPosition_true.
  unfold getNeighborPositions, DIRECTIONS, span. cbn [map fst snd List.filter prow pcol].
  destruct (Z.ltb_spec 0 r), (Z.ltb_spec (r + 1) rows),
           (Z.ltb_spec 0 c), (Z.ltb_spec (c + 1) cols);
    decide_valid; reflexivity.
Qed.

Lemma getNeighborPositions_length_witness :
  isValidPosition 1 1 3 3 = true ∧ isValidPosition 0 0 3 3 = true ∧
  isValidPosition 0 1 3 3 = true ∧
  Z.of_nat (length (getNeighborPositions 1 1 3 3)) = 8%Z ∧
  Z.of_nat (length (getNeighborPositions 0 0 3 3)) = 3%Z ∧
  Z.of_nat (length (getNeighborPositions 0 1 3 3)) = 5%Z.
Proof.
  split; [reflexivity|]. split; [reflexivity|]. split; [reflexivity|].
  split; [exact (getNeighborPositions_length 1 1 3 3 eq_refl)|].
  split; [exact (getNeighborPositions_length 0 0 3 3 eq_refl)|].
  exact (getNeighborPositions_length 0 1 3 3 eq_refl).
Defined.

(** ** A freshly created board *)

Lemma cellAt_initializeEmptyBoard rows cols r c :
  cellAt (initializeEmptyBoard rows cols) r c
  = if isValidPosition r c (Z.of_nat rows) (Z.of_nat cols)
    then Some (createEmptyCell r c) else None.
Proof.
  destruct (isValidPosition r c _ _) eqn:Hv.
  - apply isValidPosition_true in Hv as [Hr Hc]. apply cellAt_Some.
    split; [lia|]. split; [lia|]. unfold initializeEmptyBoard. eexists. split.
    + rewrite lookup_map, lookup_seq_lt by lia. reflexivity.
    + rewrite lookup_map, lookup_seq_lt by lia. simpl. f_equal.
      f_equal; lia.
  - destruct (cellAt _ r c) as [x|] eqn:Hx; [|done].
    apply cellAt_Some in Hx as (Hr & Hc & rw & Hrw & Hx).
    unfold initializeEmptyBoard in Hrw. rewrite lookup_map in Hrw.
    destruct (seq 0 rows !! Z.to_nat r) as [i|] eqn:Ei; [|done].
    apply lookup_seq in Ei as [-> Hi]. simpl in Hrw. injection Hrw as <-.
    rewrite lookup_map in Hx.
    destruct (seq 0 cols !! Z.to_nat c) as [j|] eqn:Ej; [|done].
    apply lookup_seq in Ej as [-> Hj].
    assert (isValidPosition r c (Z.of_nat rows) (Z.of_nat cols) = true) as Hv'
      by (apply isValidPosition_true; lia).
    congruence.
Qed.

Lemma initializeEmptyBoard_rows rows cols :
  length (initializeEmptyBoard rows cols) = rows ∧
  Forall (λ rw, length rw = cols) (initializeEmptyBoard rows cols).
Proof.
  unfold initializeEmptyBoard. split; [by rewrite length_map, length_seq|].
  apply Forall_forall. intros rw Hin%list_elem_of_In.
  apply in_map_iff in Hin as (r & <- & _). by rewrite length_map, length_seq.
Qed.

(** X3: [initializeEmptyBoard(rows, cols)] has [rows] rows of [cols] cells;
    the cell at an in-bounds position is [createEmptyCell] of that position
    and there is no cell elsewhere; so the board has rows × cols cells, none
    of them a mine, revealed, flagged or questioned. *)
Theorem initializeEmptyBoard_spec rows cols :
  length (initializeEmptyBoard rows cols) = rows ∧
  Forall (λ rw, length rw = cols) (initializeEmptyBoard rows cols) ∧
  (∀ r c, cellAt (initializeEmptyBoard rows cols) r c
          = if isValidPosition r c (Z.of_nat rows) (Z.of_nat cols)
            then Some (createEmptyCell r c) else None) ∧
  length (concat (initializeEmptyBoard rows cols)) = rows * cols ∧
  countCells isMine (initializeEmptyBoard rows cols) = 0 ∧
  getRevealedCount (initializeEmptyBoard rows cols) = 0 ∧
  getFlagCount (initializeEmptyBoard rows cols) = 0 ∧
  countCells isQuestioned (initializeEmptyBoard rows cols) = 0.
Proof.
  assert (∀ P, (∀ r c, P (createEmptyCell r c) = false) →
               countCells P (initializeEmptyBoard rows cols) = 0) as Hnone.
  { intros P HP. apply countCells_none, everyCell_cellAt. intros r c x.
    rewrite cellAt_initializeEmptyBoard. destruct (isValidPosition _ _ _ _); [|done].
    intros [= <-]. by rewrite HP. }
  destruct (initializeEmptyBoard_rows rows cols) as [Hlen Hrows].
  split_and!; [done|done|apply cellAt_initializeEmptyBoard| |by apply Hnone..].
  clear Hnone Hlen Hrows. unfold initializeEmptyBoard.
  induction rows as [|rows IH]; [done|].
  rewrite seq_S, map_app, concat_app, length_app, IH. simpl.
  rewrite length_app, length_map, length_seq. simpl. lia.
Qed.

(** X4: cell identifiers tell grid positions apart: [generateCellId] is
    injective on non-negative integers, so two cells of a freshly created
    board with the same [id] sit at the same position. *)
Theorem cell_ids_distinct rows cols r c r' c' x y :
  cellAt (initializeEmptyBoard rows cols) r c = Some x →
  cellAt (initializeEmptyBoard rows cols) r' c' = Some y →
  id x = id y → r = r' ∧ c = c'.
Proof.
  rewrite !cellAt_initializeEmptyBoard.
  destruct (isValidPosition r c _ _) eqn:H1; [|done].
  destruct (isValidPosition r' c' _ _) eqn:H2; [|done].
  apply isValidPosition_true in H1, H2. intros [= <-] [= <-]. simpl.
  apply generateCellId_inj; lia.
Qed.

Lemma cell_ids_distinct_witness :
  cellAt (initializeEmptyBoard 12 12) 1 11 = Some (createEmptyCell 1 11) ∧
  id (createEmptyCell 1 11) = id (createEmptyCell 1 11) ∧
  (1 = 1 ∧ 11 = 11)%Z.
Proof.
  split; [reflexivity|]. split; [reflexivity|].
  apply (cell_ids_distinct 12 12 1 11 1 11 (createEmptyCell 1 11)
           (createEmptyCell 1 11)); reflexivity.
Defined.

(** ** Neighbour counts *)

Lemma countMines_spec (s : list (list Cell)) ps :
  (∀ q, q ∈ ps → is_Some (cellAt s (prow q) (pcol q))) →
  countMines s ps = Ret (Z.of_nat (length (List.filter (mineAt s) ps))).
Proof.
  induction ps as [|q ps IH]; intros Hall; [done|].
  destruct (Hall q) as [x Hx]; [left|].
  simpl. unfold readCell, mineAt at 1. rewrite Hx. simpl.
  rewrite IH by (intros q' Hq'; apply Hall; by right). simpl.
  destruct (isMine x); simpl; f_equal; lia.
Qed.

Section NeighborCounts.
Variable cells : list (list Cell).
Hypothesis Hrect : rectangular cells = true.

Lemma countLoopInv_mineAt i j s q : countLoopInv cells i j s → mineAt s q = mineAt cells q.
Proof.
  intros H. unfold mineAt. rewrite (H (prow q) (pcol q)).
  destruct (cellAt cells (prow q) (pcol q)) as [x|]; [|done]. simpl.
  destruct (decide _); [|done]. unfold counted. by destruct (isMine x) eqn:E.
Qed.

Lemma countLoopInv_next_row i s :
  countLoopInv cells i (Z.to_nat (numCols cells)) s → countLoopInv cells (S i) 0 s.
Proof.
  intros H r c. rewrite (H r c).
  destruct (cellAt cells r c) as [x|] eqn:Hx; [|done]. simpl.
  assert (is_Some (cellAt cells r c)) as Hv by eauto.
  apply (cellAt_valid _ _ _ Hrect), isValidPosition_true in Hv.
  f_equal. destruct (decide _), (decide _); try done; lia.
Qed.

Lemma calculate_inner (i : nat) :
  (Z.of_nat i < numRows cells)%Z →
  ∀ j, (Z.of_nat j ≤ numCols cells)%Z →
  ∀ s, countLoopInv cells i 0 s →
  ∃ s',
    foldl (λ acc c,
      newCells ← acc;
      x ← readCell newCells (Z.of_nat i) (Z.of_nat c);
      if isMine x then Ret newCells
      else
        mineCount ←
          countMines newCells
            (getNeighborPositions (Z.of_nat i) (Z.of_nat c)
               (numRows cells) (numCols cells));
        modifyCell (setNeighborMines mineCount) newCells (Z.of_nat i) (Z.of_nat c))
      (Ret s) (seq 0 j) = Ret s' ∧
    countLoopInv cells i j s'.
Proof.
  intros Hi. induction j as [|j IH]; intros Hj s Hs; [by exists s|].
  destruct (IH ltac:(lia) s Hs) as (s1 & Hfold & Hinv).
  rewrite seq_S, foldl_app, Hfold. simpl.
  assert (is_Some (cellAt cells (Z.of_nat i) (Z.of_nat j))) as [x Hx].
  { apply (cellAt_valid _ _ _ Hrect), isValidPosition_true. lia. }
  assert (cellAt s1 (Z.of_nat i) (Z.of_nat j) = Some x) as Hx1.
  { rewrite (Hinv _ _), Hx. simpl. rewrite decide_False; [done|lia]. }
  unfold readCell. rewrite Hx1. simpl.
  destruct (isMine x) eqn:Hmine.
  - exists s1. split; [done|]. intros r c. rewrite (Hinv r c).
    destruct (cellAt cells r c) as [y|] eqn:Hy; [|done]. simpl. f_equal.
    destruct (decide _) as [Hd|Hd], (decide _) as [Hd'|Hd']; try done; try lia.
    assert (r = Z.of_nat i ∧ c = Z.of_nat j) as [-> ->] by lia.
    assert (y = x) as -> by congruence. unfold counted. by rewrite Hmine.
  - rewrite countMines_spec.
    2:{ intros q [Hq _]%getNeighborPositions_spec.
        assert (is_Some (cellAt cells (prow q) (pcol q))) as [y Hy]
          by by apply (cellAt_valid _ _ _ Hrect).
        rewrite (Hinv _ _), Hy. simpl. eauto. }
    simpl.
    rewrite (List.filter_ext (mineAt s1) (mineAt cells))
      by (intros q; by eapply countLoopInv_mineAt).
    destruct (modifyCell_returns
                (setNeighborMines (mineCountAt cells (mkPos (Z.of_nat i) (Z.of_nat j))))
                s1 (Z.of_nat i) (Z.of_nat j)) as [s2 Hs2]; [eauto|].
    unfold mineCountAt in Hs2. simpl in Hs2. rewrite Hs2.
    exists s2. split; [done|]. intros r c.
    rewrite (cellAt_modifyCell _ _ _ _ _ _ r c Hx1 Hs2).
    destruct (decide (r = Z.of_nat i ∧ c = Z.of_nat j)) as [[-> ->]|Hne].
    + rewrite Hx. simpl. rewrite decide_True by lia.
      unfold counted, mineCountAt. simpl. by rewrite Hmine.
    + rewrite (Hinv r c). destruct (cellAt cells r c) as [y|]; [|done]. simpl.
      f_equal. destruct (decide _), (decide _); try done; lia.
Qed.

Lemma calculate_outer :
  ∀ i, (Z.of_nat i ≤ numRows cells)%Z →
  ∃ s,
    foldl (λ acc r,
      foldl (λ acc c,
        newCells ← acc;
        x ← readCell newCells (Z.of_nat r) (Z.of_nat c);
        if isMine x then Ret newCells
        else
          mineCount ←
            countMines newCells
              (getNeighborPositions (Z.of_nat r) (Z.of_nat c)
                 (numRows cells) (numCols cells));
          modifyCell (setNeighborMines mineCount) newCells (Z.of_nat r) (Z.of_nat c))
        acc (seq 0 (Z.to_nat (numCols cells))))
      (Ret cells) (seq 0 i) = Ret s ∧
    countLoopInv cells i 0 s.
Proof.
  induction i as [|i IH]; intros Hi.
  { exists cells. split; [done|]. intros r c.
    destruct (cellAt cells r c) as [x|] eqn:Hx; [|done]. simpl.
    assert (is_Some (cellAt cells r c)) as Hv by eauto.
    apply (cellAt_valid _ _ _ Hrect), isValidPosition_true in Hv.
    rewrite decide_False; [done|lia]. }
  destruct (IH ltac:(lia)) as (s & Hfold & Hinv).
  rewrite seq_S, foldl_app, Hfold. simpl.
  pose proof (numCols_nonneg cells).
  destruct (calculate_inner i ltac:(lia) (Z.to_nat (numCols cells)) ltac:(lia) s Hinv)
    as (s' & Hs' & Hinv').
  exists s'. split; [exact Hs'|]. by apply countLoopInv_next_row.
Qed.

Lemma calculateNeighborMines_cellAt :
  ∃ out, calculateNeighborMines cells = Ret out ∧
         ∀ r c, cellAt out r c = counted cells r c <$> cellAt cells r c.
Proof.
  destruct (calculate_outer (length cells)) as (s & Hfold & Hinv);
    [unfold numRows; lia|].
  exists s. split.
  - unfold calculateNeighborMines. destruct cells as [|r0 rest] eqn:E; [done|].
    rewrite <-Hfold. unfold numRows, numCols. by rewrite Nat2Z.id.
  - intros r c. rewrite (Hinv r c).
    destruct (cellAt cells r c) as [x|] eqn:Hx; [|done]. simpl.
    assert (is_Some (cellAt cells r c)) as Hv by eauto.
    apply (cellAt_valid _ _ _ Hrect), isValidPosition_true in Hv.
    unfold numRows in Hv. rewrite decide_True; [done|lia].
Qed.
End NeighborCounts.

Lemma modifyCell_shape f (cells : list (list Cell)) r c :
  whenRet (λ out, map length out = map length cells) (modifyCell f cells r c).
Proof.
  destruct (cellAt cells r c) as [x|] eqn:Hx; [|by rewrite modifyCell_Throw].
  destruct (modifyCell_Ret f _ _ _ _ Hx) as (rw & Hrw & Hxc & ->). simpl.
  apply list_eq. intros i. rewrite !lookup_map.
  destruct (decide (i = Z.to_nat r)) as [->|Hne].
  - rewrite list_lookup_insert_eq by by eapply lookup_lt_Some.
    rewrite Hrw. simpl. by rewrite length_insert.
  - by rewrite list_lookup_insert_ne.
Qed.

Lemma calculateNeighborMines_shape (cells : list (list Cell)) :
  whenRet (λ out, map length out = map length cells) (calculateNeighborMines cells).
Proof.
  unfold calculateNeighborMines. destruct cells as [|r0 rest] eqn:E; [done|].
  rewrite <-E. apply whenRet_foldl; [|done].
  intros acc r Hacc. apply whenRet_foldl; [|done].
  intros acc' c Hacc'. apply whenRet_bind. intros s ->. simpl in Hacc'.
  apply whenRet_bind. intros x _. destruct (isMine x); [done|].
  apply whenRet_bind. intros n _.
  pose proof (modifyCell_shape (setNeighborMines n) s (Z.of_nat r) (Z.of_nat c)) as H.
  destruct (modifyCell _ s _ _); simpl in *; [congruence|done..].
Qed.

Lemma forallb_lengths (a : list (list Cell)) n :
  forallb (λ rw, length rw =? n) a = forallb (λ m, m =? n) (map length a).
Proof. induction a as [|rw a IH]; simpl; [done|]. by rewrite IH. Qed.

Lemma shape_dims (a b : list (list Cell)) :
  map length a = map length b →
  numRows a = numRows b ∧ numCols a = numCols b ∧ rectangular a = rectangular b.
Proof.
  intros H. split_and!.
  - unfold numRows. by rewrite <-(length_map length a), H, length_map.
  - destruct a, b; simpl in *; try done. injection H as -> _. done.
  - destruct a as [|ra a], b as [|rb b]; simpl in H; try done.
    injection H as Hr H. unfold rectangular.
    rewrite !forallb_lengths. simpl. by rewrite Hr, H.
Qed.

Lemma cells_ext (a b : list (list Cell)) :
  map length a = map length b →
  (∀ r c, cellAt a r c = cellAt b r c) → a = b.
Proof.
  intros Hshape Hcell. apply list_eq. intros i.
  pose proof (f_equal (.!! i) Hshape) as Hi. simpl in Hi. rewrite !lookup_map in Hi.
  destruct (a !! i) as [ra|] eqn:Ha, (b !! i) as [rb|] eqn:Hb; simpl in Hi; try done.
  f_equal. apply list_eq. intros j.
  specialize (Hcell (Z.of_nat i) (Z.of_nat j)).
  by rewrite !cellAt_of_nat, Ha, Hb in Hcell.
Qed.

Lemma mineCountAt_ext (a b : list (list Cell)) p :
  map length a = map length b → (∀ q, mineAt a q = mineAt b q) →
  mineCountAt a p = mineCountAt b p.
Proof.
  intros (H1 & H2 & _)%shape_dims Hm. unfold mineCountAt.
  by rewrite H1, H2, (List.filter_ext _ _ Hm).
Qed.

Lemma calculateNeighborMines_result (cells : list (list Cell)) :
  rectangular cells = true →
  ∃ out, calculateNeighborMines cells = Ret out ∧
         map length out = map length cells ∧
         (∀ r c, cellAt out r c = counted cells r c <$> cellAt cells r c) ∧
         countsCorrect out ∧
         (∀ r c x, cellAt out r c = Some x → isMine x = false →
                   0 ≤ neighborMines x ≤ 8)%Z.
Proof.
  intros Hrect.
  destruct (calculateNeighborMines_cellAt cells Hrect) as (out & Hout & Hcell).
  pose proof (calculateNeighborMines_shape cells) as Hshape.
  rewrite Hout in Hshape. simpl in Hshape.
  assert (∀ q, mineAt out q = mineAt cells q) as Hmine.
  { intros q. unfold mineAt. rewrite Hcell.
    destruct (cellAt cells _ _) as [x|]; [|done]. simpl. unfold counted.
    by destruct (isMine x) eqn:E. }
  assert (∀ r c x, cellAt out r c = Some x → isMine x = false →
                   neighborMines x = mineCountAt cells (mkPos r c)) as Hcount.
  { intros r c y Hy Hym. rewrite Hcell in Hy.
    destruct (cellAt cells r c) as [x|]; [|done]. simpl in Hy. injection Hy as <-.
    unfold counted in *. destruct (isMine x) eqn:E; simpl in *; [congruence|done]. }
  exists out. split_and!; [done..| |].
  - intros p x Hx Hxm. rewrite (mineCountAt_ext out cells) by done.
    destruct p as [r c]. by apply Hcount.
  - intros r c x Hx Hxm. rewrite (Hcount _ _ _ Hx Hxm). unfold mineCountAt.
    pose proof (List.filter_length_le (mineAt cells)
      (getNeighborPositions r c (numRows cells) (numCols cells))) as H1.
    pose proof (getNeighborPositions_le8 r c (numRows cells) (numCols cells)) as H2.
    simpl. lia.
Qed.

(** X5: on a rectangular board [calculateNeighborMines] returns a board of
    the same shape in which every cell that is not a mine carries the number
    of mines among its in-bounds neighbours, a number between 0 and 8, and
    in which mines and every other field of every cell are as before. *)
Theorem calculateNeighborMines_spec (cells : list (list Cell)) :
  rectangular cells = true →
  ∃ out, calculateNeighborMines cells = Ret out ∧
         map length out = map length cells ∧
         (∀ r c, cellAt out r c = counted cells r c <$> cellAt cells r c) ∧
         countsCorrect out ∧
         (∀ r c x, cellAt out r c = Some x → isMine x = false →
                   0 ≤ neighborMines x ≤ 8)%Z.
Proof. apply calculateNeighborMines_result. Qed.

Lemma calculateNeighborMines_spec_witness :
  rectangular rowWithMine = true ∧
  ∃ out, calculateNeighborMines rowWithMine = Ret out ∧
         map length out = map length rowWithMine ∧
         (∀ r c, cellAt out r c = counted rowWithMine r c <$> cellAt rowWithMine r c) ∧
         countsCorrect out ∧
         (∀ r c x, cellAt out r c = Some x → isMine x = false →
                   0 ≤ neighborMines x ≤ 8)%Z.
Proof.
  split; [reflexivity|]. apply (calculateNeighborMines_spec rowWithMine). reflexivity.
Defined.

Lemma countsCorrect_fixpoint (cells : list (list Cell)) :
  rectangular cells = true → countsCorrect cells →
  calculateNeighborMines cells = Ret cells.
Proof.
  intros Hrect Hcorrect.
  destruct (calculateNeighborMines_result cells Hrect) as (out & Hout & Hshape & Hcell & _).
  rewrite Hout. f_equal. apply cells_ext; [done|]. intros r c. rewrite Hcell.
  destruct (cellAt cells r c) as [x|] eqn:Hx; [|done]. simpl. f_equal.
  unfold counted. destruct (isMine x) eqn:Hm; [done|].
  rewrite <-(Hcorrect (mkPos r c) x Hx Hm). by destruct x.
Qed.

Lemma fixpoint_countsCorrect (cells : list (list Cell)) :
  rectangular cells = true →
  calculateNeighborMines cells = Ret cells → countsCorrect cells.
Proof.
  intros Hrect Hfix.
  destruct (calculateNeighborMines_result cells Hrect) as (out & Hout & _ & _ & Hc & _).
  assert (out = cells) as -> by congruence. done.
Qed.

(** X6: [calculateNeighborMines] is idempotent on rectangular boards: run on
    its own result it returns that result, and a board returns itself
    exactly when its counts are correct. *)
Theorem calculateNeighborMines_idempotent (cells : list (list Cell)) :
  rectangular cells = true →
  (∃ out, calculateNeighborMines cells = Ret out ∧
          calculateNeighborMines out = Ret out) ∧
  (calculateNeighborMines cells = Ret cells ↔ countsCorrect cells).
Proof.
  intros Hrect. split.
  - destruct (calculateNeighborMines_result cells Hrect)
      as (out & Hout & Hshape & _ & Hcorrect & _).
    exists out. split; [done|]. apply countsCorrect_fixpoint; [|done].
    apply shape_dims in Hshape as (_ & _ & ->). done.
  - split; [|by apply countsCorrect_fixpoint].
    intros Hfix.
    destruct (calculateNeighborMines_result cells Hrect) as (out & Hout & _ & _ & Hc & _).
    assert (out = cells) as -> by congruence. done.
Qed.

Lemma calculateNeighborMines_idempotent_witness :
  rectangular rowWithMine = true ∧
  (∃ out, calculateNeighborMines rowWithMine = Ret out ∧
          calculateNeighborMines out = Ret out) ∧
  (calculateNeighborMines rowWithMine = Ret rowWithMine ↔ countsCorrect rowWithMine).
Proof.
  split; [reflexivity|].
  apply (calculateNeighborMines_idempotent rowWithMine). reflexivity.
Defined.

(** ** More on [revealCell] *)

Lemma floods_last_step (cells : list (list Cell)) p q :
  floods cells p q → ∃ m, zeroSafeAt cells m = true ∧ adjacent cells m q.
Proof. induction 1; eauto. Qed.

Lemma grows_mineAt (cells out : list (list Cell)) q :
  grows cells out → mineAt out q = mineAt cells q.
Proof.
  intros H. unfold mineAt.
  destruct (grows_cellAt _ _ (prow q) (pcol q) H) as [x y Hxy|]; [|done].
  apply Hxy.
Qed.

Lemma zeroSafe_no_mine_around (cells : list (list Cell)) m q :
  countsCorrect cells → zeroSafeAt cells m = true → adjacent cells m q →
  mineAt cells q = false.
Proof.
  intros Hcorrect Hz Hadj. unfold zeroSafeAt in Hz.
  destruct (cellAt cells (prow m) (pcol m)) as [y|] eqn:Hy; [|done].
  apply andb_true_iff in Hz as [Hzero%Z.eqb_eq Hsafe%negb_true_iff].
  pose proof (Hcorrect m y Hy Hsafe) as Hcount. rewrite Hzero in Hcount.
  unfold mineCountAt in Hcount.
  destruct (mineAt cells q) eqn:Hq; [|done].
  assert (q ∈ List.filter (mineAt cells)
            (getNeighborPositions (prow m) (pcol m) (numRows cells) (numCols cells)))
    as Hin.
  { apply elem_List_filter. split; [by apply neighbours_adjacent|done]. }
  destruct (List.filter _ _); [by apply elem_of_nil in Hin|]. simpl in Hcount. lia.
Qed.

Lemma revealCell_mines_kept (cells : list (list Cell)) r c x :
  rectangular cells = true → countsCorrect cells →
  cellAt cells r c = Some x → isMine x = false →
  ∃ out, revealCell cells r c = Some (Ret out) ∧
         ∀ q, mineAt cells q = true →
              mineAt out q = true ∧ revealedAt out q = revealedAt cells q.
Proof.
  intros Hrect Hcorrect Hx Hxm.
  destruct (revealable cells (mkPos r c)) eqn:Hrev.
  2:{ exists cells. split; [|done]. by apply (revealCell_idle cells (mkPos r c)). }
  destruct (revealCell_effective cells (mkPos r c) Hrect Hrev) as (out & Hout & Hpost).
  exists out. split; [done|]. intros q Hq.
  pose proof (post_grows _ _ _ Hpost) as Hg.
  split; [by rewrite (grows_mineAt _ _ _ Hg)|].
  destruct (revealedAt cells q) eqn:Hqc; [by eapply grows_revealedAt|].
  destruct (revealedAt out q) eqn:Hqo; [|done]. exfalso.
  destruct (post_sound _ _ _ Hpost q Hqc Hqo) as [-> | Hfl].
  - unfold mineAt in Hq. simpl in Hq. rewrite Hx in Hq. congruence.
  - apply floods_last_step in Hfl as (m & Hz & Hadj).
    pose proof (zeroSafe_no_mine_around _ _ _ Hcorrect Hz Hadj). congruence.
Qed.

(** X7: on a rectangular board with correct counts, revealing a cell that is
    not a mine never reveals a mine: every mine is as revealed after the
    call as it was before, however far the flood goes. *)
Theorem revealCell_spares_mines (cells : list (list Cell)) r c x :
  rectangular cells = true → countsCorrect cells →
  cellAt cells r c = Some x → isMine x = false →
  ∃ out, revealCell cells r c = Some (Ret out) ∧
         ∀ q, mineAt cells q = true →
              mineAt out q = true ∧ revealedAt out q = revealedAt cells q.
Proof. apply revealCell_mines_kept. Qed.

Lemma revealCell_spares_mines_witness :
  rectangular rowWithMine = true ∧ countsCorrect rowWithMine ∧
  cellAt rowWithMine 0 0 = Some (mkCell "cell-0-0" 0 0 false false false false 0 None) ∧
  ∃ out, revealCell rowWithMine 0 0 = Some (Ret out) ∧
         ∀ q, mineAt rowWithMine q = true →
              mineAt out q = true ∧ revealedAt out q = revealedAt rowWithMine q.
Proof.
  assert (countsCorrect rowWithMine) as Hc.
  { apply fixpoint_countsCorrect; reflexivity. }
  split; [reflexivity|]. split; [exact Hc|]. split; [reflexivity|].
  apply (revealCell_spares_mines rowWithMine 0 0
           (mkCell "cell-0-0" 0 0 false false false false 0 None));
    [reflexivity | exact Hc | reflexivity | reflexivity].
Defined.

(** X8: revealing an unrevealed, unflagged cell that is a mine, or that has
    mines around it, changes that one cell and nothing else: the board
    returned is the input with [isRevealed] set on the cell.  In particular
    revealing a mine triggers no board-wide effect. *)
Theorem revealCell_single (cells : list (list Cell)) r c x :
  cells ≠ [] →
  isValidPosition r c (numRows cells) (numCols cells) = true →
  cellAt cells r c = Some x →
  isRevealed x = false → isFlagged x = false →
  (isMine x = true ∨ neighborMines x ≠ 0%Z) →
  ∃ out, revealCell cells r c = Some (Ret out) ∧
         map length out = map length cells ∧
         ∀ r' c', cellAt out r' c'
                  = if decide (r' = r ∧ c' = c) then Some (setRevealed x)
                    else cellAt cells r' c'.
Proof.
  intros Hne Hv Hx Hr Hf Hstop.
  destruct (modifyCell_Ret setRevealed _ _ _ _ Hx) as (rw & _ & _ & Hm).
  eexists. split; [|split].
  - unfold revealCell. rewrite revealCell_fuel_S by done.
    rewrite Hv, Hx, Hr, Hf, Hm. cbn [negb orb].
    replace ((neighborMines x =? 0)%Z && negb (isMine x)) with false; [done|].
    symmetry. apply andb_false_iff. destruct Hstop as [->|Hn]; [by right|left].
    by apply Z.eqb_neq.
  - pose proof (modifyCell_shape setRevealed cells r c) as H. by rewrite Hm in H.
  - intros r' c'. by apply cellAt_modifyCell.
Qed.

Lemma revealCell_single_witness :
  rowWithMine ≠ [] ∧
  isValidPosition 0 2 (numRows rowWithMine) (numCols rowWithMine) = true ∧
  cellAt rowWithMine 0 2 = Some (mkCell "cell-0-2" 0 2 true false false false 0 None) ∧
  ∃ out, revealCell rowWithMine 0 2 = Some (Ret out) ∧
         map length out = map length rowWithMine ∧
         ∀ r' c', cellAt out r' c'
                  = if decide (r' = 0 ∧ c' = 2)%Z
                    then Some (setRevealed
                           (mkCell "cell-0-2" 0 2 true false false false 0 None))
                    else cellAt rowWithMine r' c'.
Proof.
  split; [discriminate|]. split; [reflexivity|]. split; [reflexivity|].
  apply (revealCell_single rowWithMine 0 2
           (mkCell "cell-0-2" 0 2 true false false false 0 None));
    [discriminate | reflexivity | reflexivity | reflexivity | reflexivity
    | left; reflexivity].
Defined.

(** X9: [revealCell] is idempotent on rectangular boards: revealing the same
    position again on the board returned gives that board back. *)
Theorem revealCell_idempotent (cells : list (list Cell)) r c :
  rectangular cells = true →
  ∃ out, revealCell cells r c = Some (Ret out) ∧
         revealCell out r c = Some (Ret out).
Proof.
  intros Hrect. destruct (revealable cells (mkPos r c)) eqn:Hrev.
  - destruct (revealCell_effective cells (mkPos r c) Hrect Hrev) as (out & Hout & Hpost).
    exists out. split; [done|].
    apply (revealCell_idle out (mkPos r c)).
    + eapply grows_rectangular; [apply Hpost|done].
    + unfold revealable. rewrite (post_start _ _ _ Hpost). simpl.
      apply andb_false_r.
  - exists cells. split; by apply (revealCell_idle cells (mkPos r c)).
Qed.

Lemma revealCell_idempotent_witness :
  rectangular rowWithMine = true ∧
  ∃ out, revealCell rowWithMine 0 0 = Some (Ret out) ∧
         revealCell out 0 0 = Some (Ret out).
Proof.
  split; [reflexivity|]. apply (revealCell_idempotent rowWithMine 0 0). reflexivity.
Defined.

(** ** More on [placeMines] *)

Lemma cellMined_refl x : cellMined x x.
Proof. unfold cellMined. tauto. Qed.

Lemma cellMined_trans x y z : cellMined x y → cellMined y z → cellMined x z.
Proof. unfold cellMined. intuition congruence. Qed.

Lemma mined_trans (a b c : list (list Cell)) :
  Forall2 (Forall2 cellMined) a b → Forall2 (Forall2 cellMined) b c →
  Forall2 (Forall2 cellMined) a c.
Proof.
  intros H1 H2. eapply Forall2_trans; [| exact H1 | exact H2].
  intros r1 r2 r3 G1 G2. eapply Forall2_trans; [| exact G1 | exact G2].
  apply cellMined_trans.
Qed.

Lemma mined_refl (a : list (list Cell)) : Forall2 (Forall2 cellMined) a a.
Proof.
  apply Forall_Forall2_diag, Forall_forall. intros rw _.
  apply Forall_Forall2_diag, Forall_forall. intros x _. apply cellMined_refl.
Qed.

Lemma modifyCell_setMine_mined (s : list (list Cell)) r c :
  whenRet (Forall2 (Forall2 cellMined) s) (modifyCell setMine s r c).
Proof.
  destruct (cellAt s r c) as [x|] eqn:Hx; [|by rewrite modifyCell_Throw].
  destruct (modifyCell_Ret setMine _ _ _ _ Hx) as (rw & _ & _ & Hm).
  rewrite Hm. simpl.
  eapply (modifyCell_Forall2 cellMined setMine s r c x);
    [apply cellMined_refl| |done|exact Hm].
  unfold cellMined. simpl. tauto.
Qed.

Lemma placeMines_mined shuffle (cells : list (list Cell)) m p :
  whenRet (Forall2 (Forall2 cellMined) cells) (placeMines shuffle cells m p).
Proof.
  unfold placeMines. destruct cells as [|r0 rest] eqn:E; [done|]. rewrite <-E.
  apply whenRet_foldl; [|apply mined_refl].
  intros acc pos Hacc. apply whenRet_bind. intros s ->. simpl in Hacc.
  pose proof (modifyCell_setMine_mined s (prow pos) (pcol pos)) as H.
  destruct (modifyCell _ s _ _); simpl in *; [by eapply mined_trans|done..].
Qed.

Lemma placeMines_loop_untouched (ps : list Position) :
  ∀ s : list (list Cell),
    whenRet (λ out, ∀ q, q ∉ ps →
                         cellAt out (prow q) (pcol q) = cellAt s (prow q) (pcol q))
      (foldl (λ acc pos, newCells ← acc;
                         modifyCell setMine newCells (prow pos) (pcol pos))
             (Ret s) ps).
Proof.
  induction ps as [|pos ps IH]; intros s; [done|]. cbn [foldl]. simpl.
  destruct (cellAt s (prow pos) (pcol pos)) as [x|] eqn:Hx.
  2:{ rewrite modifyCell_Throw by done.
      pose proof (whenRet_foldl (λ _ : list (list Cell), False)
        (λ acc pos, newCells ← acc;
                    modifyCell setMine newCells (prow pos) (pcol pos)) ps) as H.
      specialize (H ltac:(intros [] ?; simpl; tauto) Throw I).
      destruct (foldl _ Throw ps); simpl in *; tauto. }
  destruct (modifyCell_Ret setMine _ _ _ _ Hx) as (rw & _ & _ & Hm).
  set (s' := <[_ := _]> s) in Hm.
  specialize (IH s'). rewrite Hm. simpl.
  destruct (foldl _ (Ret s') ps) as [out| |]; simpl in *; [|done..].
  intros q [Hq1 Hq2]%not_elem_of_cons. rewrite IH by done.
  rewrite (cellAt_modifyCell _ _ _ _ _ _ _ _ Hx Hm).
  rewrite decide_False; [done|]. intros [? ?]. apply Hq1.
  destruct q, pos; simpl in *; congruence.
Qed.

(** The mine positions chosen lie outside the first click and its
    neighbourhood, and are distinct cells of the grid. *)
Lemma minePositions_spec shuffle (cells : list (list Cell)) m p :
  (∀ l, shuffle l ≡ₚ l) → inBounds cells p = true →
  let av := availablePositions
              (excludedPositions p (numRows cells) (numCols cells))
              (length cells) (Z.to_nat (numCols cells)) in
  let mp := slice0 (shuffle av) (Z.min m (Z.of_nat (length (shuffle av)))) in
  NoDup mp ∧
  (∀ q, q ∈ mp → inBounds cells q = true ∧ around p q = false) ∧
  length av = eligibleCount cells p ∧
  ((0 ≤ m)%Z → Z.of_nat (length mp) = Z.min m (Z.of_nat (eligibleCount cells p))).
Proof.
  intros Hperm Hp av mp. pose proof (numCols_nonneg cells) as Hnn.
  assert (av = List.filter (λ q, negb (around p q))
                 (gridPositions (length cells) (Z.to_nat (numCols cells)))) as Hav.
  { apply availablePositions_filter. intros r c Hr Hc. rewrite negb_false_iff.
    apply excluded_around; [exact Hp|unfold numRows; lia|lia]. }
  assert (∀ q, q ∈ mp → q ∈ av) as Hsub.
  { intros q Hq%elem_slice0. by rewrite (Hperm av) in Hq. }
  split_and!.
  - unfold mp, slice0. destruct (_ <? _)%Z;
      (eapply sublist_NoDup; [|apply sublist_take]); rewrite (Hperm av), Hav;
      apply NoDup_List_filter, NoDup_gridPositions.
  - intros q Hq%Hsub. rewrite Hav in Hq. apply elem_List_filter in Hq as [Hg Ha].
    apply elem_gridPositions in Hg. rewrite Z2Nat.id in Hg by done.
    split; [exact Hg|]. by apply negb_true_iff.
  - by rewrite Hav.
  - intros Hm. unfold mp. rewrite slice0_take by done.
    rewrite length_take, (Permutation_length (Hperm av)), Hav. unfold eligibleCount. lia.
Qed.

Lemma placeMines_unfold shuffle (cells : list (list Cell)) m p :
  cells ≠ [] →
  placeMines shuffle cells m p =
  let av := availablePositions
              (excludedPositions p (numRows cells) (numCols cells))
              (length cells) (Z.to_nat (numCols cells)) in
  foldl (λ acc pos, newCells ← acc;
                    modifyCell setMine newCells (prow pos) (pcol pos))
        (Ret cells)
        (slice0 (shuffle av) (Z.min m (Z.of_nat (length (shuffle av))))).
Proof.
  destruct cells as [|r0 rest]; [done|]. intros _. unfold placeMines, numRows, numCols.
  by rewrite Nat2Z.id.
Qed.

Lemma length_filter_split {A} (f : A → bool) (l : list A) :
  length (List.filter f l) + length (List.filter (λ x, negb (f x)) l) = length l.
Proof. induction l as [|a l IH]; [done|]. simpl. destruct (f a); simpl; lia. Qed.

Lemma length_bind_const {A B} (g : A → list B) (l : list A) k :
  (∀ x, length (g x) = k) → length (l ≫= g) = length l * k.
Proof.
  intros Hg. induction l as [|a l IH]; [done|].
  rewrite bind_cons, length_app, IH, Hg. simpl. lia.
Qed.

Lemma length_gridPositions rows cols : length (gridPositions rows cols) = rows * cols.
Proof.
  unfold gridPositions. rewrite (length_bind_const _ _ cols), length_seq; [done|].
  intros r. rewrite (length_bind_const _ _ 1), length_seq; [lia|done].
Qed.

Lemma around_at_most_9 p (l : list Position) :
  NoDup l → length (List.filter (around p) l) ≤ 9.
Proof.
  intros Hnd.
  set (block := d ← [(-1)%Z; 0%Z; 1%Z]; e ← [(-1)%Z; 0%Z; 1%Z];
                [mkPos (prow p + d) (pcol p + e)]).
  change 9 with (length block).
  apply submseteq_length, NoDup_submseteq; [by apply NoDup_List_filter|].
  intros q [_ Hq]%elem_List_filter. unfold around in Hq.
  apply andb_true_iff in Hq as [H1%Z.leb_le H2%Z.leb_le].
  destruct q as [qr qc]. simpl in *.
  assert (qr = prow p + -1 ∨ qr = prow p + 0 ∨ qr = prow p + 1)%Z as Hr by lia.
  assert (qc = pcol p + -1 ∨ qc = pcol p + 0 ∨ qc = pcol p + 1)%Z as Hc by lia.
  unfold block. simpl. rewrite !elem_of_cons.
  destruct Hr as [-> | [-> | ->]]; destruct Hc as [-> | [-> | ->]]; tauto.
Qed.

Lemma eligibleCount_ge (cells : list (list Cell)) p :
  (numRows cells * numCols cells - 9 ≤ Z.of_nat (eligibleCount cells p))%Z.
Proof.
  unfold eligibleCount.
  pose proof (length_filter_split (around p)
    (gridPositions (length cells) (Z.to_nat (numCols cells)))) as Hsplit.
  pose proof (around_at_most_9 p _
    (NoDup_gridPositions (length cells) (Z.to_nat (numCols cells)))) as H9.
  rewrite length_gridPositions in Hsplit. pose proof (numCols_nonneg cells).
  unfold numRows. nia.
Qed.

(** What [placeMines] returns on a rectangular board for an in-bounds first
    click. *)
Lemma placeMines_result shuffle (cells : list (list Cell)) m p :
  (∀ l, shuffle l ≡ₚ l) → rectangular cells = true → inBounds cells p = true →
  ∃ out, placeMines shuffle cells m p = Ret out ∧
         Forall2 (Forall2 cellMined) cells out ∧
         (∀ q, around p q = true →
               cellAt out (prow q) (pcol q) = cellAt cells (prow q) (pcol q)) ∧
         (everyCell (λ x, negb (isMine x)) cells = true → (0 ≤ m)%Z →
          Z.of_nat (countCells isMine out)
          = Z.min m (Z.of_nat (eligibleCount cells p))).
Proof.
  intros Hperm Hrect Hp.
  destruct (placeMines_returns shuffle cells m p Hperm Hrect) as [out Hout].
  pose proof (placeMines_mined shuffle cells m p) as Hmined.
  rewrite Hout in Hmined. simpl in Hmined.
  destruct (minePositions_spec shuffle cells m p Hperm Hp) as (Hnd & Hmp & _ & Hlen).
  pose proof Hout as Hout0.
  rewrite placeMines_unfold in Hout by by apply rectangular_nonempty.
  cbv zeta in Hout, Hnd, Hmp, Hlen.
  set (mp := slice0 _ _) in *.
  exists out. split_and!; [done|done| |].
  - intros q Hq. pose proof (placeMines_loop_untouched mp cells) as Hfr.
    rewrite Hout in Hfr. simpl in Hfr. apply Hfr.
    intros [_ Hq']%Hmp. congruence.
  - intros Hnomine Hm.
    destruct (placeMines_loop mp cells Hnd) as (out' & Hout' & Hcount & _).
    { intros q [Hq _]%Hmp.
      apply (inBounds_cellAt _ _ Hrect) in Hq as [x Hx]. exists x. split; [done|].
      apply negb_true_iff.
      by apply (proj1 (everyCell_cellAt _ _) Hnomine (prow q) (pcol q) x). }
    assert (out' = out) as -> by congruence.
    rewrite Hcount, (countCells_none isMine cells Hnomine). rewrite <-Hlen by done. lia.
Qed.

(** X10: on a rectangular board and for an in-bounds first click,
    [placeMines] (with a random source that permutes) returns a board that
    differs from its input in [isMine] only, and only from false to true,
    so a second call never clears a mine; and the clicked cell and its
    neighbours are exactly as they were. *)
Theorem placeMines_frame shuffle (cells : list (list Cell)) m p :
  (∀ l, shuffle l ≡ₚ l) → rectangular cells = true → inBounds cells p = true →
  ∃ out, placeMines shuffle cells m p = Ret out ∧
         Forall2 (Forall2 cellMined) cells out ∧
         (∀ q, around p q = true →
               cellAt out (prow q) (pcol q) = cellAt cells (prow q) (pcol q)).
Proof.
  intros Hperm Hrect Hp.
  destruct (placeMines_result shuffle cells m p Hperm Hrect Hp) as (out & H1 & H2 & H3 & _).
  eauto.
Qed.

Lemma placeMines_frame_witness :
  (∀ l : list Position, (λ l, l) l ≡ₚ l) ∧
  rectangular rowWithMine = true ∧ inBounds rowWithMine (mkPos 0 0) = true ∧
  ∃ out, placeMines (λ l, l) rowWithMine 5 (mkPos 0 0) = Ret out ∧
         Forall2 (Forall2 cellMined) rowWithMine out ∧
         (∀ q, around (mkPos 0 0) q = true →
               cellAt out (prow q) (pcol q) = cellAt rowWithMine (prow q) (pcol q)).
Proof.
  split; [intros l; reflexivity|]. split; [reflexivity|]. split; [reflexivity|].
  apply (placeMines_frame (λ l, l) rowWithMine 5 (mkPos 0 0));
    [intros l; reflexivity | reflexivity | reflexivity].
Defined.

Lemma placeMines_all_placed shuffle (cells : list (list Cell)) m p :
  (∀ l, shuffle l ≡ₚ l) → rectangular cells = true →
  everyCell (λ x, negb (isMine x)) cells = true →
  inBounds cells p = true →
  (0 ≤ m ≤ numRows cells * numCols cells - 9)%Z →
  ∃ out, placeMines shuffle cells m p = Ret out ∧
         Z.of_nat (countCells isMine out) = m.
Proof.
  intros Hperm Hrect Hnomine Hp Hm.
  destruct (placeMines_result shuffle cells m p Hperm Hrect Hp) as (out & H1 & _ & _ & H4).
  exists out. split; [done|]. rewrite H4 by (done || lia).
  pose proof (eligibleCount_ge cells p). lia.
Qed.

(** X11: when [totalMines] is at most rows × cols − 9 (the board invariant
    of the data model), [placeMines] on a rectangular board without mines
    places exactly [totalMines] mines, for every in-bounds first click: the
    clamp is never reached. *)
Theorem placeMines_exact shuffle (cells : list (list Cell)) m p :
  (∀ l, shuffle l ≡ₚ l) → rectangular cells = true →
  everyCell (λ x, negb (isMine x)) cells = true →
  inBounds cells p = true →
  (0 ≤ m ≤ numRows cells * numCols cells - 9)%Z →
  ∃ out, placeMines shuffle cells m p = Ret out ∧
         Z.of_nat (countCells isMine out) = m.
Proof. apply placeMines_all_placed. Qed.

Lemma placeMines_exact_witness :
  (∀ l : list Position, (λ l, l) l ≡ₚ l) ∧
  rectangular (initializeEmptyBoard 4 4) = true ∧
  everyCell (λ x, negb (isMine x)) (initializeEmptyBoard 4 4) = true ∧
  inBounds (initializeEmptyBoard 4 4) (mkPos 1 1) = true ∧
  (0 ≤ 7 ≤ numRows (initializeEmptyBoard 4 4) * numCols (initializeEmptyBoard 4 4) - 9)%Z ∧
  ∃ out, placeMines (λ l, l) (initializeEmptyBoard 4 4) 7 (mkPos 1 1) = Ret out ∧
         Z.of_nat (countCells isMine out) = 7%Z.
Proof.
  split; [intros l; reflexivity|]. split; [reflexivity|]. split; [reflexivity|].
  split; [reflexivity|]. split; [vm_compute; split; discriminate|].
  apply (placeMines_exact (λ l, l) (initializeEmptyBoard 4 4) 7 (mkPos 1 1));
    [intros l; reflexivity | reflexivity | reflexivity | reflexivity
    | vm_compute; split; discriminate].
Defined.

(** ** Boards related cell by cell *)

Lemma Forall2_shape (R : Cell → Cell → Prop) (a b : list (list Cell)) :
  Forall2 (Forall2 R) a b → map length a = map length b.
Proof.
  induction 1 as [|ra rb a b Hr _ IH]; [done|]. simpl.
  by rewrite IH, (Forall2_length _ _ _ Hr).
Qed.

Lemma Forall2_cellAt (R : Cell → Cell → Prop) (a b : list (list Cell)) r c :
  Forall2 (Forall2 R) a b → option_Forall2 R (cellAt a r c) (cellAt b r c).
Proof.
  intros H. unfold cellAt, at_.
  destruct (decide (0 ≤ r)%Z); [|constructor].
  pose proof (proj1 (Forall2_lookup _ _ _) H (Z.to_nat r)) as Hrow.
  destruct Hrow as [rw rw' Hrow|]; [|constructor].
  destruct (decide (0 ≤ c)%Z); [|constructor].
  apply (proj1 (Forall2_lookup _ _ _) Hrow).
Qed.

Lemma Forall2_of_cellAt (R : Cell → Cell → Prop) (a b : list (list Cell)) :
  map length a = map length b →
  (∀ r c x y, cellAt a r c = Some x → cellAt b r c = Some y → R x y) →
  Forall2 (Forall2 R) a b.
Proof.
  intros Hshape HR. apply Forall2_same_length_lookup. split.
  { by rewrite <-(length_map length a), Hshape, length_map. }
  intros i ra rb Ha Hb.
  pose proof (f_equal (.!! i) Hshape) as Hi. simpl in Hi.
  rewrite !lookup_map, Ha, Hb in Hi. simpl in Hi. injection Hi as Hi.
  apply Forall2_same_length_lookup. split; [done|].
  intros j x y Hx Hy. apply (HR (Z.of_nat i) (Z.of_nat j)).
  - by rewrite cellAt_of_nat, Ha.
  - by rewrite cellAt_of_nat, Hb.
Qed.

Lemma countCells_same P (a b : list (list Cell)) :
  Forall2 (Forall2 (λ x y, P x = P y)) a b → countCells P a = countCells P b.
Proof.
  unfold countCells. induction 1 as [|rw rw' a b Hrow _ IH]; [done|]. simpl.
  rewrite !List.filter_app, !length_app, IH. f_equal.
  clear IH. induction Hrow as [|x y rw rw' Hxy _ IH]; [done|]. simpl.
  rewrite Hxy. destruct (P y); simpl; by rewrite IH.
Qed.

Lemma Forall2_impl2 (R S : Cell → Cell → Prop) (a b : list (list Cell)) :
  (∀ x y, R x y → S x y) → Forall2 (Forall2 R) a b → Forall2 (Forall2 S) a b.
Proof.
  intros HRS H. eapply Forall2_impl; [exact H|].
  intros ra rb Hr. eapply Forall2_impl; [exact Hr|]. done.
Qed.

Lemma calculateNeighborMines_related (cells out : list (list Cell)) :
  rectangular cells = true → calculateNeighborMines cells = Ret out →
  Forall2 (Forall2 (λ x y, ∃ n, y = x ∨ y = setNeighborMines n x)) cells out.
Proof.
  intros Hrect Hout.
  destruct (calculateNeighborMines_result cells Hrect) as (out' & Hout' & Hshape & Hcell & _).
  assert (out' = out) as -> by congruence.
  apply Forall2_of_cellAt; [done|]. intros r c x y Hx Hy.
  rewrite Hcell, Hx in Hy. simpl in Hy. injection Hy as <-.
  unfold counted. destruct (isMine x); [exists 0%Z; by left|eexists; by right].
Qed.

(** ** The first click *)

Lemma filter_none {A} (f : A → bool) (l : list A) :
  (∀ x, x ∈ l → f x = false) → List.filter f l = [].
Proof.
  induction l as [|a l IH]; intros H; [done|]. simpl.
  rewrite (H a) by left. apply IH. intros x Hx. apply H. by right.
Qed.

Lemma near_around p q : near p q = true → around p q = true.
Proof. intros H. apply around_spec. by right. Qed.

(** X12: the first click is safe.  On a rectangular board without mines,
    for a first click on an unrevealed, unflagged cell: [placeMines], then
    [calculateNeighborMines], then [revealCell] at the clicked cell all
    return a board; the clicked cell and each of its unflagged neighbours end
    revealed; no mine is revealed by the click; and the board holds
    min (totalMines, eligibleCount) mines. *)
Theorem first_click_safe shuffle (cells : list (list Cell)) m r c x :
  (∀ l, shuffle l ≡ₚ l) → rectangular cells = true →
  everyCell (λ x, negb (isMine x)) cells = true →
  cellAt cells r c = Some x → isRevealed x = false → isFlagged x = false →
  (0 ≤ m)%Z →
  ∃ b1 b2 b3,
    placeMines shuffle cells m (mkPos r c) = Ret b1 ∧
    calculateNeighborMines b1 = Ret b2 ∧
    revealCell b2 r c = Some (Ret b3) ∧
    revealedAt b3 (mkPos r c) = true ∧
    (∀ q, adjacent cells (mkPos r c) q → flaggedAt cells q = false →
          revealedAt b3 q = true) ∧
    (∀ q, mineAt b3 q = true → revealedAt b3 q = revealedAt cells q) ∧
    Z.of_nat (countCells isMine b3)
    = Z.min m (Z.of_nat (eligibleCount cells (mkPos r c))).
Proof.
  intros Hperm Hrect Hnomine Hx Hxr Hxf Hm. set (p := mkPos r c).
  assert (inBounds cells p = true) as Hp by (apply inBounds_cellAt; eauto).
  destruct (placeMines_result shuffle cells m p Hperm Hrect Hp)
    as (b1 & Hb1 & Hmined & Hfr & Hcnt).
  specialize (Hcnt Hnomine Hm).
  pose proof (Forall2_shape _ _ _ Hmined) as Hshape1.
  assert (rectangular b1 = true) as Hrect1.
  { apply shape_dims in Hshape1 as (_ & _ & E). congruence. }
  destruct (calculateNeighborMines_result b1 Hrect1)
    as (b2 & Hb2 & Hshape2 & Hcell2 & Hcorrect2 & _).
  pose proof (calculateNeighborMines_related b1 b2 Hrect1 Hb2) as Hrel2.
  assert (rectangular b2 = true) as Hrect2.
  { apply shape_dims in Hshape2 as (_ & _ & E). congruence. }
  assert (Forall2 (Forall2 (λ x y, isRevealed y = isRevealed x ∧
                                   isFlagged y = isFlagged x)) cells b2) as Hsame.
  { eapply Forall2_trans; [| exact Hmined | exact Hrel2].
    intros ra rb rc G1 G2. eapply Forall2_trans; [| exact G1 | exact G2].
    intros u v w (_ & _ & _ & Hr & Hf & _) [n [-> | ->]]; simpl; by rewrite Hr, Hf. }
  assert (∀ q, revealedAt b2 q = revealedAt cells q ∧
               flaggedAt b2 q = flaggedAt cells q) as Hmarks.
  { intros q. unfold revealedAt, flaggedAt.
    destruct (Forall2_cellAt _ _ _ (prow q) (pcol q) Hsame) as [u v [-> ->]|]; done. }
  assert (∀ q, inBounds b2 q = inBounds cells q) as Hbounds.
  { intros q. unfold inBounds.
    apply shape_dims in Hshape1 as (-> & -> & _).
    apply shape_dims in Hshape2 as (-> & -> & _). done. }
  (* the clicked cell has no mine around it *)
  assert (∀ q, around p q = true → mineAt b1 q = false) as Hsafe.
  { intros q Hq. unfold mineAt. rewrite (Hfr q Hq).
    destruct (cellAt cells (prow q) (pcol q)) as [y|] eqn:Hy; [|done].
    apply negb_true_iff.
    by apply (proj1 (everyCell_cellAt _ _) Hnomine (prow q) (pcol q) y). }
  assert (mineCountAt b1 p = 0%Z) as Hzero.
  { unfold mineCountAt. rewrite filter_none; [done|].
    intros q [_ Hq]%getNeighborPositions_spec. by apply Hsafe, near_around. }
  assert (isMine x = false) as Hxm.
  { apply negb_true_iff. by apply (proj1 (everyCell_cellAt _ _) Hnomine r c x). }
  assert (cellAt b1 r c = Some x) as Hx1.
  { rewrite <-Hx. apply (Hfr p). apply around_spec. by left. }
  assert (cellAt b2 r c = Some (setNeighborMines 0 x)) as Hx2.
  { rewrite Hcell2, Hx1. simpl. unfold counted. fold p. by rewrite Hzero, Hxm. }
  assert (revealable b2 p = true) as Hrev.
  { apply revealable_true; [done|]. exists (setNeighborMines 0 x). by simpl. }
  destruct (revealCell_effective b2 p Hrect2 Hrev) as (b3 & Hb3 & Hpost).
  simpl in Hb3.
  pose proof (post_grows _ _ _ Hpost) as Hg.
  exists b1, b2, b3. split_and!; [done|done|done|apply Hpost| | |].
  - intros q Hq Hqf.
    apply (post_closed _ _ _ Hpost p).
    + unfold revealedAt. simpl. by rewrite Hx2.
    + apply Hpost.
    + unfold zeroSafeAt. simpl. rewrite Hx2. simpl. by rewrite Hxm.
    + destruct Hq as [Hq1 Hq2]. split; [by rewrite Hbounds|done].
    + by rewrite (proj2 (Hmarks q)).
  - intros q Hq. rewrite (grows_mineAt _ _ _ Hg) in Hq.
    destruct (revealCell_mines_kept b2 r c (setNeighborMines 0 x) Hrect2 Hcorrect2 Hx2 Hxm)
      as (b3' & Hb3' & Hkept).
    assert (b3' = b3) as -> by congruence.
    rewrite (proj2 (Hkept q Hq)). apply Hmarks.
  - rewrite <-Hcnt. f_equal.
    transitivity (countCells isMine b2).
    + symmetry. apply countCells_same.
      eapply Forall2_impl2; [|exact Hg]. by intros u v (_ & _ & _ & -> & _).
    + symmetry. apply countCells_same.
      eapply Forall2_impl2; [|exact Hrel2]. by intros u v [n [-> | ->]].
Qed.

Lemma first_click_safe_witness :
  (∀ l : list Position, (λ l, l) l ≡ₚ l) ∧
  rectangular (initializeEmptyBoard 4 4) = true ∧
  everyCell (λ x, negb (isMine x)) (initializeEmptyBoard 4 4) = true ∧
  cellAt (initializeEmptyBoard 4 4) 0 0 = Some (createEmptyCell 0 0) ∧
  (0 ≤ 3)%Z ∧
  ∃ b1 b2 b3,
    placeMines (λ l, l) (initializeEmptyBoard 4 4) 3 (mkPos 0 0) = Ret b1 ∧
    calculateNeighborMines b1 = Ret b2 ∧
    revealCell b2 0 0 = Some (Ret b3) ∧
    revealedAt b3 (mkPos 0 0) = true ∧
    (∀ q, adjacent (initializeEmptyBoard 4 4) (mkPos 0 0) q →
          flaggedAt (initializeEmptyBoard 4 4) q = false →
          revealedAt b3 q = true) ∧
    (∀ q, mineAt b3 q = true →
          revealedAt b3 q = revealedAt (initializeEmptyBoard 4 4) q) ∧
    Z.of_nat (countCells isMine b3)
    = Z.min 3 (Z.of_nat (eligibleCount (initializeEmptyBoard 4 4) (mkPos 0 0))).
Proof.
  split; [intros l; reflexivity|]. split; [reflexivity|]. split; [reflexivity|].
  split; [reflexivity|]. split; [lia|].
  apply (first_click_safe (λ l, l) (initializeEmptyBoard 4 4) 3 0 0 (createEmptyCell 0 0));
    [intros l; reflexivity | reflexivity | reflexivity | reflexivity
    | reflexivity | reflexivity | lia].
Defined.

(** ** What winning means *)

Lemma everyCell_concat P (cells : list (list Cell)) :
  everyCell P cells = forallb P (concat cells).
Proof.
  unfold everyCell. induction cells as [|rw cells IH]; [done|]. simpl.
  by rewrite forallb_app, IH.
Qed.

Lemma length_concat_rectangular (cells : list (list Cell)) :
  rectangular cells = true →
  Z.of_nat (length (concat cells)) = (numRows cells * numCols cells)%Z.
Proof.
  intros (r0 & rest & -> & Hlen)%rectangular_inv. unfold numRows, numCols.
  assert (∀ l : list (list Cell), (∀ rw, rw ∈ l → length rw = length r0) →
            length (concat l) = length l * length r0) as H.
  { induction l as [|rw l IH]; intros Hl; [done|]. simpl.
    rewrite length_app, IH, (Hl rw) by (try left; intros; apply Hl; by right). lia. }
  rewrite (H _ Hlen). lia.
Qed.

Lemma safe_cells_counted (l : list Cell) :
  forallb (λ x, negb (isMine x && isRevealed x)) l = true →
  length (List.filter isRevealed l) + length (List.filter isMine l) ≤ length l ∧
  (length (List.filter isRevealed l) + length (List.filter isMine l) = length l ↔
   forallb (λ x, isMine x || isRevealed x) l = true).
Proof.
  induction l as [|a l IH]; [done|]. simpl.
  intros [Ha Hl]%andb_true_iff. destruct (IH Hl) as [Hle Hiff].
  destruct (isMine a), (isRevealed a); simpl in *; try done;
    (split; [lia|]); rewrite <-?Hiff; (split; [intros ?|intros ?]); try lia; try done.
Qed.

Lemma checkWinCondition_unfold (cells : list (list Cell)) m :
  cells ≠ [] →
  checkWinCondition cells m
  = Ret (Z.of_nat (length (List.filter isRevealed (concat cells)))
         =? numRows cells * numCols cells - m)%Z.
Proof. by destruct cells. Qed.

(** X13: on a rectangular board that holds [totalMines] mines, none of them
    revealed, [checkWinCondition] is true exactly when every cell that is not
    a mine is revealed. *)
Theorem checkWinCondition_meaning (cells : list (list Cell)) (totalMines : Z) :
  rectangular cells = true →
  Z.of_nat (countCells isMine cells) = totalMines →
  everyCell (λ x, negb (isMine x && isRevealed x)) cells = true →
  (checkWinCondition cells totalMines = Ret true ↔
   everyCell (λ x, isMine x || isRevealed x) cells = true).
Proof.
  intros Hrect Hmines Hsafe.
  pose proof (length_concat_rectangular cells Hrect) as Htotal.
  rewrite everyCell_concat in Hsafe. rewrite everyCell_concat.
  destruct (safe_cells_counted _ Hsafe) as [_ Hiff]. rewrite <-Hiff.
  unfold countCells in Hmines.
  rewrite checkWinCondition_unfold by by apply rectangular_nonempty.
  split.
  - intros [= H%Z.eqb_eq]. lia.
  - intros H. f_equal. apply Z.eqb_eq. lia.
Qed.

Lemma checkWinCondition_meaning_witness :
  rectangular rowWithMine = true ∧
  Z.of_nat (countCells isMine rowWithMine) = 1%Z ∧
  everyCell (λ x, negb (isMine x && isRevealed x)) rowWithMine = true ∧
  (checkWinCondition rowWithMine 1 = Ret true ↔
   everyCell (λ x, isMine x || isRevealed x) rowWithMine = true).
Proof.
  split; [reflexivity|]. split; [reflexivity|]. split; [reflexivity|].
  apply (checkWinCondition_meaning rowWithMine 1); reflexivity.
Defined.

(** ** More on the toggles *)

(** X14: [toggleFlag] on a revealed cell, and [toggleQuestion] on a revealed
    or a flagged cell, return the input board: they are no-ops, not
    errors. *)
Theorem toggle_noop (cells : list (list Cell)) r c x :
  cellAt cells r c = Some x →
  (isRevealed x = true →
     toggleFlag cells r c = Ret cells ∧ toggleQuestion cells r c = Ret cells) ∧
  (isFlagged x = true → toggleQuestion cells r c = Ret cells).
Proof.
  intros Hx. split.
  - intros Hr. split; apply modifyCell_same with x; try done.
    + unfold flagToggled. by rewrite Hr.
    + unfold questionToggled. by rewrite Hr.
  - intros Hf. apply modifyCell_same with x; [done|].
    unfold questionToggled. rewrite Hf. by rewrite andb_false_r.
Qed.

Lemma toggle_noop_witness :
  cellAt rowWithRevealed 0 1
  = Some (mkCell "cell-0-1" 0 1 false true false false 0 None) ∧
  toggleFlag rowWithRevealed 0 1 = Ret rowWithRevealed ∧
  toggleQuestion rowWithRevealed 0 1 = Ret rowWithRevealed ∧
  cellAt rowWithFlag 0 1 = Some (mkCell "cell-0-1" 0 1 false false true false 0 None) ∧
  toggleQuestion rowWithFlag 0 1 = Ret rowWithFlag.
Proof.
  destruct (toggle_noop rowWithRevealed 0 1
              (mkCell "cell-0-1" 0 1 false true false false 0 None) eq_refl)
    as [H1 _].
  destruct (toggle_noop rowWithFlag 0 1
              (mkCell "cell-0-1" 0 1 false false true false 0 None) eq_refl)
    as [_ H2].
  split; [reflexivity|]. split; [apply (H1 eq_refl)|]. split; [apply (H1 eq_refl)|].
  split; [reflexivity|]. apply (H2 eq_refl).
Defined.

(** X15: at a position that holds a cell, [toggleFlag] and [toggleQuestion]
    return a board of the same shape that differs from the input at that
    position only, and there only in [isFlagged] and [isQuestioned]: a
    toggle never reveals a cell and never changes a mine or a count.
    [toggleFlag] moves [getFlagCount] by exactly one on an unrevealed cell, up
    when it sets the flag and down when it clears it; [toggleQuestion] never
    changes [getFlagCount]. *)
Theorem toggle_frame (cells : list (list Cell)) r c x :
  cellAt cells r c = Some x →
  ∃ f q y z,
    toggleFlag cells r c = Ret f ∧ toggleQuestion cells r c = Ret q ∧
    map length f = map length cells ∧ map length q = map length cells ∧
    (∀ r' c', cellAt f r' c' = if decide (r' = r ∧ c' = c) then Some y
                               else cellAt cells r' c') ∧
    (∀ r' c', cellAt q r' c' = if decide (r' = r ∧ c' = c) then Some z
                               else cellAt cells r' c') ∧
    (id y = id x ∧ row y = row x ∧ col y = col x ∧ isMine y = isMine x ∧
     isRevealed y = isRevealed x ∧ neighborMines y = neighborMines x ∧
     isExploded y = isExploded x) ∧
    (id z = id x ∧ row z = row x ∧ col z = col x ∧ isMine z = isMine x ∧
     isRevealed z = isRevealed x ∧ isFlagged z = isFlagged x ∧
     neighborMines z = neighborMines x ∧ isExploded z = isExploded x) ∧
    (isRevealed x = false →
     getFlagCount f + (if isFlagged x then 1 else 0)
     = getFlagCount cells + (if isFlagged x then 0 else 1)) ∧
    getFlagCount q = getFlagCount cells.
Proof.
  intros Hx.
  destruct (modifyCell_Ret flagToggled _ _ _ _ Hx) as (rw & _ & _ & Hf).
  destruct (modifyCell_Ret questionToggled _ _ _ _ Hx) as (rw' & _ & _ & Hq).
  set (f := <[_ := _]> cells) in Hf. set (q := <[_ := _]> cells) in Hq.
  exists f, q, (flagToggled x), (questionToggled x).
  split_and!; try done.
  - pose proof (modifyCell_shape flagToggled cells r c) as H.
    unfold toggleFlag in Hf. by rewrite Hf in H.
  - pose proof (modifyCell_shape questionToggled cells r c) as H.
    unfold toggleQuestion in Hq. by rewrite Hq in H.
  - intros r' c'. by apply cellAt_modifyCell.
  - intros r' c'. by apply cellAt_modifyCell.
  - unfold flagToggled. by destruct (isRevealed x).
  - unfold flagToggled. by destruct (isRevealed x).
  - unfold flagToggled. by destruct (isRevealed x).
  - unfold flagToggled. by destruct (isRevealed x).
  - unfold flagToggled. by destruct (isRevealed x) eqn:E.
  - unfold flagToggled. by destruct (isRevealed x).
  - unfold flagToggled. by destruct (isRevealed x).
  - unfold questionToggled. by destruct (_ && _).
  - unfold questionToggled. by destruct (_ && _).
  - unfold questionToggled. by destruct (_ && _).
  - unfold questionToggled. by destruct (_ && _).
  - unfold questionToggled. by destruct (_ && _).
  - unfold questionToggled. by destruct (_ && _).
  - unfold questionToggled. by destruct (_ && _).
  - unfold questionToggled. by destruct (_ && _).
  - intros Hr. pose proof (countCells_modifyCell isFlagged _ _ _ _ _ _ Hx Hf) as H.
    unfold getFlagCount. fold (countCells isFlagged f). fold (countCells isFlagged cells).
    unfold flagToggled in H. rewrite Hr in H. simpl in H.
    destruct (isFlagged x); simpl in *; lia.
  - pose proof (countCells_modifyCell isFlagged _ _ _ _ _ _ Hx Hq) as H.
    unfold getFlagCount. fold (countCells isFlagged q). fold (countCells isFlagged cells).
    assert (isFlagged (questionToggled x) = isFlagged x) as E
      by (unfold questionToggled; by destruct (_ && _)).
    rewrite E in H. lia.
Qed.

Lemma toggle_frame_witness :
  cellAt rowWithFlag 0 1 = Some (mkCell "cell-0-1" 0 1 false false true false 0 None) ∧
  ∃ f, toggleFlag rowWithFlag 0 1 = Ret f ∧
       getFlagCount f + 1 = getFlagCount rowWithFlag + 0.
Proof.
  split; [reflexivity|].
  destruct (toggle_frame rowWithFlag 0 1
              (mkCell "cell-0-1" 0 1 false false true false 0 None) eq_refl)
    as (f & q & y & z & Hf & _ & _ & _ & _ & _ & _ & _ & Hcount & _).
  exists f. split; [exact Hf|]. apply (Hcount eq_refl).
Defined.

Lemma modifyCell_commute f g (cells : list (list Cell)) r c r' c' :
  ¬ (r' = r ∧ c' = c) →
  (modifyCell f cells r c ≫= λ b, modifyCell g b r' c')
  = (modifyCell g cells r' c' ≫= λ b, modifyCell f b r c).
Proof.
  intros Hne.
  assert (¬ (r = r' ∧ c = c')) as Hne' by (intros [-> ->]; by apply Hne).
  destruct (cellAt cells r c) as [x|] eqn:Hx, (cellAt cells r' c') as [y|] eqn:Hy.
  - destruct (modifyCell_Ret f _ _ _ _ Hx) as (? & _ & _ & Hf).
    destruct (modifyCell_Ret g _ _ _ _ Hy) as (? & _ & _ & Hg).
    set (s1 := <[_ := _]> cells) in Hf. set (s2 := <[_ := _]> cells) in Hg.
    rewrite Hf, Hg. simpl.
    assert (cellAt s1 r' c' = Some y) as Hy1.
    { rewrite (cellAt_modifyCell _ _ _ _ _ _ r' c' Hx Hf). by rewrite decide_False. }
    assert (cellAt s2 r c = Some x) as Hx2.
    { rewrite (cellAt_modifyCell _ _ _ _ _ _ r c Hy Hg). by rewrite decide_False. }
    destruct (modifyCell_Ret g _ _ _ _ Hy1) as (? & _ & _ & Hg1).
    destruct (modifyCell_Ret f _ _ _ _ Hx2) as (? & _ & _ & Hf2).
    set (s12 := <[_ := _]> s1) in Hg1. set (s21 := <[_ := _]> s2) in Hf2.
    rewrite Hg1, Hf2. f_equal. apply cells_ext.
    + pose proof (modifyCell_shape f cells r c) as E1. rewrite Hf in E1.
      pose proof (modifyCell_shape g cells r' c') as E2. rewrite Hg in E2.
      pose proof (modifyCell_shape g s1 r' c') as E3. rewrite Hg1 in E3.
      pose proof (modifyCell_shape f s2 r c) as E4. rewrite Hf2 in E4.
      simpl in *. congruence.
    + intros r0 c0.
      rewrite (cellAt_modifyCell _ _ _ _ _ _ r0 c0 Hy1 Hg1).
      rewrite (cellAt_modifyCell _ _ _ _ _ _ r0 c0 Hx2 Hf2).
      rewrite (cellAt_modifyCell _ _ _ _ _ _ r0 c0 Hx Hf).
      rewrite (cellAt_modifyCell _ _ _ _ _ _ r0 c0 Hy Hg).
      destruct (decide (r0 = r' ∧ c0 = c')) as [[E1 E2]|],
               (decide (r0 = r ∧ c0 = c)) as [[E3 E4]|]; try done.
      subst. by destruct Hne.
  - destruct (modifyCell_Ret f _ _ _ _ Hx) as (? & _ & _ & Hf).
    set (s1 := <[_ := _]> cells) in Hf. rewrite Hf. simpl.
    rewrite (modifyCell_Throw g cells) by done. simpl.
    apply modifyCell_Throw.
    rewrite (cellAt_modifyCell _ _ _ _ _ _ r' c' Hx Hf). by rewrite decide_False.
  - destruct (modifyCell_Ret g _ _ _ _ Hy) as (? & _ & _ & Hg).
    set (s2 := <[_ := _]> cells) in Hg. rewrite Hg. simpl.
    rewrite (modifyCell_Throw f cells) by done. simpl. symmetry.
    apply modifyCell_Throw.
    rewrite (cellAt_modifyCell _ _ _ _ _ _ r c Hy Hg). by rewrite decide_False.
  - by rewrite !modifyCell_Throw.
Qed.

(** X16: toggles at two different positions commute: flagging or
    questioning one cell and then another gives the same outcome, board or
    throw, as doing it in the other order. *)
Theorem toggles_commute (cells : list (list Cell)) r c r' c' :
  ¬ (r' = r ∧ c' = c) →
  (toggleFlag cells r c ≫= λ b, toggleFlag b r' c')
  = (toggleFlag cells r' c' ≫= λ b, toggleFlag b r c) ∧
  (toggleFlag cells r c ≫= λ b, toggleQuestion b r' c')
  = (toggleQuestion cells r' c' ≫= λ b, toggleFlag b r c) ∧
  (toggleQuestion cells r c ≫= λ b, toggleQuestion b r' c')
  = (toggleQuestion cells r' c' ≫= λ b, toggleQuestion b r c).
Proof. intros Hne. split_and!; by apply modifyCell_commute. Qed.

Lemma toggles_commute_witness :
  ¬ (1 = 0 ∧ 2 = 1)%Z ∧
  (toggleFlag rowWithMine 0 1 ≫= λ b, toggleQuestion b 0 2)
  = (toggleQuestion rowWithMine 0 2 ≫= λ b, toggleFlag b 0 1).
Proof.
  split; [intros [H _]; discriminate H|].
  apply (toggles_commute rowWithMine 0 1 0 2). intros [_ H]; discriminate H.
Defined.

(** ** More on [revealAllMines] *)

(** X17: [revealAllMines] is total, keeps the shape of the grid, and its
    result does not depend on earlier calls: calling it again, with the same
    or with another exploded position, gives what a single call with the last
    position gives.  In particular it is idempotent. *)
Theorem revealAllMines_last_wins (cells : list (list Cell)) er ec er' ec' :
  map length (revealAllMines cells er ec) = map length cells ∧
  revealAllMines (revealAllMines cells er ec) er' ec' = revealAllMines cells er' ec'.
Proof.
  unfold revealAllMines. split.
  - rewrite map_map. apply map_ext. intros rw. by rewrite length_map.
  - rewrite map_map. apply map_ext. intros rw.
    rewrite map_map. apply map_ext. intros x. simpl.
    by destruct (isMine x).
Qed.

(** ** A board in play *)

Lemma inPlay_related (cells out : list (list Cell)) m :
  Forall2 (Forall2 (λ x y, isMine y = isMine x ∧
                           neighborMines y = neighborMines x)) cells out →
  everyCell (λ x, negb (isMine x && isRevealed x)) out = true →
  inPlay cells m → inPlay out m.
Proof.
  intros Hrel Hsafe (Hrect & Hcorrect & Hcount & _).
  pose proof (Forall2_shape _ _ _ Hrel) as Hshape.
  assert (∀ q, mineAt out q = mineAt cells q) as Hmine.
  { intros q. unfold mineAt.
    destruct (Forall2_cellAt _ _ _ (prow q) (pcol q) Hrel) as [x y [E _]|]; done. }
  split_and!; [|  | |done].
  - apply shape_dims in Hshape as (_ & _ & E). congruence.
  - intros p y Hy Hym.
    pose proof (Forall2_cellAt _ _ _ (prow p) (pcol p) Hrel) as Hxy.
    rewrite Hy in Hxy. inversion Hxy as [x y' [E1 E2] Hx|]; subst. symmetry in Hx.
    rewrite E2, (mineCountAt_ext out cells) by done.
    apply Hcorrect; [done|congruence].
  - rewrite <-Hcount. f_equal. symmetry. apply countCells_same.
    eapply Forall2_impl2; [|exact Hrel]. by intros x y [-> _].
Qed.

Lemma modifyCell_related (R : Cell → Cell → Prop) f (cells : list (list Cell)) r c :
  (∀ x, R x x) → (∀ x, R x (f x)) →
  whenRet (Forall2 (Forall2 R) cells) (modifyCell f cells r c).
Proof.
  intros Hrefl Hf.
  destruct (cellAt cells r c) as [x|] eqn:Hx; [|by rewrite modifyCell_Throw].
  destruct (modifyCell_Ret f _ _ _ _ Hx) as (rw & _ & _ & Hm).
  rewrite Hm. simpl. by eapply (modifyCell_Forall2 R f cells r c x).
Qed.

Lemma toggle_inPlay f (cells : list (list Cell)) m r c :
  (∀ x, isMine (f x) = isMine x ∧ neighborMines (f x) = neighborMines x ∧
        isRevealed (f x) = isRevealed x) →
  inPlay cells m → whenRet (λ out, inPlay out m) (modifyCell f cells r c).
Proof.
  intros Hf Hplay.
  pose proof (modifyCell_related
    (λ x y, isMine y = isMine x ∧ neighborMines y = neighborMines x) f cells r c
    ltac:(done) ltac:(intros x; split; apply Hf)) as Hrel.
  pose proof (everyCell_modifyCell (λ x, negb (isMine x && isRevealed x)) f cells r c)
    as Hsafe.
  destruct (modifyCell f cells r c) as [out| |]; simpl in *; [|done..].
  eapply inPlay_related; [done| |done].
  apply Hsafe; [|apply Hplay]. intros x.
  destruct (Hf x) as (-> & _ & ->). done.
Qed.

(** X18: a board in play stays in play.  If a board is rectangular, has
    correct counts, holds [totalMines] mines and shows none of them, then so
    does the board [revealCell] returns when the cell clicked is not a mine,
    and so does every board [toggleFlag] or [toggleQuestion] returns. *)
Theorem inPlay_preserved (cells : list (list Cell)) m r c :
  inPlay cells m →
  (∀ x, cellAt cells r c = Some x → isMine x = false →
        ∃ out, revealCell cells r c = Some (Ret out) ∧ inPlay out m) ∧
  whenRet (λ out, inPlay out m) (toggleFlag cells r c) ∧
  whenRet (λ out, inPlay out m) (toggleQuestion cells r c).
Proof.
  intros Hplay. split_and!.
  - intros x Hx Hxm. destruct Hplay as (Hrect & Hcorrect & Hcount & Hsafe).
    destruct (revealCell_mines_kept cells r c x Hrect Hcorrect Hx Hxm)
      as (out & Hout & Hkept).
    destruct (revealCell_grows cells r c Hrect) as (out' & Hout' & Hg).
    assert (out' = out) as -> by congruence.
    exists out. split; [done|].
    apply (inPlay_related cells); [| |done].
    + eapply Forall2_impl2; [|exact Hg]. by intros u v (_ & _ & _ & -> & _ & _ & -> & _).
    + apply everyCell_cellAt. intros r' c' y Hy.
      destruct (isMine y) eqn:Hym; [|done]. simpl. apply negb_true_iff.
      assert (mineAt out (mkPos r' c') = true) as Hq
        by (unfold mineAt; simpl; by rewrite Hy).
      rewrite (grows_mineAt _ _ _ Hg) in Hq.
      destruct (Hkept _ Hq) as [_ Hrev].
      unfold revealedAt in Hrev. simpl in Hrev. rewrite Hy in Hrev. rewrite Hrev.
      unfold mineAt in Hq. simpl in Hq.
      destruct (cellAt cells r' c') as [u|] eqn:Hu; [|done].
      pose proof (proj1 (everyCell_cellAt _ _) Hsafe r' c' u Hu) as Hok.
      simpl in Hok. rewrite Hq in Hok. simpl in Hok. by apply negb_true_iff.
  - apply toggle_inPlay; [|done]. intros x. unfold flagToggled.
    by destruct (isRevealed x) eqn:E.
  - apply toggle_inPlay; [|done]. intros x. unfold questionToggled.
    by destruct (_ && _).
Qed.

Lemma inPlay_preserved_witness :
  inPlay rowWithMine 1 ∧
  ∃ out, revealCell rowWithMine 0 1 = Some (Ret out) ∧ inPlay out 1.
Proof.
  assert (inPlay rowWithMine 1) as H.
  { split; [reflexivity|]. split; [apply fixpoint_countsCorrect; reflexivity|].
    split; reflexivity. }
  split; [exact H|].
  destruct (inPlay_preserved rowWithMine 1 0 1 H) as (Hr & _ & _).
  apply (Hr (mkCell "cell-0-1" 0 1 false false false false 1 None)); reflexivity.
Defined.

(** ** New boards *)

Lemma initializeEmptyBoard_dims rows cols :
  0 < rows →
  rectangular (initializeEmptyBoard rows cols) = true ∧
  numRows (initializeEmptyBoard rows cols) = Z.of_nat rows ∧
  numCols (initializeEmptyBoard rows cols) = Z.of_nat cols.
Proof.
  intros Hrows. destruct (initializeEmptyBoard_rows rows cols) as [Hlen Hall].
  rewrite Forall_forall in Hall.
  destruct (initializeEmptyBoard rows cols) as [|r0 rest] eqn:E.
  { simpl in Hlen. lia. }
  assert (length r0 = cols) as Hr0 by (apply Hall; left).
  split_and!.
  - apply rectangular_intro. intros rw Hrw. rewrite Hr0. by apply Hall.
  - unfold numRows. by rewrite Hlen.
  - simpl. by rewrite Hr0.
Qed.

Lemma initializeEmptyBoard_no_mines rows cols :
  everyCell (λ x, negb (isMine x)) (initializeEmptyBoard rows cols) = true.
Proof.
  apply everyCell_cellAt. intros r c x. rewrite cellAt_initializeEmptyBoard.
  destruct (isValidPosition _ _ _ _); [|done]. by intros [= <-].
Qed.

(** X19: [createNewBoard] returns an empty board of the configured size: the
    custom configuration when the difficulty is CUSTOM and one is given, the
    preset of the difficulty otherwise.  For every preset (Beginner 9×9/10,
    Intermediate 16×16/40, Expert 16×30/99, default Custom 10×10/15) the mine
    count leaves room for the first click, so [placeMines] on the new board
    places exactly [totalMines] mines wherever the first click lands. *)
Theorem createNewBoard_spec (d : Difficulty) (custom : option CustomConfig.t) :
  let b := createNewBoard d custom in
  GameBoard.cells b = initializeEmptyBoard (GameBoard.rows b) (GameBoard.cols b) ∧
  (∀ config, d = CUSTOM → custom = Some config →
     GameBoard.rows b = CustomConfig.rows config ∧
     GameBoard.cols b = CustomConfig.cols config ∧
     GameBoard.totalMines b = CustomConfig.mines config) ∧
  (d ≠ CUSTOM ∨ custom = None →
     GameBoard.rows b = DifficultyConfig.rows (DIFFICULTY_CONFIGS d) ∧
     GameBoard.cols b = DifficultyConfig.cols (DIFFICULTY_CONFIGS d) ∧
     GameBoard.totalMines b = DifficultyConfig.mines (DIFFICULTY_CONFIGS d) ∧
     ∀ shuffle p,
       (∀ l, shuffle l ≡ₚ l) → inBounds (GameBoard.cells b) p = true →
       ∃ out, placeMines shuffle (GameBoard.cells b) (GameBoard.totalMines b) p
              = Ret out ∧
              Z.of_nat (countCells isMine out) = GameBoard.totalMines b).
Proof.
  intros b. split_and!.
  - unfold b, createNewBoard. by destruct d, custom.
  - intros config -> ->. done.
  - intros Hpreset.
    assert (b = let config := DIFFICULTY_CONFIGS d in
                GameBoard.mk
                  (initializeEmptyBoard (DifficultyConfig.rows config)
                                        (DifficultyConfig.cols config))
                  (DifficultyConfig.rows config) (DifficultyConfig.cols config)
                  (DifficultyConfig.mines config)) as ->.
    { unfold b, createNewBoard. destruct d, custom; try done.
      by destruct Hpreset. }
    simpl. split_and!; [done..|]. intros shuffle p Hperm Hp.
    destruct (initializeEmptyBoard_dims
                (DifficultyConfig.rows (DIFFICULTY_CONFIGS d))
                (DifficultyConfig.cols (DIFFICULTY_CONFIGS d)))
      as (Hrect & Hr & Hc); [destruct d; simpl; lia|].
    apply placeMines_all_placed; [done|done|apply initializeEmptyBoard_no_mines|done|].
    rewrite Hr, Hc. destruct d; simpl; lia.
Qed.

Lemma createNewBoard_spec_witness :
  (EXPERT ≠ CUSTOM ∨ @None CustomConfig.t = None) ∧
  (∀ l : list Position, (λ l, l) l ≡ₚ l) ∧
  inBounds (GameBoard.cells (createNewBoard EXPERT None)) (mkPos 15 29) = true ∧
  ∃ out, placeMines (λ l, l) (GameBoard.cells (createNewBoard EXPERT None))
                    (GameBoard.totalMines (createNewBoard EXPERT None)) (mkPos 15 29)
         = Ret out ∧
         Z.of_nat (countCells isMine out)
         = GameBoard.totalMines (createNewBoard EXPERT None).
Proof.
  destruct (createNewBoard_spec EXPERT None) as (_ & _ & H).
  destruct (H (or_intror eq_refl)) as (_ & _ & _ & Hplace).
  split; [by right|]. split; [intros l; reflexivity|]. split; [reflexivity|].
  apply (Hplace (λ l, l) (mkPos 15 29)); [intros l; reflexivity|reflexivity].
Defined.

(** ** Counters *)

(** X20: the counters under [revealCell].  On a rectangular board the board
    returned has the same [getFlagCount] and the same number of mines, and
    its [getRevealedCount] is at least that of the input, and greater when
    the call acts on the cell. *)
Theorem revealCell_counters (cells : list (list Cell)) r c :
  rectangular cells = true →
  ∃ out, revealCell cells r c = Some (Ret out) ∧
         getFlagCount out = getFlagCount cells ∧
         countCells isMine out = countCells isMine cells ∧
         getRevealedCount cells ≤ getRevealedCount out ∧
         (revealable cells (mkPos r c) = true →
          getRevealedCount cells < getRevealedCount out).
Proof.
  intros Hrect. destruct (revealCell_grows cells r c Hrect) as (out & Hout & Hg).
  assert (∀ b : list (list Cell),
            getRevealedCount b + unrevealedCount b = length (concat b)) as Hsum.
  { intros b. unfold getRevealedCount, unrevealedCount. apply length_filter_split. }
  assert (length (concat out) = length (concat cells)) as Hlen.
  { pose proof (Forall2_shape _ _ _ Hg) as Hshape. clear -Hshape.
    revert out Hshape. induction cells as [|rw cells IH]; intros [|rw' out]; try done.
    simpl. intros [= H1 H2]. rewrite !length_app, H1. f_equal. by apply IH. }
  exists out. split_and!; [done| | | |].
  - symmetry. apply (countCells_same isFlagged).
    eapply Forall2_impl2; [|exact Hg]. by intros u v (_ & _ & _ & _ & -> & _).
  - symmetry. apply (countCells_same isMine).
    eapply Forall2_impl2; [|exact Hg]. by intros u v (_ & _ & _ & -> & _).
  - pose proof (grows_unrevealedCount _ _ Hg).
    pose proof (Hsum cells). pose proof (Hsum out). lia.
  - intros Hrev.
    destruct (revealCell_effective cells (mkPos r c) Hrect Hrev) as (out' & Hout' & Hpost).
    simpl in Hout'. assert (out' = out) as -> by congruence.
    assert (unrevealedCount out < unrevealedCount cells).
    { apply (grows_unrevealedCount_lt _ _ (mkPos r c)); [done| |apply Hpost].
      unfold revealable in Hrev. apply andb_true_iff in Hrev as [_ Hrev].
      apply negb_true_iff, orb_false_iff in Hrev. apply Hrev. }
    pose proof (Hsum cells). pose proof (Hsum out). lia.
Qed.

Lemma revealCell_counters_witness :
  rectangular rowWithMine = true ∧
  ∃ out, revealCell rowWithMine 0 0 = Some (Ret out) ∧
         getFlagCount out = getFlagCount rowWithMine ∧
         countCells isMine out = countCells isMine rowWithMine ∧
         getRevealedCount rowWithMine ≤ getRevealedCount out ∧
         (revealable rowWithMine (mkPos 0 0) = true →
          getRevealedCount rowWithMine < getRevealedCount out).
Proof.
  split; [reflexivity|]. apply (revealCell_counters rowWithMine 0 0). reflexivity.
Defined.

Lemma insertByTime_perm x l : insertByTime x l ≡ₚ x :: l.
Proof.
  induction l as [|y l IH]; simpl; [done|].
  destruct (_ <? _)%Z; [done|]. rewrite IH. apply Permutation_swap.
Qed.

Lemma foldl_insertByTime_perm l acc :
  foldl (λ acc x, insertByTime x acc) acc l ≡ₚ acc ++ l.
Proof.
  revert acc. induction l as [|x l IH]; intros acc; simpl.
  - by rewrite app_nil_r.
  - rewrite IH, insertByTime_perm. simpl. apply Permutation_middle.
Qed.

Lemma sortByTime_perm l : sortByTime l ≡ₚ l.
Proof. apply (foldl_insertByTime_perm l []). Qed.

Lemma insertByTime_sorted x l : sortedByTime l → sortedByTime (insertByTime x l).
Proof.
  induction l as [|y l IH]; simpl; [done|]. intros [Hy Hl].
  destruct (Z.ltb_spec (HighScore.time x) (HighScore.time y)); simpl.
  - split_and!; [|done..]. constructor; [lia|].
    eapply Forall_impl; [exact Hy|]. simpl. intros; lia.
  - split; [|by apply IH].
    rewrite insertByTime_perm. by constructor.
Qed.

Lemma sortByTime_sorted l : sortedByTime (sortByTime l).
Proof.
  unfold sortByTime. assert (sortedByTime []) as H by done. revert H.
  generalize (@nil HighScore.t). induction l as [|x l IH]; intros acc H; simpl; [done|].
  apply IH. by apply insertByTime_sorted.
Qed.


Lemma sortedByTime_app l1 l2 :
  sortedByTime (l1 ++ l2) ↔
  sortedByTime l1 ∧ sortedByTime l2 ∧
  Forall (λ a, Forall (λ b, (HighScore.time a ≤ HighScore.time b)%Z) l2) l1.
Proof.
  induction l1 as [|x l1 IH]; simpl.
  - split; [intros; split_and!; done|tauto].
  - rewrite IH, Forall_app, Forall_cons. tauto.
Qed.




Lemma sortedByTime_filter p l : sortedByTime l → sortedByTime (List.filter p l).
Proof.
  induction l as [|x l IH]; simpl; [done|]. intros [Hx Hl].
  destruct (p x); simpl; [|by apply IH]. split; [|by apply IH].
  apply Forall_forall. intros y [Hy _]%list_elem_of_In%filter_In.
  rewrite Forall_forall in Hx. apply Hx. by apply list_elem_of_In.
Qed.




Lemma filter_all {A} (p : A → bool) l :
  Forall (λ x, p x = true) l → List.filter p l = l.
Proof. induction 1 as [|x l Hx _ IH]; simpl; [done|]. by rewrite Hx, IH. Qed.

Lemma filter_nothing {A} (p : A → bool) l :
  Forall (λ x, p x = false) l → List.filter p l = [].
Proof. induction 1 as [|x l Hx _ IH]; simpl; [done|]. by rewrite Hx. Qed.

Lemma Forall_filter_true {A} (p : A → bool) l :
  Forall (λ x, p x = true) (List.filter p l).
Proof.
  apply Forall_forall. intros x Hx%list_elem_of_In%filter_In. tauto.
Qed.

Lemma Forall_filter_negb {A} (p : A → bool) l :
  Forall (λ x, p x = false) (List.filter (λ x, negb (p x)) l).
Proof.
  apply Forall_forall. intros x [_ Hx]%list_elem_of_In%filter_In.
  by destruct (p x).
Qed.

Lemma sameDifficulty_refl score : sameDifficulty score score = true.
Proof. unfold sameDifficulty. by apply bool_decide_eq_true. Qed.

Section HighScores.
Variable stringifyScores : list HighScore.t → string.
Variable parseScores : string → option (list HighScore.t).

Lemma addHighScore_parts score st :
  let old := getHighScores parseScores st in
  let sorted := sortByTime (List.filter (sameDifficulty score) (old ++ [score])) in
  fst (addHighScore stringifyScores parseScores score st)
  = take 10 sorted ++ List.filter (λ s, negb (sameDifficulty score s)) old.
Proof.
  intros old sorted. unfold addHighScore. cbn [fst]. fold old.
  change (λ s, bool_decide (HighScore.difficulty s = HighScore.difficulty score))
    with (sameDifficulty score).
  change (λ s, negb (bool_decide (HighScore.difficulty s = HighScore.difficulty score)))
    with (λ s, negb (sameDifficulty score s)).
  fold sorted. f_equal.
  rewrite List.filter_app.
  rewrite (filter_nothing (λ s, negb (sameDifficulty score s)) [score]).
  - by rewrite app_nil_r.
  - constructor; [|done]. by rewrite sameDifficulty_refl.
Qed.

Lemma take_sorted_same score l n :
  Forall (λ s, sameDifficulty score s = true)
         (take n (sortByTime (List.filter (sameDifficulty score) l))).
Proof.
  apply Forall_take. rewrite sortByTime_perm. apply Forall_filter_true.
Qed.

Lemma addHighScore_same score st :
  let old := getHighScores parseScores st in
  List.filter (sameDifficulty score) (fst (addHighScore stringifyScores parseScores score st))
  = take 10 (sortByTime (List.filter (sameDifficulty score) (old ++ [score]))).
Proof.
  intros old. rewrite addHighScore_parts. fold old.
  rewrite List.filter_app, filter_all by apply take_sorted_same.
  rewrite (filter_nothing (sameDifficulty score)
             (List.filter (λ s, negb (sameDifficulty score s)) old))
    by apply Forall_filter_negb.
  by rewrite app_nil_r.
Qed.

Lemma addHighScore_other score st :
  let old := getHighScores parseScores st in
  List.filter (λ s, negb (sameDifficulty score s))
    (fst (addHighScore stringifyScores parseScores score st))
  = List.filter (λ s, negb (sameDifficulty score s)) old.
Proof.
  intros old. rewrite addHighScore_parts. fold old.
  rewrite List.filter_app.
  rewrite (filter_nothing (λ s, negb (sameDifficulty score s))
             (take 10 (sortByTime (List.filter (sameDifficulty score) (old ++ [score]))))).
  - simpl. apply filter_all. apply Forall_filter_true.
  - eapply Forall_impl; [apply take_sorted_same|]. simpl. by intros s ->.
Qed.

(** X21 (addHighScore, the returned list).  The list [addHighScore] returns
    consists of the scores of the new score's difficulty followed by the
    scores of the other difficulties.  The first part holds the fastest
    scores among the stored ones of that difficulty and the new one: it is
    sorted by time, has [min 10 (n + 1)] entries where [n] is the number of
    stored scores of that difficulty, and the scores left out ([dropped])
    are none of them faster than a score that is kept; nothing is left out
    when fewer than ten were stored.  The scores of the other difficulties
    are all kept, in the order [getHighScores] gives them.  This holds
    whether or not the storage works. *)
Theorem addHighScore_pruning (score : HighScore.t) (st : LocalStorage.t) :
  let old := getHighScores parseScores st in
  let all := fst (addHighScore stringifyScores parseScores score st) in
  let same := List.filter (sameDifficulty score) in
  let other := List.filter (λ s, negb (sameDifficulty score s)) in
  ∃ dropped,
    all = same all ++ other all ∧
    same all ++ dropped ≡ₚ score :: same old ∧
    length (same all) = Nat.min 10 (S (length (same old))) ∧
    (length (same old) < 10 → dropped = []) ∧
    sortedByTime (same all) ∧
    Forall (λ a, Forall (λ b, (HighScore.time a ≤ HighScore.time b)%Z) dropped)
           (same all) ∧
    other all = other old.
Proof.
  intros old all same other.
  set (sorted := sortByTime (same (old ++ [score]))).
  assert (same all = take 10 sorted) as Hsame by apply addHighScore_same.
  assert (other all = other old) as Hother by apply addHighScore_other.
  assert (sorted ≡ₚ score :: same old) as Hperm.
  { unfold sorted, same. rewrite sortByTime_perm, List.filter_app.
    rewrite (filter_all (sameDifficulty score) [score]).
    - by rewrite <-Permutation_cons_append.
    - constructor; [|done]. apply sameDifficulty_refl. }
  assert (sortedByTime (take 10 sorted ++ drop 10 sorted)) as Hs.
  { rewrite take_drop. apply sortByTime_sorted. }
  apply sortedByTime_app in Hs as (Hs1 & _ & Hs2).
  exists (drop 10 sorted). rewrite Hsame, Hother. split_and!; try done.
  - unfold all. rewrite addHighScore_parts. done.
  - by rewrite take_drop.
  - rewrite length_take. f_equal. by rewrite Hperm.
  - intros Hlt. apply drop_ge. rewrite Hperm. simpl. lia.
Qed.
End HighScores.

Lemma getItem_setItem {T} (stringify : T → string) (parse : string → option T)
    key value st :
  LocalStorage.available st = true →
  stringify value ≠ EmptyString →
  getItem parse key (snd (setItem stringify key value st)) = parse (stringify value).
Proof.
  intros Ha Hne. unfold getItem, setItem. rewrite Ha. simpl.
  rewrite lookup_insert_eq.
  destruct (String.eqb_spec (stringify value) EmptyString); done.
Qed.

Lemma getItem_setItem_ne {T U} (stringify : T → string) (parse : string → option U)
    key key' value st :
  key ≠ key' →
  getItem parse key' (snd (setItem stringify key value st)) = getItem parse key' st.
Proof.
  intros Hne. unfold getItem, setItem.
  destruct (LocalStorage.available st) eqn:Ha; simpl; [|by rewrite Ha].
  by rewrite lookup_insert_ne.
Qed.

Lemma getItem_removeItem {T} (parse : string → option T) key st :
  getItem parse key (removeItem key st) = None.
Proof.
  unfold getItem, removeItem.
  destruct (LocalStorage.available st) eqn:Ha; simpl; [|by rewrite Ha].
  by rewrite lookup_delete_eq.
Qed.

Lemma getItem_removeItem_ne {T} (parse : string → option T) key key' st :
  key ≠ key' → getItem parse key' (removeItem key st) = getItem parse key' st.
Proof.
  intros Hne. unfold getItem, removeItem.
  destruct (LocalStorage.available st) eqn:Ha; simpl; [|by rewrite Ha].
  by rewrite lookup_delete_ne.
Qed.

Section StorageRoundTrip.
Variable stringifyScores : list HighScore.t → string.
Variable parseScores : string → option (list HighScore.t).
Variable stringifyPreferences : UserPreferences.t → string.
Variable parsePreferences : string → option UserPreferences.t.


(** X23 (storage that throws).  When every access to [localStorage] throws,
    nothing is read and nothing is written: [getHighScores] gives the empty
    list, [getUserPreferences] the defaults, [saveUserPreferences] and
    [isStorageAvailable] answer [false], and [addHighScore] returns just
    the new score, so that scores added one after the other are not
    accumulated. *)
Theorem storage_unavailable (st : LocalStorage.t)
    (score score' : HighScore.t) (preferences : UserPreferences.t) :
  LocalStorage.available st = false →
  getHighScores parseScores st = [] ∧
  getUserPreferences parsePreferences st = DEFAULT_PREFERENCES ∧
  saveUserPreferences stringifyPreferences preferences st = (false, st) ∧
  isStorageAvailable st = (false, st) ∧
  clearAllData st = st ∧
  addHighScore stringifyScores parseScores score st = ([score], st) ∧
  fst (addHighScore stringifyScores parseScores score'
         (snd (addHighScore stringifyScores parseScores score st))) = [score'].
Proof.
  intros Ha.
  assert (getHighScores parseScores st = []) as Hget.
  { unfold getHighScores, getItem. by rewrite Ha. }
  assert (∀ s, addHighScore stringifyScores parseScores s st = ([s], st)) as Hadd.
  { intros s. unfold addHighScore. rewrite Hget. unfold setItem. rewrite Ha.
    cbn [snd app]. f_equal.
    change (λ s0, bool_decide (HighScore.difficulty s0 = HighScore.difficulty s))
      with (sameDifficulty s).
    change (λ s0, negb (bool_decide (HighScore.difficulty s0 = HighScore.difficulty s)))
      with (λ x, negb (sameDifficulty s x)).
    rewrite (filter_all (sameDifficulty s) [s]),
            (filter_nothing (λ x, negb (sameDifficulty s x)) [s]).
    - done.
    - constructor; [|done]. by rewrite sameDifficulty_refl.
    - constructor; [|done]. apply sameDifficulty_refl. }
  split_and!.
  - done.
  - unfold getUserPreferences, getItem. by rewrite Ha.
  - unfold saveUserPreferences, setItem. by rewrite Ha.
  - unfold isStorageAvailable. by rewrite Ha.
  - unfold clearAllData, removeItem. simpl. by rewrite !Ha.
  - apply Hadd.
  - by rewrite !Hadd.
Qed.

(** X24 (saveUserPreferences then getUserPreferences).  When the storage
    works and the text written for the preferences reads back as them,
    saving succeeds and the preferences read afterwards are the saved ones;
    the high scores are not affected. *)
Theorem preferences_round_trip (preferences : UserPreferences.t) (st : LocalStorage.t) :
  let st' := snd (saveUserPreferences stringifyPreferences preferences st) in
  LocalStorage.available st = true →
  stringifyPreferences preferences ≠ EmptyString →
  parsePreferences (stringifyPreferences preferences) = Some preferences →
  fst (saveUserPreferences stringifyPreferences preferences st) = true ∧
  getUserPreferences parsePreferences st' = preferences ∧
  getHighScores parseScores st' = getHighScores parseScores st.
Proof.
  intros st' Ha Hne Hparse. split_and!.
  - unfold saveUserPreferences, setItem. by rewrite Ha.
  - unfold getUserPreferences, st', saveUserPreferences.
    rewrite getItem_setItem by done. by rewrite Hparse.
  - unfold getHighScores, st', saveUserPreferences.
    by rewrite getItem_setItem_ne.
Qed.

(** X25 (clearHighScores, clearAllData).  After [clearHighScores] the high
    scores read as the empty list and the preferences are as before; after
    [clearAllData] the high scores read as the empty list and the
    preferences as the defaults.  Both leave every key other than the
    application's own untouched. *)
Theorem clear_spec (st : LocalStorage.t) :
  getHighScores parseScores (clearHighScores st) = [] ∧
  getUserPreferences parsePreferences (clearHighScores st)
  = getUserPreferences parsePreferences st ∧
  getHighScores parseScores (clearAllData st) = [] ∧
  getUserPreferences parsePreferences (clearAllData st) = DEFAULT_PREFERENCES ∧
  (∀ key, key ≠ STORAGE_KEYS.HIGH_SCORES →
     LocalStorage.items (clearHighScores st) !! key = LocalStorage.items st !! key) ∧
  (∀ key, key ≠ STORAGE_KEYS.HIGH_SCORES → key ≠ STORAGE_KEYS.USER_PREFERENCES →
          key ≠ STORAGE_KEYS.SAVED_GAME →
     LocalStorage.items (clearAllData st) !! key = LocalStorage.items st !! key).
Proof.
  split_and!.
  - unfold getHighScores, clearHighScores. by rewrite getItem_removeItem.
  - unfold getUserPreferences, clearHighScores. by rewrite getItem_removeItem_ne.
  - unfold getHighScores, clearAllData. simpl.
    rewrite 2!getItem_removeItem_ne by done. by rewrite getItem_removeItem.
  - unfold getUserPreferences, clearAllData. simpl.
    rewrite getItem_removeItem_ne by done. by rewrite getItem_removeItem.
  - intros key Hk. unfold clearHighScores, removeItem.
    destruct (LocalStorage.available st); simpl; [|done]. by rewrite lookup_delete_ne.
  - intros key H1 H2 H3. unfold clearAllData, removeItem. simpl.
    destruct (LocalStorage.available st) eqn:Ha; simpl; [|by rewrite !Ha].
    by rewrite !lookup_delete_ne.
Qed.
End StorageRoundTrip.


Lemma storage_unavailable_witness :
  LocalStorage.available brokenStorage = false ∧
  addHighScore sampleStringifyScores sampleParseScores fastScore brokenStorage
  = ([fastScore], brokenStorage).
Proof.
  split; [reflexivity|].
  apply (storage_unavailable sampleStringifyScores sampleParseScores
           sampleStringifyPreferences sampleParsePreferences brokenStorage
           fastScore fastScore DEFAULT_PREFERENCES eq_refl).
Defined.

Lemma preferences_round_trip_witness :
  LocalStorage.available emptyStorage = true ∧
  getUserPreferences sampleParsePreferences
    (snd (saveUserPreferences sampleStringifyPreferences quietPreferences
            emptyStorage))
  = quietPreferences.
Proof.
  split; [reflexivity|].
  destruct (preferences_round_trip sampleParseScores sampleStringifyPreferences
              sampleParsePreferences quietPreferences emptyStorage)
    as (_ & H & _); [reflexivity|discriminate|reflexivity|].
  exact H.
Defined.

Section HighScoresRead.
Variable parseScores : string → option (list HighScore.t).

End HighScoresRead.


(** * The clock *)

Lemma noColon_app a b : noColon a → noColon b → noColon (a +:+ b).
Proof.
  induction a as [|x a IH]; [done|]. rewrite string_app_cons. simpl.
  intros [? ?] ?. auto.
Qed.

Lemma string_length_app (a b : string) :
  String.length (a +:+ b) = String.length a + String.length b.
Proof.
  induction a as [|x a IH]; [done|]. rewrite string_app_cons. simpl. by rewrite IH.
Qed.

Lemma pretty_N_char_noColon x : pretty_N_char x ≠ ":"%char.
Proof. unfold pretty_N_char. by repeat case_match. Qed.

Lemma pretty_N_go_app x : ∀ s, pretty_N_go x s = pretty_N_go x EmptyString +:+ s.
Proof.
  induction (N.lt_wf_0 x) as [x _ IH]. intros s.
  assert (x = 0 ∨ 0 < x)%N as [->|Hx] by lia.
  - by rewrite !pretty_N_go_0.
  - rewrite (pretty_N_go_step x s), (pretty_N_go_step x EmptyString) by done.
    assert (x `div` 10 < x)%N as Hlt by by apply N.div_lt.
    rewrite (IH (x `div` 10)%N Hlt (String (pretty_N_char (x `mod` 10)) s)).
    rewrite (IH (x `div` 10)%N Hlt (String (pretty_N_char (x `mod` 10)) EmptyString)).
    by rewrite string_app_assoc.
Qed.

Lemma pretty_N_go_snoc x :
  (0 < x)%N →
  pretty_N_go x EmptyString
  = pretty_N_go (x `div` 10) EmptyString
    +:+ String (pretty_N_char (x `mod` 10)) EmptyString.
Proof. intros Hx. rewrite pretty_N_go_step by done. apply pretty_N_go_app. Qed.

Lemma pretty_N_go_digit x :
  (0 < x < 10)%N → pretty_N_go x EmptyString = String (pretty_N_char x) EmptyString.
Proof.
  intros Hx. rewrite pretty_N_go_snoc by lia.
  rewrite N.div_small, N.mod_small by lia. by rewrite pretty_N_go_0.
Qed.

Lemma pretty_N_go_length x :
  (0 < x)%N →
  String.length (pretty_N_go x EmptyString)
  = S (String.length (pretty_N_go (x `div` 10) EmptyString)).
Proof.
  intros Hx. rewrite pretty_N_go_snoc by done. rewrite string_length_app. simpl. lia.
Qed.

Lemma pretty_N_go_noColon x : noColon (pretty_N_go x EmptyString).
Proof.
  induction (N.lt_wf_0 x) as [x _ IH].
  assert (x = 0 ∨ 0 < x)%N as [->|Hx] by lia; [done|].
  rewrite pretty_N_go_snoc by done. apply noColon_app.
  - apply IH. by apply N.div_lt.
  - split; [apply pretty_N_char_noColon|done].
Qed.

Lemma pretty_N_go_lead x :
  (0 < x)%N → ∃ ch d, pretty_N_go x EmptyString = String ch d ∧ ch ≠ "0"%char.
Proof.
  induction (N.lt_wf_0 x) as [x _ IH]. intros Hx.
  assert (x < 10 ∨ 10 ≤ x)%N as [Hlt|Hge] by lia.
  - rewrite pretty_N_go_digit by lia. eexists _, _. split; [done|].
    assert (x = 1 ∨ x = 2 ∨ x = 3 ∨ x = 4 ∨ x = 5 ∨ x = 6 ∨ x = 7 ∨ x = 8 ∨ x = 9)%N
      as H by lia.
    destruct_or!; subst; done.
  - rewrite pretty_N_go_snoc by done.
    destruct (IH (x `div` 10)%N) as (ch & d & -> & Hch).
    + by apply N.div_lt.
    + apply N.div_str_pos. lia.
    + rewrite string_app_cons. by eexists _, _.
Qed.

Lemma pretty_N_go_sizes x :
  (0 < x)%N →
  let n := String.length (pretty_N_go x EmptyString) in
  1 ≤ n ∧ ((x < 10)%N → n = 1) ∧ ((10 ≤ x)%N → 2 ≤ n) ∧
  ((10 ≤ x < 100)%N → n = 2) ∧ ((100 ≤ x)%N → 3 ≤ n).
Proof.
  intros Hx n. unfold n. clear n.
  assert (∀ y, (0 < y)%N → 1 ≤ String.length (pretty_N_go y EmptyString)) as H1.
  { intros y Hy. rewrite pretty_N_go_length by done. lia. }
  assert (∀ y, (0 < y < 10)%N → String.length (pretty_N_go y EmptyString) = 1) as H2.
  { intros y Hy. by rewrite pretty_N_go_digit. }
  assert (∀ y, (10 ≤ y)%N → 2 ≤ String.length (pretty_N_go y EmptyString)) as H3.
  { intros y Hy. rewrite pretty_N_go_length by lia.
    apply le_n_S, H1, N.div_str_pos. lia. }
  split_and!.
  - by apply H1.
  - intros. apply H2. lia.
  - apply H3.
  - intros Hy. rewrite pretty_N_go_length by lia. f_equal. apply H2. split.
    + apply N.div_str_pos. lia.
    + apply N.Div0.div_lt_upper_bound. lia.
  - intros Hy. rewrite pretty_N_go_length by lia. apply le_n_S, H3.
    apply N.div_le_lower_bound; lia.
Qed.

Lemma pretty_Z_N (z : Z) :
  (0 < z)%Z → pretty z = pretty_N_go (Z.to_N z) EmptyString.
Proof.
  intros Hz. destruct z as [|x|x]; [lia| |lia].
  unfold pretty, pretty_Z, pretty, pretty_positive, pretty, pretty_N. simpl.
  by destruct (decide (N.pos x = 0%N)).
Qed.

Lemma padStart_pretty (z : Z) :
  (0 ≤ z)%Z →
  ((z < 10)%Z → padStart 2 "0" (pretty z) = String "0" (pretty z)
                ∧ String.length (pretty z) = 1) ∧
  ((10 ≤ z)%Z → padStart 2 "0" (pretty z) = pretty z
                ∧ 2 ≤ String.length (pretty z)
                ∧ ∃ ch d, pretty z = String ch d ∧ ch ≠ "0"%char) ∧
  ((10 ≤ z < 100)%Z → String.length (pretty z) = 2) ∧
  ((100 ≤ z)%Z → 3 ≤ String.length (pretty z)) ∧
  noColon (pretty z).
Proof.
  intros Hz. assert (z = 0 ∨ 0 < z)%Z as [->|Hpos] by lia.
  - split_and!; try lia; done.
  - rewrite (pretty_Z_N z Hpos).
    destruct (pretty_N_go_sizes (Z.to_N z)) as (H1 & H2 & H3 & H4 & H5); [lia|].
    split_and!.
    + intros Hlt. unfold padStart. rewrite H2 by lia. done.
    + intros Hge. split_and!.
      * unfold padStart.
        replace (2 - _) with 0 by (specialize (H3 ltac:(lia)); lia). done.
      * apply H3. lia.
      * apply pretty_N_go_lead. lia.
    + intros. apply H4. lia.
    + intros. apply H5. lia.
    + apply pretty_N_go_noColon.
Qed.

Lemma padStart_pretty_inj (x y : Z) :
  (0 ≤ x)%Z → (0 ≤ y)%Z →
  padStart 2 "0" (pretty x) = padStart 2 "0" (pretty y) → x = y.
Proof.
  intros Hx Hy.
  destruct (padStart_pretty x Hx) as (Hx1 & Hx2 & _).
  destruct (padStart_pretty y Hy) as (Hy1 & Hy2 & _).
  assert (x < 10 ∨ 10 ≤ x)%Z as [Hxs|Hxl] by lia;
    assert (y < 10 ∨ 10 ≤ y)%Z as [Hys|Hyl] by lia.
  - destruct (Hx1 Hxs) as [-> _], (Hy1 Hys) as [-> _].
    intros [= E]. by apply (inj pretty).
  - destruct (Hx1 Hxs) as [-> _], (Hy2 Hyl) as (-> & _ & ch & d & -> & Hch).
    intros [= <- _]. done.
  - destruct (Hx2 Hxl) as (-> & _ & ch & d & -> & Hch), (Hy1 Hys) as [-> _].
    intros [= -> _]. done.
  - destruct (Hx2 Hxl) as (-> & _), (Hy2 Hyl) as (-> & _).
    intros E. by apply (inj pretty).
Qed.

Lemma padStart_pretty_noColon (z : Z) :
  (0 ≤ z)%Z → noColon (padStart 2 "0" (pretty z)).
Proof.
  intros Hz. destruct (padStart_pretty z Hz) as (H1 & H2 & _ & _ & Hn).
  assert (z < 10 ∨ 10 ≤ z)%Z as [Hs|Hl] by lia.
  - destruct (H1 Hs) as [-> _]. by split.
  - by destruct (H2 Hl) as (-> & _).
Qed.

Lemma split_at_colon d1 d2 s1 s2 :
  noColon d1 → noColon d2 →
  d1 +:+ ":" +:+ s1 = d2 +:+ ":" +:+ s2 → d1 = d2 ∧ s1 = s2.
Proof.
  revert d2. induction d1 as [|a d1 IH]; intros [|b d2];
    rewrite ?string_app_cons, ?string_app_nil_l; simpl.
  - intros _ _ [= ->]. done.
  - intros _ [Hb _] [= <- _]. done.
  - intros [Ha _] _ [= -> _]. done.
  - intros [_ H1] [_ H2] [= -> E]. destruct (IH _ H1 H2 E) as [-> ->]. done.
Qed.

Lemma formatTime_length (a : Z) :
  (0 ≤ a)%Z →
  String.length (formatTime a)
  = String.length (padStart 2 "0" (pretty (a / 60)%Z)) + 3.
Proof.
  intros Ha. unfold formatTime. cbv zeta.
  rewrite !string_length_app.
  assert (0 ≤ Z.rem a 60 < 60)%Z as Hr by (apply Z.rem_bound_pos; lia).
  destruct (padStart_pretty (Z.rem a 60)) as (H1 & H2 & H3 & _); [lia|].
  assert (String.length (padStart 2 "0" (pretty (Z.rem a 60))) = 2) as ->.
  { assert (Z.rem a 60 < 10 ∨ 10 ≤ Z.rem a 60 < 100)%Z as [Hs|Hl] by lia.
    - destruct (H1 Hs) as [-> Hlen]. simpl. by rewrite Hlen.
    - destruct (H2 ltac:(lia)) as (-> & _). by apply H3. }
  simpl. lia.
Qed.

(** X27 (formatTime).  For whole numbers of seconds from 0 on, the clock
    shows different texts for different times, and the text has the five
    characters of [MM:SS] exactly when the time is below 100 minutes;
    from 100 minutes on it is longer. *)
Theorem formatTime_spec (a b : Z) :
  (0 ≤ a)%Z → (0 ≤ b)%Z →
  (formatTime a = formatTime b → a = b) ∧
  5 ≤ String.length (formatTime a) ∧
  (String.length (formatTime a) = 5 ↔ (a < 6000)%Z).
Proof.
  intros Ha Hb.
  assert (0 ≤ a / 60)%Z as Hma by (apply Z.div_pos; lia).
  assert (0 ≤ b / 60)%Z as Hmb by (apply Z.div_pos; lia).
  assert (0 ≤ Z.rem a 60 < 60)%Z as Hra by (apply Z.rem_bound_pos; lia).
  assert (0 ≤ Z.rem b 60 < 60)%Z as Hrb by (apply Z.rem_bound_pos; lia).
  pose proof (Z.div_mod a 60 ltac:(lia)) as Hdm.
  pose proof (Z.mod_pos_bound a 60 ltac:(lia)) as Hmod.
  split_and!.
  - unfold formatTime. cbv zeta. intros E.
    apply split_at_colon in E as [E1 E2]; [|by apply padStart_pretty_noColon..].
    apply padStart_pretty_inj in E1, E2; try lia.
    rewrite Z.rem_mod_nonneg in E2 by lia.
    rewrite Z.rem_mod_nonneg in E2 by lia.
    rewrite (Z.div_mod a 60), (Z.div_mod b 60) by lia. lia.
  - rewrite formatTime_length by done. 
    destruct (padStart_pretty (a / 60)%Z Hma) as (H1 & H2 & _).
    assert (a / 60 < 10 ∨ 10 ≤ a / 60)%Z as [Hs|Hl] by lia.
    + destruct (H1 Hs) as [-> Hlen]. simpl. lia.
    + destruct (H2 Hl) as (-> & Hlen & _). lia.
  - rewrite formatTime_length by done.
    destruct (padStart_pretty (a / 60)%Z Hma) as (H1 & H2 & H3 & H4 & _).
    assert (a / 60 < 10 ∨ 10 ≤ a / 60 < 100 ∨ 100 ≤ a / 60)%Z as [Hs|[Hm|Hl]] by lia.
    + destruct (H1 Hs) as [-> Hlen]. simpl. rewrite Hlen. split; [intros _|lia]. lia.
    + destruct (H2 ltac:(lia)) as (-> & _). rewrite (H3 Hm). split; [intros _|lia]. lia.
    + destruct (H2 ltac:(lia)) as (-> & _). specialize (H4 Hl). split; [lia|]. lia.
Qed.

Lemma formatTime_spec_witness :
  (0 ≤ 125)%Z ∧ (0 ≤ 7325)%Z ∧
  formatTime 125 = "02:05" ∧ formatTime 7325 = "122:05" ∧
  String.length (formatTime 125) = 5.
Proof.
  split; [lia|]. split; [lia|]. split; [reflexivity|]. split; [reflexivity|].
  destruct (formatTime_spec 125 7325) as (_ & _ & H); [lia|lia|].
  apply H. lia.
Defined.
